(** * Interaction Calculus Mini: the term model, the parser and the reducer
    of [ic-mini/src/ic.py], embedded as Rocq functions.

    Python strings are sequences of Unicode code points, so a string is a
    list of code points ([N]); offsets are indices into that list.  Python
    integers are unbounded ([Z]).  The evaluator's mutable attributes are
    passed explicitly; recursion that is not structural in the source
    (the parser's descent, [reduce] re-entering itself on a rebuilt term)
    carries a depth budget. *)

From Stdlib Require Import String Ascii.
From Stdlib Require Import List ZArith NArith Bool Lia.
From Stdlib Require Import DecimalN DecimalFacts.
Import ListNotations.

Set Implicit Arguments.

(** ** Strings *)

Definition char := N.
Definition pystr := list char.

Definition lit (s : string) : pystr := map N_of_ascii (list_ascii_of_string s).

(** The three characters of the surface syntax outside ASCII. *)
Definition c_lambda : char := 955%N.   (* U+03BB *)
Definition c_sub0 : char := 8320%N.    (* U+2080 *)
Definition c_sub1 : char := 8321%N.    (* U+2081 *)

Fixpoint str_eqb (a b : pystr) : bool :=
  match a, b with
  | [], [] => true
  | x :: a', y :: b' => N.eqb x y && str_eqb a' b'
  | _, _ => false
  end.

(** [str(n)] for an integer: decimal digits, a leading minus sign. *)
Fixpoint uint_chars (d : Decimal.uint) : pystr :=
  match d with
  | Decimal.Nil => []
  | Decimal.D0 d => 48%N :: uint_chars d
  | Decimal.D1 d => 49%N :: uint_chars d
  | Decimal.D2 d => 50%N :: uint_chars d
  | Decimal.D3 d => 51%N :: uint_chars d
  | Decimal.D4 d => 52%N :: uint_chars d
  | Decimal.D5 d => 53%N :: uint_chars d
  | Decimal.D6 d => 54%N :: uint_chars d
  | Decimal.D7 d => 55%N :: uint_chars d
  | Decimal.D8 d => 56%N :: uint_chars d
  | Decimal.D9 d => 57%N :: uint_chars d
  end.

Definition str_N (n : N) : pystr := uint_chars (N.to_uint n).

Definition str_int (z : Z) : pystr :=
  if (z <? 0)%Z then 45%N :: str_N (Z.abs_N z) else str_N (Z.to_N z).

(** ** AST *)

Inductive Term : Type :=
| Var (name : pystr)
| Dp0 (name : pystr)
| Dp1 (name : pystr)
| Num (value : Z)
| Lam (var : pystr) (body : Term)
| App (func arg : Term)
| Sup (label : pystr) (fst snd : Term)
| Dup (name label : pystr) (value body : Term)
| Era
| Op2 (op : pystr) (left right : Term)
| Pair (fst snd : Term).

(** [Term.__str__], variant by variant. *)
Fixpoint str (t : Term) : pystr :=
  match t with
  | Var name => name
  | Dp0 name => name ++ [c_sub0]
  | Dp1 name => name ++ [c_sub1]
  | Num value => str_int value
  | Lam var body => c_lambda :: var ++ lit "." ++ str body
  | App func arg => lit "(" ++ str func ++ lit " " ++ str arg ++ lit ")"
  | Sup label fst snd =>
      lit "&" ++ label ++ lit "{" ++ str fst ++ lit ", " ++ str snd ++ lit "}"
  | Dup name label value body =>
      lit "! " ++ name ++ lit " &" ++ label ++ lit "= " ++ str value
        ++ lit "; " ++ str body
  | Era => lit "&{}"
  | Op2 op lhs rhs =>
      lit "(" ++ str lhs ++ lit " " ++ op ++ lit " " ++ str rhs ++ lit ")"
  | Pair fst snd => lit "(" ++ str fst ++ lit ", " ++ str snd ++ lit ")"
  end.

(** [str(prev)] in the driver, where [prev] starts as [None]. *)
Definition str_opt (prev : option Term) : pystr :=
  match prev with
  | Some t => str t
  | None => lit "None"
  end.

(** ** Exceptions and outcomes *)

(** The four [raise ParseError(...)] sites, with what each message holds. *)
Inductive parse_failure : Type :=
| TrailingCharacter (pos : nat) (c : char)   (* Parser.parse *)
| Expected (expected : pystr) (pos : nat)    (* Parser.consume *)
| UnexpectedEnd                              (* Parser.parse_term, no offset *)
| UnexpectedCharacter (c : char) (pos : nat) (* Parser.parse_term *).

Inductive exn : Type :=
| ParseError (e : parse_failure)
| ValueError (arg : pystr).

Inductive outcome (A : Type) : Type :=
| Ok (a : A)
| Raise (e : exn)
| NoFuel.

Arguments Ok {A} a.
Arguments Raise {A} e.
Arguments NoFuel {A}.

(** ** Evaluator state *)

Record Evaluator : Type := mkEvaluator {
  debug : bool;
  fresh_counter : N;
  steps : N;
  max_steps : N
}.

(** [Evaluator.__init__] *)
Definition new_Evaluator (dbg : bool) : Evaluator :=
  {| debug := dbg; fresh_counter := 0; steps := 0; max_steps := 10000 |}.

(** Code that threads a mutable attribute and may raise: the state goes in
    and comes out.  [reduce] and its helpers read and write
    [fresh_counter] only ([M]); the parser's methods move [pos] ([P],
    below). *)
Definition ret {S A : Type} (a : A) : S -> outcome (A * S) :=
  fun s => Ok (a, s).

Definition bind {S A B : Type} (m : S -> outcome (A * S))
    (f : A -> S -> outcome (B * S)) : S -> outcome (B * S) :=
  fun s => match m s with
           | Ok (a, s') => f a s'
           | Raise e => Raise e
           | NoFuel => NoFuel
           end.

Definition raise {S A : Type} (e : exn) : S -> outcome (A * S) :=
  fun _ => Raise e.

Notation "x <- m ;; k" := (bind m (fun x => k))
  (at level 61, m at next level, right associativity).
Notation "m ;;; k" := (bind m (fun _ => k))
  (at level 61, right associativity).

Definition M (A : Type) : Type := N -> outcome (A * N).

(** [Evaluator.fresh_name] *)
Definition fresh_name (prefix : pystr) : M pystr :=
  fun c => let c' := (c + 1)%N in Ok (lit "$" ++ prefix ++ str_N c', c').

(** ** Structural predicates and substitution *)

(** [Evaluator.contains_dp] *)
Fixpoint contains_dp (term : Term) (name : pystr) (idx : nat) : bool :=
  match term with
  | Dp0 n => str_eqb n name && Nat.eqb idx 0
  | Dp1 n => str_eqb n name && Nat.eqb idx 1
  | Var _ | Num _ | Era => false
  | Lam _ body => contains_dp body name idx
  | App func arg => contains_dp func name idx || contains_dp arg name idx
  | Sup _ fst snd => contains_dp fst name idx || contains_dp snd name idx
  | Dup _ _ value body => contains_dp value name idx || contains_dp body name idx
  | Op2 _ lhs rhs => contains_dp lhs name idx || contains_dp rhs name idx
  | Pair fst snd => contains_dp fst name idx || contains_dp snd name idx
  end.

(** [Evaluator.substitute] *)
Fixpoint substitute (term : Term) (var : pystr) (value : Term) : Term :=
  match term with
  | Var name => if str_eqb name var then value else term
  | Dp0 _ | Dp1 _ | Num _ | Era => term
  | Lam v body =>
      if str_eqb v var then term else Lam v (substitute body var value)
  | App func arg => App (substitute func var value) (substitute arg var value)
  | Sup label fst snd =>
      Sup label (substitute fst var value) (substitute snd var value)
  | Dup name label v body =>
      Dup name label (substitute v var value) (substitute body var value)
  | Op2 op lhs rhs =>
      Op2 op (substitute lhs var value) (substitute rhs var value)
  | Pair fst snd => Pair (substitute fst var value) (substitute snd var value)
  end.

(** [Evaluator.substitute_dp] *)
Fixpoint substitute_dp (term : Term) (name : pystr) (val0 val1 : Term) : Term :=
  match term with
  | Dp0 n => if str_eqb n name then val0 else term
  | Dp1 n => if str_eqb n name then val1 else term
  | Var _ | Num _ | Era => term
  | Lam v body => Lam v (substitute_dp body name val0 val1)
  | App func arg =>
      App (substitute_dp func name val0 val1) (substitute_dp arg name val0 val1)
  | Sup label fst snd =>
      Sup label (substitute_dp fst name val0 val1)
        (substitute_dp snd name val0 val1)
  | Dup n label v body =>
      Dup n label (substitute_dp v name val0 val1)
        (substitute_dp body name val0 val1)
  | Op2 op lhs rhs =>
      Op2 op (substitute_dp lhs name val0 val1)
        (substitute_dp rhs name val0 val1)
  | Pair fst snd =>
      Pair (substitute_dp fst name val0 val1) (substitute_dp snd name val0 val1)
  end.

(** ** Reducer *)

(** [Evaluator.compute_op]; Python's [//] rounds toward minus infinity,
    as [Z.div] does. *)
Definition compute_op (op : pystr) (a b : Z) : M Z :=
  if str_eqb op (lit "+") then ret (a + b)%Z
  else if str_eqb op (lit "-") then ret (a - b)%Z
  else if str_eqb op (lit "*") then ret (a * b)%Z
  else if str_eqb op (lit "/") then
    ret (if negb (b =? 0)%Z then (a / b)%Z else 0%Z)
  else raise (ValueError op).

Section Reduce.

(** The recursive calls [self.reduce(...)] of the helpers. *)
Variable reduce : Term -> M Term.

(** [Evaluator.reduce_app] *)
Definition reduce_app (func0 arg : Term) : M Term :=
func <- reduce func0 ;;
match func with
| Lam var body => ret (substitute body var arg)
| Sup label fst snd =>
  x <- fresh_name (lit "x") ;;
  ret (Dup x label arg (Sup label (App fst (Dp0 x)) (App snd (Dp1 x))))
| Era => ret Era
| _ => arg' <- reduce arg ;; ret (App func arg')
end.

(** [Evaluator.reduce_dup] *)
Definition reduce_dup (name label : pystr) (value0 body : Term) : M Term :=
value <- reduce value0 ;;
let has_dp0 := contains_dp body name 0 in
let has_dp1 := contains_dp body name 1 in
if negb has_dp0 && negb has_dp1 then reduce body
else
match value with
| Num _ => reduce (substitute_dp body name value value)
| Era => reduce (substitute_dp body name Era Era)
| Sup vlabel vfst vsnd =>
    if str_eqb vlabel label then
      reduce (substitute_dp body name vfst vsnd)
    else
      a_name <- fresh_name (lit "a") ;;
      b_name <- fresh_name (lit "b") ;;
      reduce
        (Dup a_name label vfst
           (Dup b_name label vsnd
              (substitute_dp body name
                 (Sup vlabel (Dp0 a_name) (Dp0 b_name))
                 (Sup vlabel (Dp1 a_name) (Dp1 b_name)))))
| Lam var lbody =>
    x0 <- fresh_name (lit "x") ;;
    x1 <- fresh_name (lit "x") ;;
    b_name <- fresh_name (lit "b") ;;
    let new_body :=
      substitute lbody var (Sup label (Var x0) (Var x1)) in
    reduce
      (Dup b_name label new_body
         (substitute_dp body name
            (Lam x0 (Dp0 b_name)) (Lam x1 (Dp1 b_name))))
| Pair vfst vsnd =>
    a_name <- fresh_name (lit "a") ;;
    b_name <- fresh_name (lit "b") ;;
    reduce
      (Dup a_name label vfst
         (Dup b_name label vsnd
            (substitute_dp body name
               (Pair (Dp0 a_name) (Dp0 b_name))
               (Pair (Dp1 a_name) (Dp1 b_name)))))
| _ =>
    if negb (str_eqb (str value) (str value0)) then
      ret (Dup name label value body)
    else
      new_body <- reduce body ;;
      if negb (str_eqb (str new_body) (str body)) then
        ret (Dup name label value new_body)
      else ret (Dup name label value new_body)
end.

(** [Evaluator.reduce_op2] *)
Definition reduce_op2 (op : pystr) (left0 right0 : Term) : M Term :=
lhs <- reduce left0 ;;
rhs <- reduce right0 ;;
match lhs, rhs with
| Num a, Num b => result <- compute_op op a b ;; ret (Num result)
| Sup llabel lfst lsnd, _ =>
  y <- fresh_name (lit "y") ;;
  ret (Dup y llabel rhs
         (Sup llabel (Op2 op lfst (Dp0 y)) (Op2 op lsnd (Dp1 y))))
| _, Sup rlabel rfst rsnd =>
  ret (Sup rlabel (Op2 op lhs rfst) (Op2 op lhs rsnd))
| Era, _ => ret Era
| _, Era => ret Era
| _, _ => ret (Op2 op lhs rhs)
end.

End Reduce.

(** [Evaluator.reduce]; [fuel] bounds the depth of the calls. *)
Fixpoint reduce (fuel : nat) (term : Term) {struct fuel} : M Term :=
  match fuel with
  | O => fun _ => NoFuel
  | S f =>
      match term with
      | Num _ | Var _ | Dp0 _ | Dp1 _ | Era => ret term
      | App func arg => reduce_app (reduce f) func arg
      | Dup name label value body => reduce_dup (reduce f) name label value body
      | Lam var body => b <- reduce f body ;; ret (Lam var b)
      | Sup label fst snd =>
          a <- reduce f fst ;; b <- reduce f snd ;; ret (Sup label a b)
      | Op2 op lhs rhs => reduce_op2 (reduce f) op lhs rhs
      | Pair fst snd => a <- reduce f fst ;; b <- reduce f snd ;; ret (Pair a b)
      end
  end.

(** The [while] loop of [Evaluator.evaluate]; [budget] only has to cover
    the iterations the test on [steps] allows. *)
Fixpoint evaluate_loop (budget fuel : nat) (ev : Evaluator) (term : Term)
    (prev : option Term) : outcome (Term * Evaluator) :=
  if negb (str_eqb (str term) (str_opt prev)) && (steps ev <? max_steps ev)%N
  then
    match budget with
    | O => NoFuel
    | S budget' =>
        match reduce fuel term (fresh_counter ev) with
        | Ok (term', c') =>
            evaluate_loop budget' fuel
              {| debug := debug ev; fresh_counter := c';
                 steps := steps ev + 1; max_steps := max_steps ev |}
              term' (Some term)
        | Raise e => Raise e
        | NoFuel => NoFuel
        end
    end
  else Ok (term, ev).

(** [Evaluator.evaluate] *)
Definition evaluate (fuel : nat) (ev : Evaluator) (term : Term)
    : outcome (Term * Evaluator) :=
  let ev0 := {| debug := debug ev; fresh_counter := fresh_counter ev;
                steps := 0; max_steps := max_steps ev |} in
  evaluate_loop (N.to_nat (max_steps ev0)) fuel ev0 term None.

(** ** Parser *)

Definition chr (a : ascii) : char := N_of_ascii a.

(** [str.isascii] and the ASCII part of [isalpha], [isdigit]. *)
Definition isascii (c : char) : bool := (c <? 128)%N.

Definition ascii_digit (c : char) : bool := (48 <=? c)%N && (c <=? 57)%N.

Definition ascii_alpha (c : char) : bool :=
  ((65 <=? c)%N && (c <=? 90)%N) || ((97 <=? c)%N && (c <=? 122)%N).

(** [int(s)] on ASCII digits. *)
Definition decimal_step (acc : N) (c : char) : N := (10 * acc + (c - 48))%N.

Definition decimal_value (s : pystr) : N := fold_left decimal_step s 0%N.

(** Outside ASCII, [str.isalpha], [str.isdigit], [str.isalnum] and [int]
    follow the Unicode tables of the interpreter, which the repository does
    not hold: they are parameters of the parser. *)
Record UnicodeData : Type := {
  ud_isalpha : char -> bool;
  ud_isdigit : char -> bool;
  ud_isalnum : char -> bool;
  ud_int : pystr -> option Z
}.

Fixpoint span (p : char -> bool) (l : pystr) : nat :=
  match l with
  | c :: l' => if p c then S (span p l') else 0
  | [] => 0
  end.

Definition is_space (c : char) : bool :=
  N.eqb c 32 || N.eqb c 9 || N.eqb c 10 || N.eqb c 13.

Definition P (A : Type) : Type := nat -> outcome (A * nat).

Section Parser.

Variable ud : UnicodeData.

Definition isalpha (c : char) : bool :=
if isascii c then ascii_alpha c else ud_isalpha ud c.

Definition isdigit (c : char) : bool :=
if isascii c then ascii_digit c else ud_isdigit ud c.

Definition isalnum (c : char) : bool :=
if isascii c then ascii_alpha c || ascii_digit c else ud_isalnum ud c.

Definition int_of (s : pystr) : outcome Z :=
match s with
| [] => Raise (ValueError s)
| _ =>
  if forallb ascii_digit s then Ok (Z.of_N (decimal_value s))
  else match ud_int ud s with
       | Some z => Ok z
       | None => Raise (ValueError s)
       end
end.

(** The test of the three binder and label loops. *)
Definition word_char (c : char) : bool := isalnum c || N.eqb c (chr "_").

(** The loop of [parse_var], as the number of characters it accepts. *)
Fixpoint var_span (l : pystr) : nat :=
match l with
| c :: l' =>
  if isascii c && (isalnum c || N.eqb c (chr "_")) then
    if N.eqb c (chr "_")
       && match l' with
          | next_c :: _ => N.eqb next_c (chr "0") || N.eqb next_c (chr "1")
          | [] => false
          end
    then 0
    else S (var_span l')
  else 0
| [] => 0
end.

Variable text : pystr.

Definition get_pos : P nat := fun pos => Ok (pos, pos).

Definition advance (n : nat) : P unit := fun pos => Ok (tt, pos + n).

Definition lift {A} (o : outcome A) : P A :=
fun pos => match o with
         | Ok a => Ok (a, pos)
         | Raise e => Raise e
         | NoFuel => NoFuel
         end.

(** [self.text[a:b]] *)
Definition slice (a b : nat) : pystr := firstn (b - a) (skipn a text).

(** [while self.pos < len(self.text) and p(self.text[self.pos]): self.pos += 1] *)
Definition scan (p : char -> bool) : P unit :=
fun pos => Ok (tt, pos + span p (skipn pos text)).

Definition skip_whitespace : P unit := scan is_space.

Definition peek : P (option char) := fun pos => Ok (nth_error text pos, pos).

Definition peek_ahead (n : nat) : P pystr :=
fun pos => Ok (slice pos (pos + n), pos).

Definition consume (expected : pystr) : P unit :=
fun pos =>
if negb (str_eqb (slice pos (pos + length expected)) expected) then
  Raise (ParseError (Expected expected pos))
else skip_whitespace (pos + length expected).

Definition parse_num : P Term :=
start <- get_pos ;;
scan isdigit ;;;
pos <- get_pos ;;
value <- lift (int_of (slice start pos)) ;;
skip_whitespace ;;;
ret (Num value).

Definition parse_var : P Term :=
start <- get_pos ;;
(fun pos => Ok (tt, pos + var_span (skipn pos text))) ;;;
pos <- get_pos ;;
let name := slice start pos in
c <- peek ;;
a2 <- peek_ahead 2 ;;
match c with
| Some c =>
  if N.eqb c c_sub0 then advance 1 ;;; skip_whitespace ;;; ret (Dp0 name)
  else if N.eqb c c_sub1 then
    advance 1 ;;; skip_whitespace ;;; ret (Dp1 name)
  else if str_eqb a2 (lit "_0") then
    advance 2 ;;; skip_whitespace ;;; ret (Dp0 name)
  else if str_eqb a2 (lit "_1") then
    advance 2 ;;; skip_whitespace ;;; ret (Dp1 name)
  else skip_whitespace ;;; ret (Var name)
| None => skip_whitespace ;;; ret (Var name)
end.

(** A name or a label: the identical loops of [parse_lam], [parse_sup]
and [parse_dup]. *)
Definition parse_word : P pystr :=
start <- get_pos ;;
scan word_char ;;;
pos <- get_pos ;;
ret (slice start pos).

Definition default_label (label : pystr) : pystr :=
match label with
| [] => lit "L"
| _ => label
end.

Section Productions.

(** The recursive calls [self.parse_term()]. *)
Variable parse_term : P Term.

Definition parse_lam : P Term :=
c <- peek ;;
(match c with
| Some c' => if N.eqb c' c_lambda then consume [c_lambda]
        else consume (lit "\")
| None => consume (lit "\")
end) ;;;
var <- parse_word ;;
skip_whitespace ;;;
consume (lit ".") ;;;
body <- parse_term ;;
ret (Lam var body).

Definition parse_sup : P Term :=
consume (lit "&") ;;;
label <- parse_word ;;
let label := default_label label in
skip_whitespace ;;;
consume (lit "{") ;;;
fst <- parse_term ;;
consume (lit ",") ;;;
snd <- parse_term ;;
consume (lit "}") ;;;
ret (Sup label fst snd).

Definition parse_dup : P Term :=
consume (lit "!") ;;;
name <- parse_word ;;
skip_whitespace ;;;
consume (lit "&") ;;;
label <- parse_word ;;
let label := default_label label in
skip_whitespace ;;;
consume (lit "=") ;;;
value <- parse_term ;;
consume (lit ";") ;;;
body <- parse_term ;;
ret (Dup name label value body).

(** [for operator in ['+', '-', '*', '/']: if self.peek() == operator] *)
Definition find_operator (c : option char) : option pystr :=
match c with
| Some c' =>
find (fun operator => str_eqb [c'] operator)
[lit "+"; lit "-"; lit "*"; lit "/"]
| None => None
end.

Definition parse_paren : P Term :=
consume (lit "(") ;;;
first <- parse_term ;;
c <- peek ;;
if match c with Some c' => N.eqb c' (chr ",") | None => false end then
consume (lit ",") ;;;
second <- parse_term ;;
consume (lit ")") ;;;
ret (Pair first second)
else
match find_operator c with
| Some op =>
consume op ;;;
rhs <- parse_term ;;
consume (lit ")") ;;;
ret (Op2 op first rhs)
| None =>
second <- parse_term ;;
consume (lit ")") ;;;
ret (App first second)
end.

End Productions.

(** [Parser.parse_term]; [fuel] bounds the nesting of the calls. *)
Fixpoint parse_term (fuel : nat) {struct fuel} : P Term :=
match fuel with
| O => fun _ => NoFuel
| S f =>
  skip_whitespace ;;;
  c <- peek ;;
  match c with
  | None => raise (ParseError UnexpectedEnd)
  | Some c =>
      a3 <- peek_ahead 3 ;;
      if str_eqb a3 (lit "&{}") then consume (lit "&{}") ;;; ret Era
      else if N.eqb c (chr "&") then parse_sup (parse_term f)
      else if N.eqb c (chr "!") then parse_dup (parse_term f)
      else if N.eqb c c_lambda || N.eqb c (chr "\") then
        parse_lam (parse_term f)
      else if N.eqb c (chr "(") then parse_paren (parse_term f)
      else if isdigit c then parse_num
      else if isalpha c || N.eqb c (chr "_") then parse_var
      else pos <- get_pos ;; raise (ParseError (UnexpectedCharacter c pos))
  end
end.

(** [Parser.parse] *)
Definition Parser_parse (fuel : nat) : P Term :=
skip_whitespace ;;;
term <- parse_term fuel ;;
skip_whitespace ;;;
pos <- get_pos ;;
match nth_error text pos with
| Some c => raise (ParseError (TrailingCharacter pos c))
| None => ret term
end.

End Parser.

(** [parse(text)]: a parser at offset 0.  Every nested [parse_term] starts
    after a consumed character, so the nesting never exceeds the length. *)
Definition parse (ud : UnicodeData) (text : pystr) : outcome Term :=
  match Parser_parse ud text (S (length text)) 0 with
  | Ok (term, _) => Ok term
  | Raise e => Raise e
  | NoFuel => NoFuel
  end.

(** The module-level [evaluate(text)]: a new [Evaluator] for each call. *)
Definition evaluate_text (ud : UnicodeData) (fuel : nat) (text : pystr)
    : outcome Term :=
  match parse ud text with
  | Ok term =>
      match evaluate fuel (new_Evaluator false) term with
      | Ok (t, _) => Ok t
      | Raise e => Raise e
      | NoFuel => NoFuel
      end
  | Raise e => Raise e
  | NoFuel => NoFuel
  end.

(** * Properties *)

(** ** Strings *)

Lemma str_eqb_refl (a : pystr) : str_eqb a a = true.
Proof.
  induction a as [|x a IH]; simpl; [reflexivity|].
  now rewrite N.eqb_refl.
Qed.

Lemma str_eqb_eq (a b : pystr) : str_eqb a b = true <-> a = b.
Proof.
  split.
  - revert b; induction a as [|x a IH]; intros [|y b]; simpl; try discriminate.
    + reflexivity.
    + intros H. apply andb_true_iff in H as [Hx Hab].
      apply N.eqb_eq in Hx. now rewrite Hx, (IH b Hab).
  - intros ->. apply str_eqb_refl.
Qed.

Lemma str_eqb_neq (a b : pystr) : str_eqb a b = false <-> a <> b.
Proof.
  rewrite <- str_eqb_eq. destruct (str_eqb a b); split; congruence.
Qed.

(** ** The driver *)

Definition next_step (ev : Evaluator) (c : N) : Evaluator :=
  {| debug := debug ev; fresh_counter := c;
     steps := steps ev + 1; max_steps := max_steps ev |}.

Lemma evaluate_loop_unfold budget fuel ev term prev :
  evaluate_loop budget fuel ev term prev =
  if negb (str_eqb (str term) (str_opt prev)) && (steps ev <? max_steps ev)%N
  then
    match budget with
    | O => NoFuel
    | S budget' =>
        match reduce fuel term (fresh_counter ev) with
        | Ok (term', c') =>
            evaluate_loop budget' fuel (next_step ev c') term' (Some term)
        | Raise e => Raise e
        | NoFuel => NoFuel
        end
    end
  else Ok (term, ev).
Proof. destruct budget; reflexivity. Qed.

(** The budget of the loop covers what the test on [steps] allows. *)
Definition budget_ok (budget : nat) (ev : Evaluator) : Prop :=
  N.to_nat (max_steps ev) <= N.to_nat (steps ev) + budget.

Lemma budget_ok_next budget ev c :
  (steps ev <? max_steps ev)%N = true ->
  budget_ok budget ev ->
  exists budget', budget = S budget' /\ budget_ok budget' (next_step ev c).
Proof.
  unfold budget_ok. intros Hlt Hb. apply N.ltb_lt in Hlt.
  destruct budget as [|b]; [lia|].
  exists b; split; [reflexivity|]. simpl. lia.
Qed.

(** A term that one [reduce] returns as it is, is returned by the loop
    whatever [prev] holds, with the counter it came with. *)
Lemma evaluate_loop_stable budget fuel ev term prev :
  budget_ok budget ev ->
  reduce fuel term (fresh_counter ev) = Ok (term, fresh_counter ev) ->
  exists ev',
    evaluate_loop budget fuel ev term prev = Ok (term, ev')
    /\ fresh_counter ev' = fresh_counter ev
    /\ max_steps ev' = max_steps ev
    /\ (steps ev' <= steps ev + 1)%N.
Proof.
  intros Hb Hred. rewrite evaluate_loop_unfold.
  destruct (negb (str_eqb (str term) (str_opt prev))
            && (steps ev <? max_steps ev)%N) eqn:Hc.
  - apply andb_true_iff in Hc as [_ Hlt].
    destruct (budget_ok_next (fresh_counter ev) Hlt Hb) as (b & -> & _).
    rewrite Hred, evaluate_loop_unfold. simpl str_opt.
    rewrite str_eqb_refl. simpl.
    eexists; split; [reflexivity|]. simpl. repeat split; lia.
  - exists ev. repeat split; lia.
Qed.

(** ** Arithmetic *)

(** The arithmetic of the specification: exact, [/] truncating toward zero,
    division by zero giving 0. *)
Definition truncating_op (op : pystr) (a b : Z) : Z :=
  if str_eqb op (lit "+") then (a + b)%Z
  else if str_eqb op (lit "-") then (a - b)%Z
  else if str_eqb op (lit "*") then (a * b)%Z
  else if (b =? 0)%Z then 0%Z else Z.quot a b.

(** The arithmetic of [compute_op]: [/] is Python's floor division. *)
Definition floor_op (op : pystr) (a b : Z) : Z :=
  if str_eqb op (lit "+") then (a + b)%Z
  else if str_eqb op (lit "-") then (a - b)%Z
  else if str_eqb op (lit "*") then (a * b)%Z
  else if (b =? 0)%Z then 0%Z else (a / b)%Z.

Definition operators : list pystr := [lit "+"; lit "-"; lit "*"; lit "/"].

Lemma compute_op_floor op a b c :
  In op operators -> compute_op op a b c = Ok (floor_op op a b, c).
Proof.
  unfold operators. simpl.
  intros [<-|[<-|[<-|[<-|[]]]]]; unfold compute_op, floor_op; simpl;
    try reflexivity.
  destruct (b =? 0)%Z; reflexivity.
Qed.

Lemma floor_op_same_sign op a b :
  (0 <= a /\ 0 <= b)%Z \/ (a <= 0 /\ b <= 0)%Z ->
  floor_op op a b = truncating_op op a b.
Proof.
  intros Hs. unfold floor_op, truncating_op.
  repeat match goal with |- context [if str_eqb ?x ?y then _ else _] =>
    destruct (str_eqb x y); [reflexivity|] end.
  destruct (Z.eqb_spec b 0) as [|Hb]; [reflexivity|].
  destruct Hs as [[Ha Hb']|[Ha Hb']].
  - symmetry. apply Z.quot_div_nonneg; lia.
  - rewrite <- (Z.quot_opp_opp a b) by lia.
    rewrite <- (Z.div_opp_opp a b) by lia.
    symmetry. apply Z.quot_div_nonneg; lia.
Qed.

Lemma reduce_op2_nums fuel op a b c :
  In op operators ->
  reduce (S (S fuel)) (Op2 op (Num a) (Num b)) c = Ok (Num (floor_op op a b), c).
Proof.
  intros Hop. simpl. unfold reduce_op2, bind, ret.
  now rewrite (compute_op_floor a b c Hop).
Qed.

(** C1 (counterexample).  [(-7) / 2] normalises to [-4]: the division of
    [compute_op] rounds toward minus infinity, where truncation toward zero
    gives [-3]. *)
Lemma C1_division_floors :
  exists ev',
    evaluate 2 (new_Evaluator false) (Op2 (lit "/") (Num (-7)) (Num 2))
      = Ok (Num (-4), ev')
    /\ truncating_op (lit "/") (-7) 2 = (-3)%Z.
Proof. eexists; split; vm_compute; reflexivity. Qed.

(** C1 (amended).  For all integers [a] and [b] and each of the four
    operators, normalising [Op2(op, Num a, Num b)] yields [Num] of the exact
    result, where [/] is floor division (rounding toward minus infinity) and
    division by zero gives 0; floor division agrees with truncation toward
    zero whenever the operands have the same sign. *)
Theorem C1_arithmetic (op : pystr) (a b : Z) (fuel : nat) (ev : Evaluator) :
  In op operators ->
  2 <= fuel ->
  (0 < max_steps ev)%N ->
  (exists ev',
     evaluate fuel ev (Op2 op (Num a) (Num b)) = Ok (Num (floor_op op a b), ev')
     /\ fresh_counter ev' = fresh_counter ev)
  /\ floor_op (lit "/") a 0 = 0%Z
  /\ ((0 <= a /\ 0 <= b)%Z \/ (a <= 0 /\ b <= 0)%Z ->
      floor_op op a b = truncating_op op a b).
Proof.
  intros Hop Hfuel Hmax. split; [|split].
  - destruct fuel as [|[|fuel]]; try lia.
    unfold evaluate. rewrite evaluate_loop_unfold. cbn [steps max_steps].
    replace (0 <? max_steps ev)%N with true by (symmetry; now apply N.ltb_lt).
    replace (str_eqb (str (Op2 op (Num a) (Num b))) (str_opt None))
      with false by reflexivity.
    cbn [negb andb].
    destruct (N.to_nat (max_steps ev)) as [|budget] eqn:Hbud; [lia|].
    cbn [fresh_counter]. rewrite (reduce_op2_nums fuel a b _ Hop).
    edestruct (@evaluate_loop_stable budget (S (S fuel))
                 (next_step
                    {| debug := debug ev; fresh_counter := fresh_counter ev;
                       steps := 0; max_steps := max_steps ev |}
                    (fresh_counter ev))
                 (Num (floor_op op a b))
                 (Some (Op2 op (Num a) (Num b)))) as (ev' & Hev & Hc & _).
    + unfold budget_ok. simpl. lia.
    + reflexivity.
    + exists ev'. split; [exact Hev|exact Hc].
  - unfold floor_op. simpl. reflexivity.
  - apply floor_op_same_sign.
Qed.

Lemma C1_arithmetic_witness :
  exists ev',
    evaluate 2 (new_Evaluator false) (Op2 (lit "/") (Num 7) (Num 2))
      = Ok (Num 3, ev').
Proof.
  destruct (@C1_arithmetic (lit "/") 7 2 2 (new_Evaluator false))
    as [(ev' & H & _) _].
  - simpl. auto.
  - lia.
  - reflexivity.
  - exists ev'. exact H.
Defined.

(** ** Parsing concrete inputs *)

(** Tables that know no character outside ASCII: an instance of the
    parameter, for inputs on which the tables are not consulted. *)
Definition ascii_only : UnicodeData :=
  {| ud_isalpha := fun _ => false;
     ud_isdigit := fun _ => false;
     ud_isalnum := fun _ => false;
     ud_int := fun _ => None |}.

(** C10.  [parse] accepts an abstraction with an empty binder: ['λ.x'] and
    ['\.x'] parse to [Lam] with the empty string as variable and [Var x] as
    body, and likewise ['! &L= 1; 2'] parses to a [Dup] whose name is empty;
    no [ParseError] is raised. *)
Theorem C10_empty_binder_accepted (ud : UnicodeData) :
  parse ud (c_lambda :: lit ".x") = Ok (Lam [] (Var (lit "x")))
  /\ parse ud (lit "\.x") = Ok (Lam [] (Var (lit "x")))
  /\ parse ud (lit "! &L= 1; 2") = Ok (Dup [] (lit "L") (Num 1) (Num 2)).
Proof. repeat split; vm_compute; reflexivity. Qed.

(** The offset a [ParseError] message holds, if it holds one. *)
Definition offset_of (e : parse_failure) : option nat :=
  match e with
  | TrailingCharacter pos _ => Some pos
  | Expected _ pos => Some pos
  | UnexpectedEnd => None
  | UnexpectedCharacter _ pos => Some pos
  end.

(** C6 (counterexample).  Not every parse failure carries an offset:
    ['(1 +'] fails with "Unexpected end of input", which has none. *)
Lemma C6_end_of_input_has_no_offset :
  ~ (forall ud text e,
       parse ud text = Raise (ParseError e) -> exists p, offset_of e = Some p).
Proof.
  intros H.
  destruct (H ascii_only (lit "(1 +") UnexpectedEnd) as [p Hp].
  - vm_compute. reflexivity.
  - discriminate Hp.
Qed.

(** ** The parser stays inside the text *)

Ltac case_if :=
  match goal with
  | |- context [if ?b then _ else _] => destruct b eqn:?
  end.

Lemma span_le p (l : pystr) : span p l <= length l.
Proof.
  induction l as [|c l IH]; simpl; [lia|]. destruct (p c); simpl; lia.
Qed.

Lemma var_span_le ud (l : pystr) : var_span ud l <= length l.
Proof.
  induction l as [|c l IH]; simpl; [lia|].
  repeat case_if; simpl; lia.
Qed.

Section ParserFacts.

Variable ud : UnicodeData.
Variable text : pystr.

(** What an exception says about the place it names. *)
Definition site_ok (e : exn) : Prop :=
match e with
| ParseError (TrailingCharacter p c) => nth_error text p = Some c
| ParseError (UnexpectedCharacter c p) => nth_error text p = Some c
| ParseError (Expected s p) =>
  p <= length text /\ slice text p (p + length s) <> s
| ParseError UnexpectedEnd => True
| ValueError _ => True
end.

Definition post {A} (pos : nat) (o : outcome (A * nat)) : Prop :=
match o with
| Ok (_, pos') => pos <= pos' <= length text
| Raise e => site_ok e
| NoFuel => False
end.

(** [m] behaves from every offset at or after [lo]. *)
Definition good {A} (lo : nat) (m : P A) : Prop :=
forall pos, lo <= pos <= length text -> post pos (m pos).

Lemma post_weaken A pos0 pos (o : outcome (A * nat)) :
pos0 <= pos -> post pos o -> post pos0 o.
Proof. destruct o as [[a p]| |]; simpl; intros; auto; lia. Qed.

Lemma good_mono A lo lo' (m : P A) : lo <= lo' -> good lo m -> good lo' m.
Proof. intros Hle Hm pos Hpos. apply Hm. lia. Qed.

Lemma good_ret A lo (a : A) : good lo (ret a).
Proof. intros pos Hpos. simpl. lia. Qed.

Lemma good_bind A B lo (m : P A) (f : A -> P B) :
good lo m -> (forall a, good lo (f a)) -> good lo (bind m f).
Proof.
intros Hm Hf pos Hpos. unfold bind. specialize (Hm pos Hpos).
destruct (m pos) as [[a pos']| |]; simpl in *; auto.
apply post_weaken with pos'; [lia|]. apply Hf. lia.
Qed.

Lemma good_raise A lo (e : exn) : site_ok e -> good lo (@raise nat A e).
Proof. intros He pos _. exact He. Qed.

Lemma good_get_pos lo : good lo get_pos.
Proof. intros pos Hpos. simpl. lia. Qed.

Lemma good_peek lo : good lo (peek text).
Proof. intros pos Hpos. simpl. lia. Qed.

Lemma good_peek_ahead lo n : good lo (peek_ahead text n).
Proof. intros pos Hpos. simpl. lia. Qed.

Lemma good_scan lo p : good lo (scan text p).
Proof.
intros pos Hpos. unfold scan. simpl.
pose proof (span_le p (skipn pos text)) as H.
rewrite length_skipn in H. lia.
Qed.

Lemma good_int_of lo s : good lo (lift (int_of ud s)).
Proof.
intros pos Hpos. unfold lift, int_of.
destruct s; simpl; auto.
case_if; simpl; [lia|].
destruct (ud_int ud _); simpl; auto; lia.
Qed.

Lemma consume_post expected pos :
pos <= length text ->
match consume text expected pos with
| Ok (_, pos') => pos + length expected <= pos' <= length text
| Raise e => site_ok e
| NoFuel => False
end.
Proof.
intros Hpos. unfold consume.
destruct (str_eqb (slice text pos (pos + length expected)) expected) eqn:He;
simpl.
- apply str_eqb_eq in He.
assert (Hlen : pos + length expected <= length text).
{ apply (f_equal (@length char)) in He. unfold slice in He.
  rewrite length_firstn, length_skipn in He. lia. }
pose proof (@good_scan 0 is_space (pos + length expected)) as H.
unfold skip_whitespace. unfold scan in *. simpl in *. lia.
- apply str_eqb_neq in He. split; assumption.
Qed.

Lemma good_consume lo expected : good lo (consume text expected).
Proof.
intros pos Hpos. pose proof (@consume_post expected pos) as H.
destruct (consume text expected pos) as [[u p]| |]; simpl in *;
try apply H; lia.
Qed.

(** After a literal that is not empty, the rest runs strictly later. *)
Lemma consume_then A lo pos expected (k : P A) :
expected <> [] ->
lo <= pos <= length text ->
good (S lo) k ->
post pos ((consume text expected ;;; k) pos).
Proof.
intros Hne Hpos Hk. unfold bind.
pose proof (@consume_post expected pos) as H.
destruct (consume text expected pos) as [[u p]| |]; simpl in *;
try (apply H; lia).
assert (0 < length expected) by (destruct expected; simpl; [congruence|lia]).
assert (pos + length expected <= p <= length text) by (apply H; lia).
apply post_weaken with p; [lia|]. apply Hk. lia.
Qed.

Lemma good_parse_word lo : good lo (parse_word ud text).
Proof.
unfold parse_word.
repeat (apply good_bind; [|intros ?]);
auto using good_get_pos, good_scan, good_ret.
Qed.

Lemma good_parse_num lo : good lo (parse_num ud text).
Proof.
unfold parse_num, skip_whitespace.
repeat (apply good_bind; [|intros ?]);
auto using good_get_pos, good_scan, good_ret, good_int_of.
Qed.

Lemma good_advance_skip lo n pos (t : Term) :
lo <= pos -> pos + n <= length text ->
post pos ((advance n ;;; skip_whitespace text ;;; ret t) pos).
Proof.
intros Hlo Hlen. unfold bind, advance, skip_whitespace, ret. simpl.
pose proof (@good_scan 0 is_space (pos + n)) as H.
unfold scan in *. simpl in *. lia.
Qed.

Lemma slice_length_le a n s : slice text a (a + n) = s -> length s = n ->
a + n <= length text \/ n = 0.
Proof.
intros <- Hl. unfold slice in Hl.
rewrite length_firstn, length_skipn in Hl. lia.
Qed.

Lemma good_parse_var lo : good lo (parse_var ud text).
Proof.
intros pos Hpos. unfold parse_var.
unfold bind at 1. unfold get_pos at 1.
unfold bind at 1.
pose proof (var_span_le ud (skipn pos text)) as Hsp.
rewrite length_skipn in Hsp.
set (pos1 := pos + var_span ud (skipn pos text)) in *.
unfold bind at 1. unfold get_pos at 1.
unfold bind at 1. unfold peek at 1.
unfold bind at 1. unfold peek_ahead at 1.
assert (Hws : post pos ((skip_whitespace text ;;;
                       ret (Var (slice text pos pos1))) pos1)).
{ apply post_weaken with pos1; [lia|].
apply (@good_bind _ _ 0); [apply good_scan|intros; apply good_ret|lia]. }
destruct (nth_error text pos1) as [c|] eqn:Hc; [|exact Hws].
assert (pos1 < length text) by (apply nth_error_Some; congruence).
destruct (N.eqb c c_sub0).
{ apply post_weaken with pos1; [lia|]. apply good_advance_skip with 0; lia. }
destruct (N.eqb c c_sub1).
{ apply post_weaken with pos1; [lia|]. apply good_advance_skip with 0; lia. }
destruct (str_eqb (slice text pos1 (pos1 + 2)) (lit "_0")) eqn:H0.
{ apply str_eqb_eq in H0. apply slice_length_le in H0; [|reflexivity].
apply post_weaken with pos1; [lia|]. apply good_advance_skip with 0; lia. }
destruct (str_eqb (slice text pos1 (pos1 + 2)) (lit "_1")) eqn:H1.
{ apply str_eqb_eq in H1. apply slice_length_le in H1; [|reflexivity].
apply post_weaken with pos1; [lia|]. apply good_advance_skip with 0; lia. }
exact Hws.
Qed.

Section GoodProductions.

Variable rec : P Term.
Variable lo : nat.
Hypothesis good_rec : good (S lo) rec.

Ltac chain :=
repeat first
[ apply good_ret
| apply good_consume
| apply good_parse_word
| apply good_scan
| apply good_peek
| exact good_rec
| apply good_bind; [|intros ?] ].

Lemma good_parse_lam pos :
lo <= pos <= length text -> post pos (parse_lam ud text rec pos).
Proof.
intros Hpos. unfold parse_lam.
unfold bind at 1. unfold peek at 1.
assert (Hk : good (S lo)
    (var <- parse_word ud text ;;
     skip_whitespace text ;;;
     consume text (lit ".") ;;;
     body <- rec ;; ret (Lam var body))).
{ unfold skip_whitespace. chain. }
destruct (nth_error text pos) as [c|];
[destruct (N.eqb c c_lambda)|];
apply consume_then with lo; auto; discriminate.
Qed.

Lemma good_parse_sup pos :
lo <= pos <= length text -> post pos (parse_sup ud text rec pos).
Proof.
intros Hpos. unfold parse_sup.
apply consume_then with lo; auto; [discriminate|].
unfold skip_whitespace. chain.
Qed.

Lemma good_parse_dup pos :
lo <= pos <= length text -> post pos (parse_dup ud text rec pos).
Proof.
intros Hpos. unfold parse_dup.
apply consume_then with lo; auto; [discriminate|].
unfold skip_whitespace. chain.
Qed.

Lemma good_parse_paren pos :
lo <= pos <= length text -> post pos (parse_paren text rec pos).
Proof.
intros Hpos. unfold parse_paren.
apply consume_then with lo; auto; [discriminate|].
apply good_bind; [exact good_rec|intros first].
apply good_bind; [apply good_peek|intros c].
destruct (match c with Some c' => N.eqb c' (chr ",") | None => false end).
- chain.
- destruct (find_operator c); chain.
Qed.

End GoodProductions.

Lemma parse_term_post fuel pos :
pos <= length text -> length text < fuel + pos ->
post pos (parse_term ud text fuel pos).
Proof.
revert pos. induction fuel as [|f IH]; intros pos Hpos Hfuel; [lia|].
cbn [parse_term].
unfold bind at 1.
pose proof (@good_scan 0 is_space pos) as Hws.
unfold skip_whitespace, scan in *. simpl in Hws.
set (pos1 := pos + span is_space (skipn pos text)) in *.
assert (Hpos1 : pos <= pos1 <= length text) by lia.
assert (Hrec : good (S pos1) (parse_term ud text f)).
{ intros p Hp. apply IH; lia. }
apply post_weaken with pos1; [lia|].
unfold bind at 1. unfold peek at 1.
destruct (nth_error text pos1) as [c|] eqn:Hc; [|exact I].
unfold bind at 1. unfold peek_ahead at 1.
destruct (str_eqb _ (lit "&{}")).
{ apply (@good_bind _ _ pos1);
  [apply good_consume|intros; apply good_ret|lia]. }
destruct (N.eqb c (chr "&")); [apply good_parse_sup with pos1; auto; lia|].
destruct (N.eqb c (chr "!")); [apply good_parse_dup with pos1; auto; lia|].
destruct (N.eqb c c_lambda || N.eqb c (chr "\"));
[apply good_parse_lam with pos1; auto; lia|].
destruct (N.eqb c (chr "("));
[apply good_parse_paren with pos1; auto; lia|].
destruct (isdigit ud c); [apply (@good_parse_num pos1); lia|].
destruct (isalpha ud c || N.eqb c (chr "_"));
[apply (@good_parse_var pos1); lia|].
exact Hc.
Qed.

Lemma Parser_parse_post :
post 0 (Parser_parse ud text (S (length text)) 0).
Proof.
unfold Parser_parse.
apply (@good_bind _ _ 0); [apply good_scan| |lia]. intros _.
apply good_bind.
{ intros pos Hpos. apply parse_term_post; lia. }
intros term.
apply good_bind; [apply good_scan|]. intros _.
intros pos Hpos. unfold bind, get_pos.
destruct (nth_error text pos) as [c|] eqn:Hc; simpl; [exact Hc|lia].
Qed.

End ParserFacts.

(** C6 (amended).  [parse] always returns: a term or an exception, never an
    exhausted descent.  A [ParseError] for an unexpected character names the
    offset at which that character stands; one for a missing delimiter
    names an offset, at most the length of the input, at which the
    delimiter is not found; the [ParseError] for an unexpected end of input
    carries no offset.  ['(1 +'] and ['λ.'] fail with that last error (the
    missing name of ['λ.'] is not what is rejected), and ['&L{1,2'] fails
    with "Expected '}'" at offset 6, the end of the input. *)
Theorem C6_parse_error_offsets (ud : UnicodeData) :
  (forall text,
     match parse ud text with
     | Ok _ => True
     | Raise (ParseError (TrailingCharacter p c)) => nth_error text p = Some c
     | Raise (ParseError (UnexpectedCharacter c p)) => nth_error text p = Some c
     | Raise (ParseError (Expected s p)) =>
         p <= length text /\ slice text p (p + length s) <> s
     | Raise (ParseError UnexpectedEnd) => offset_of UnexpectedEnd = None
     | Raise (ValueError _) => True
     | NoFuel => False
     end)
  /\ parse ud (lit "(1 +") = Raise (ParseError UnexpectedEnd)
  /\ parse ud (lit "&L{1,2") = Raise (ParseError (Expected (lit "}") 6))
  /\ length (lit "&L{1,2") = 6
  /\ parse ud (c_lambda :: lit ".") = Raise (ParseError UnexpectedEnd).
Proof.
  split.
  - intros text. unfold parse.
    pose proof (Parser_parse_post ud text) as H.
    destruct (Parser_parse ud text (S (length text)) 0) as [[t p]|e|];
      simpl in H; auto.
    destruct e as [[p c|s p| |c p]|s]; simpl in *; auto.
  - repeat split; vm_compute; reflexivity.
Qed.

(** ** The depth budget of [reduce] only cuts runs short *)

(** [m2] returns what [m1] returns, wherever [m1] does not run out. *)
Definition extends {A} (m1 m2 : M A) : Prop :=
  forall c, m1 c <> NoFuel -> m2 c = m1 c.

Lemma extends_refl A (m : M A) : extends m m.
Proof. intros c _. reflexivity. Qed.

Lemma extends_bind A B (m1 m2 : M A) (f1 f2 : A -> M B) :
  extends m1 m2 -> (forall a, extends (f1 a) (f2 a)) ->
  extends (bind m1 f1) (bind m2 f2).
Proof.
  intros Hm Hf c. unfold bind. specialize (Hm c).
  destruct (m1 c) as [[a c']| |] eqn:E.
  - rewrite Hm by discriminate. apply Hf.
  - rewrite Hm by discriminate. reflexivity.
  - congruence.
Qed.

Ltac extends_auto Hrec :=
  repeat first
    [ apply Hrec
    | apply extends_refl
    | apply extends_bind; [|intros ?]
    | match goal with
      | |- extends (if ?b then _ else _) _ => destruct b
      | |- extends (match ?x with _ => _ end) _ => destruct x
      end ].

Section ExtendsHelpers.

Variables r1 r2 : Term -> M Term.
Hypothesis r12 : forall t, extends (r1 t) (r2 t).

Lemma reduce_app_extends func arg :
extends (reduce_app r1 func arg) (reduce_app r2 func arg).
Proof. unfold reduce_app. extends_auto r12. Qed.

Lemma reduce_dup_extends name label value body :
extends (reduce_dup r1 name label value body)
(reduce_dup r2 name label value body).
Proof. unfold reduce_dup. cbv zeta. extends_auto r12. Qed.

Lemma reduce_op2_extends op lhs rhs :
extends (reduce_op2 r1 op lhs rhs) (reduce_op2 r2 op lhs rhs).
Proof. unfold reduce_op2. extends_auto r12. Qed.

End ExtendsHelpers.

Lemma reduce_fuel_S fuel : forall t, extends (reduce fuel t) (reduce (S fuel) t).
Proof.
  induction fuel as [|f IH]; intros t.
  - intros c H. simpl in H. congruence.
  - destruct t; try apply extends_refl.
    + change (extends (b <- reduce f t ;; ret (Lam var b))
                (b <- reduce (S f) t ;; ret (Lam var b))).
      extends_auto IH.
    + apply reduce_app_extends; exact IH.
    + change (extends
                (a <- reduce f t1 ;; b <- reduce f t2 ;; ret (Sup label a b))
                (a <- reduce (S f) t1 ;; b <- reduce (S f) t2 ;;
                 ret (Sup label a b))).
      extends_auto IH.
    + apply reduce_dup_extends; exact IH.
    + apply reduce_op2_extends; exact IH.
    + change (extends
                (a <- reduce f t1 ;; b <- reduce f t2 ;; ret (Pair a b))
                (a <- reduce (S f) t1 ;; b <- reduce (S f) t2 ;;
                 ret (Pair a b))).
      extends_auto IH.
Qed.

(** More depth never changes a result that less depth already gave. *)
Lemma reduce_fuel_mono fuel fuel' t :
  fuel <= fuel' -> extends (reduce fuel t) (reduce fuel' t).
Proof.
  induction 1 as [|k Hle IH]; [apply extends_refl|].
  intros c Hc. rewrite <- (IH c Hc).
  apply reduce_fuel_S. rewrite (IH c Hc). exact Hc.
Qed.

Lemma evaluate_loop_fuel_mono budget fuel fuel' ev term prev :
  fuel <= fuel' ->
  evaluate_loop budget fuel ev term prev <> NoFuel ->
  evaluate_loop budget fuel' ev term prev
  = evaluate_loop budget fuel ev term prev.
Proof.
  intros Hle. revert ev term prev.
  induction budget as [|b IH]; intros ev term prev.
  - simpl. case_if; congruence.
  - rewrite !(evaluate_loop_unfold (S b)). case_if; [|reflexivity].
    intros H.
    assert (Hr : reduce fuel term (fresh_counter ev) <> NoFuel).
    { intros E. rewrite E in H. congruence. }
    rewrite (reduce_fuel_mono term Hle _ Hr).
    destruct (reduce fuel term (fresh_counter ev)) as [[t' c']| |];
      try reflexivity.
    apply IH. exact H.
Qed.

(** ** Closed terms and two sample programs *)

(** Following the specification's words, a term is closed when every
    variable stands under a [Lam] of its name and every projection in the
    body of a [Dup] of its name. *)
Fixpoint closed_under (vars dups : list pystr) (t : Term) : bool :=
  match t with
  | Var x => existsb (str_eqb x) vars
  | Dp0 x | Dp1 x => existsb (str_eqb x) dups
  | Num _ | Era => true
  | Lam v body => closed_under (v :: vars) dups body
  | App func arg => closed_under vars dups func && closed_under vars dups arg
  | Sup _ a b => closed_under vars dups a && closed_under vars dups b
  | Dup n _ value body =>
      closed_under vars dups value && closed_under vars (n :: dups) body
  | Op2 _ a b => closed_under vars dups a && closed_under vars dups b
  | Pair a b => closed_under vars dups a && closed_under vars dups b
  end.

Definition closed (t : Term) : bool := closed_under [] [] t.

(** [(&L{λa.a, λb.b} λc.c)] *)
Definition sup_of_identities : Term :=
  App (Sup (lit "L") (Lam (lit "a") (Var (lit "a")))
         (Lam (lit "b") (Var (lit "b"))))
    (Lam (lit "c") (Var (lit "c"))).

(** [λa.λb.λc.λs.((((s b) c) a) s)] *)
Definition rotor : Term :=
  Lam (lit "a") (Lam (lit "b") (Lam (lit "c") (Lam (lit "s")
    (App (App (App (App (Var (lit "s")) (Var (lit "b"))) (Var (lit "c")))
            (Var (lit "a")))
       (Var (lit "s")))))).

(** [((((R x) y) z) R)] for the rotor [R]: one [reduce] turns it into
    [((((R y) z) x) R)]. *)
Definition rotate (x y z : Z) : Term :=
  App (App (App (App rotor (Num x)) (Num y)) (Num z)) rotor.

(** ** Determinism of [evaluate] *)

(** C2 (counterexample).  [(&L{λa.a, λb.b} λc.c)] is closed; a new
    [Evaluator] normalises it to [&L{λ$x2.$x2, λ$x3.$x3}], and the next call
    of [evaluate] on that [Evaluator] and that term gives
    [&L{λ$x6.$x6, λ$x7.$x7}]: [evaluate] resets [steps], not
    [fresh_counter]. *)
Lemma C2_counter_survives_evaluate :
  exists u1 ev1 u2 ev2,
    closed sup_of_identities = true
    /\ evaluate 8 (new_Evaluator false) sup_of_identities = Ok (u1, ev1)
    /\ evaluate 8 ev1 sup_of_identities = Ok (u2, ev2)
    /\ str u1 = lit "&L{" ++ c_lambda :: lit "$x2.$x2, "
                  ++ c_lambda :: lit "$x3.$x3}"
    /\ str u2 = lit "&L{" ++ c_lambda :: lit "$x6.$x6, "
                  ++ c_lambda :: lit "$x7.$x7}"
    /\ str u1 <> str u2.
Proof.
  do 4 eexists.
  split; [vm_compute; reflexivity|].
  split; [vm_compute; reflexivity|].
  split; [vm_compute; reflexivity|].
  split; [vm_compute; reflexivity|].
  split; [vm_compute; reflexivity|].
  vm_compute. discriminate.
Qed.

(** Two runs of the driver agree when they start from the same counter,
    step count and bound. *)
Definition same_outcome (o1 o2 : outcome (Term * Evaluator)) : Prop :=
  match o1, o2 with
  | Ok (u1, e1), Ok (u2, e2) =>
      u1 = u2 /\ fresh_counter e1 = fresh_counter e2
      /\ steps e1 = steps e2 /\ max_steps e1 = max_steps e2
  | Raise x1, Raise x2 => x1 = x2
  | NoFuel, NoFuel => True
  | _, _ => False
  end.

Lemma evaluate_loop_same budget fuel ev1 ev2 term prev :
  fresh_counter ev1 = fresh_counter ev2 ->
  steps ev1 = steps ev2 ->
  max_steps ev1 = max_steps ev2 ->
  same_outcome (evaluate_loop budget fuel ev1 term prev)
    (evaluate_loop budget fuel ev2 term prev).
Proof.
  revert ev1 ev2 term prev.
  induction budget as [|b IH]; intros ev1 ev2 term prev Hc Hs Hm;
    rewrite !(evaluate_loop_unfold _ fuel); rewrite <- ?Hc, <- ?Hs, <- ?Hm.
  - case_if; simpl; auto.
  - case_if; simpl; auto.
    destruct (reduce fuel term (fresh_counter ev1)) as [[t' c']| |];
      simpl; auto.
    apply IH; simpl; congruence.
Qed.

(** C2 (amended).  Two normalisations of the same term that start from
    [Evaluator]s with the same fresh-name counter and the same bound (two
    new [Evaluator]s, as the module-level [evaluate] makes for each call)
    return the same term, hence pretty-printed-equal outputs, and leave the
    same counter; [steps] and [debug] of the two may differ at the start.
    The counter belongs to the [Evaluator]: [evaluate] does not reset it. *)
Theorem C2_same_counter_same_output (fuel : nat) (ev1 ev2 : Evaluator)
    (t : Term) :
  fresh_counter ev1 = fresh_counter ev2 ->
  max_steps ev1 = max_steps ev2 ->
  same_outcome (evaluate fuel ev1 t) (evaluate fuel ev2 t).
Proof.
  intros Hc Hm. unfold evaluate. cbn [max_steps]. rewrite <- Hm.
  apply evaluate_loop_same; simpl; congruence.
Qed.

Lemma C2_same_counter_same_output_witness :
  same_outcome
    (evaluate 8 (new_Evaluator false) sup_of_identities)
    (evaluate 8 {| debug := true; fresh_counter := 0; steps := 7;
                   max_steps := 10000 |} sup_of_identities).
Proof.
  apply (@C2_same_counter_same_output 8 (new_Evaluator false)
           {| debug := true; fresh_counter := 0; steps := 7;
              max_steps := 10000 |} sup_of_identities);
    reflexivity.
Defined.

(** ** Idempotence *)


(** What holds of the runs that stop below the bound is proved at the end
    of the development, from the attempts a run is made of and from the
    parser, which reads a printed surface term back. *)


(** ** The safety bound *)

(** What the loop test compares the printed term with: [str(prev)], where
    [prev] is [None] or the term of the last attempt, kept here with the
    counter it was reduced at. *)
Definition printed (prev : option (Term * N)) : pystr :=
  str_opt (option_map Datatypes.fst prev).

(** [attempts fuel n t c prev u c' prev']: from the term [t], the counter
    [c] and the previous term [prev], [n] successor attempts lead to the
    term [u], the counter [c'] and the previous term [prev'].  Each attempt
    is one [reduce] that returned, made on a term that did not print like
    its predecessor. *)
Inductive attempts (fuel : nat) :
    nat -> Term -> N -> option (Term * N) ->
    Term -> N -> option (Term * N) -> Prop :=
| attempts_none t c prev : attempts fuel 0 t c prev t c prev
| attempts_next n t c prev t1 c1 u c' prev' :
    str t <> printed prev ->
    reduce fuel t c = Ok (t1, c1) ->
    attempts fuel n t1 c1 (Some (t, c)) u c' prev' ->
    attempts fuel (S n) t c prev u c' prev'.

(** The last of the attempts is the [reduce] of [prev'] that gave [u]. *)
Lemma attempts_last fuel n t c prev u c' prev' :
  attempts fuel n t c prev u c' prev' ->
  (n = 0 /\ u = t /\ c' = c /\ prev' = prev)
  \/ exists p cp, prev' = Some (p, cp) /\ reduce fuel p cp = Ok (u, c').
Proof.
  induction 1 as [t c prev|n t c prev t1 c1 u c' prev' Hne Hr Ha IH].
  - left. repeat split.
  - right. destruct IH as [(-> & -> & -> & ->)|IH]; [|exact IH].
    exists t, c. split; [reflexivity|exact Hr].
Qed.

(** What the loop returns, it has reached by as many attempts as [steps]
    has grown by; it stops at the bound or on a term that prints like its
    predecessor; and it fails only where an attempt below the bound fails. *)
Lemma evaluate_loop_attempts fuel budget :
  forall ev term prev,
    budget_ok budget ev ->
    (steps ev <= max_steps ev)%N ->
    match evaluate_loop budget fuel ev term (option_map Datatypes.fst prev) with
    | Ok (u, ev') =>
        exists n prev',
          attempts fuel n term (fresh_counter ev) prev
            u (fresh_counter ev') prev'
          /\ steps ev' = (steps ev + N.of_nat n)%N
          /\ (steps ev' <= max_steps ev)%N
          /\ max_steps ev' = max_steps ev
          /\ debug ev' = debug ev
          /\ (steps ev' = max_steps ev \/ str u = printed prev')
    | Raise e =>
        exists n tk ck prev',
          attempts fuel n term (fresh_counter ev) prev tk ck prev'
          /\ (steps ev + N.of_nat n < max_steps ev)%N
          /\ str tk <> printed prev'
          /\ reduce fuel tk ck = Raise e
    | NoFuel =>
        exists n tk ck prev',
          attempts fuel n term (fresh_counter ev) prev tk ck prev'
          /\ (steps ev + N.of_nat n < max_steps ev)%N
          /\ str tk <> printed prev'
          /\ reduce fuel tk ck = NoFuel
    end.
Proof.
  induction budget as [|b IH]; intros ev term prev Hb Hs;
    rewrite evaluate_loop_unfold; fold (printed prev);
    destruct (negb (str_eqb (str term) (printed prev))) eqn:Hn;
    destruct (steps ev <? max_steps ev)%N eqn:Hlt; cbn [andb];
    try apply N.ltb_lt in Hlt; try apply N.ltb_ge in Hlt;
    try (apply negb_true_iff, str_eqb_neq in Hn);
    try (apply negb_false_iff, str_eqb_eq in Hn);
    try (exists 0, prev; rewrite N.add_0_r;
         repeat split; [constructor|lia|tauto || (left; lia)]).
  - unfold budget_ok in Hb. lia.
  - destruct (reduce fuel term (fresh_counter ev)) as [[t1 c1]| |] eqn:Hr.
    + specialize (IH (next_step ev c1) t1 (Some (term, fresh_counter ev))).
      cbn [next_step steps max_steps fresh_counter debug option_map
           Datatypes.fst] in IH.
      assert (Hb' : budget_ok b (next_step ev c1))
        by (unfold budget_ok in *; simpl; lia).
      specialize (IH Hb' ltac:(lia)).
      destruct (evaluate_loop b fuel (next_step ev c1) t1 (Some term))
        as [[u ev']|e|].
      * destruct IH as (n & prev' & Ha & Hst & Hle & Hm & Hd & Hstop).
        exists (S n), prev'. repeat split; auto; [|lia].
        apply attempts_next with t1 c1; auto.
      * destruct IH as (n & tk & ck & prev' & Ha & Hlt' & Hp & Hf).
        exists (S n), tk, ck, prev'. repeat split; auto; [|lia].
        apply attempts_next with t1 c1; auto.
      * destruct IH as (n & tk & ck & prev' & Ha & Hlt' & Hp & Hf).
        exists (S n), tk, ck, prev'. repeat split; auto; [|lia].
        apply attempts_next with t1 c1; auto.
    + exists 0, term, (fresh_counter ev), prev.
      repeat split; auto; [constructor|lia].
    + exists 0, term, (fresh_counter ev), prev.
      repeat split; auto; [constructor|lia].
Qed.

(** Conversely, attempts that end at the bound, or below it on a term that
    prints like its predecessor, are what the loop makes. *)
Lemma attempts_evaluate_loop fuel n term c prev u c' prev' :
  attempts fuel n term c prev u c' prev' ->
  forall budget ev,
    fresh_counter ev = c ->
    budget_ok budget ev ->
    (steps ev + N.of_nat n <= max_steps ev)%N ->
    (steps ev + N.of_nat n)%N = max_steps ev \/ str u = printed prev' ->
    evaluate_loop budget fuel ev term (option_map Datatypes.fst prev)
    = Ok (u, {| debug := debug ev; fresh_counter := c';
                steps := steps ev + N.of_nat n;
                max_steps := max_steps ev |}).
Proof.
  induction 1 as [t c prev|n t c prev t1 c1 u c' prev' Hne Hr Ha IH];
    intros budget ev Hc Hb Hle Hstop; rewrite evaluate_loop_unfold;
    fold (printed prev).
  - rewrite N.add_0_r in *.
    replace (negb (str_eqb (str t) (printed prev))
             && (steps ev <? max_steps ev)%N) with false.
    + destruct ev; simpl in *. subst. reflexivity.
    + symmetry. apply andb_false_iff. destruct Hstop as [Hm|Hp].
      * right. apply N.ltb_ge. lia.
      * left. apply negb_false_iff, str_eqb_eq. exact Hp.
  - apply str_eqb_neq in Hne. rewrite Hne. cbn [negb andb].
    assert (Hlt : (steps ev <? max_steps ev)%N = true)
      by (apply N.ltb_lt; lia).
    rewrite Hlt.
    destruct (budget_ok_next c1 Hlt Hb) as (b & -> & Hb').
    rewrite Hc, Hr.
    specialize (IH b (next_step ev c1)).
    cbn [option_map Datatypes.fst] in IH. rewrite IH; auto.
    + cbn [next_step steps max_steps fresh_counter debug].
      do 2 f_equal. f_equal. lia.
    + cbn [next_step steps max_steps]. lia.
    + cbn [next_step steps max_steps]. destruct Hstop; [left; lia|tauto].
Qed.

(** A run of the rotor is cut off: 10000 attempts, no exception. *)
Lemma rotor_run_is_cut_off :
  exists ev',
    evaluate 16 (new_Evaluator false) (rotate 1 2 3) = Ok (rotate 2 3 1, ev')
    /\ steps ev' = max_steps ev'.
Proof. eexists. split; vm_compute; reflexivity. Qed.

(** C7.  [max_steps] is 10000 on a new [Evaluator].  When [evaluate]
    returns [u], it has made exactly [steps] successor attempts, from the
    input to [u], each a [reduce] of the term the attempt before returned;
    [steps] is at most [max_steps]; and the run stopped because [steps]
    reached [max_steps] or because [u] prints like the term it was reduced
    from (like [None] when no attempt was made), so that a cut-off shows in
    the step counter only.  [evaluate] fails only with the failure of one of
    these attempts, made below the bound.  And whenever [max_steps] attempts
    in a row return, [evaluate] returns the term they lead to, with
    [steps = max_steps], raising nothing. *)
Theorem C7_safety_bound (fuel : nat) (ev : Evaluator) (t : Term) :
  (forall dbg, max_steps (new_Evaluator dbg) = 10000%N)
  /\ match evaluate fuel ev t with
     | Ok (u, ev') =>
         exists prev,
           attempts fuel (N.to_nat (steps ev')) t (fresh_counter ev) None
             u (fresh_counter ev') prev
           /\ (steps ev' <= max_steps ev)%N
           /\ max_steps ev' = max_steps ev
           /\ (steps ev' = max_steps ev \/ str u = printed prev)
     | Raise e =>
         exists n tk ck prev,
           attempts fuel n t (fresh_counter ev) None tk ck prev
           /\ (N.of_nat n < max_steps ev)%N
           /\ str tk <> printed prev
           /\ reduce fuel tk ck = Raise e
     | NoFuel =>
         exists n tk ck prev,
           attempts fuel n t (fresh_counter ev) None tk ck prev
           /\ (N.of_nat n < max_steps ev)%N
           /\ str tk <> printed prev
           /\ reduce fuel tk ck = NoFuel
     end
  /\ (forall n u c prev,
        attempts fuel n t (fresh_counter ev) None u c prev ->
        N.of_nat n = max_steps ev ->
        evaluate fuel ev t
        = Ok (u, {| debug := debug ev; fresh_counter := c;
                    steps := max_steps ev; max_steps := max_steps ev |})).
Proof.
  split; [reflexivity|]. split.
  - unfold evaluate.
    pose proof (@evaluate_loop_attempts fuel (N.to_nat (max_steps ev))
                  {| debug := debug ev; fresh_counter := fresh_counter ev;
                     steps := 0; max_steps := max_steps ev |} t None) as H.
    cbn [steps max_steps fresh_counter debug option_map] in H.
    specialize (H ltac:(unfold budget_ok; simpl; lia) ltac:(lia)).
    cbn [max_steps].
    destruct (evaluate_loop _ fuel _ t None) as [[u ev']|e|].
    + destruct H as (n & prev & Ha & Hst & Hle & Hm & _ & Hstop).
      exists prev. rewrite N.add_0_l in Hst.
      replace (N.to_nat (steps ev')) with n by (rewrite Hst; lia).
      repeat split; assumption.
    + destruct H as (n & tk & ck & prev & Ha & Hlt & Hp & Hf).
      exists n, tk, ck, prev. auto.
    + destruct H as (n & tk & ck & prev & Ha & Hlt & Hp & Hf).
      exists n, tk, ck, prev. auto.
  - intros n u c prev Ha Hn. unfold evaluate. cbn [max_steps].
    pose proof (@attempts_evaluate_loop fuel n t (fresh_counter ev) None
                  u c prev Ha (N.to_nat (max_steps ev))
                  {| debug := debug ev; fresh_counter := fresh_counter ev;
                     steps := 0; max_steps := max_steps ev |}) as H.
    cbn [steps max_steps fresh_counter debug option_map] in H.
    rewrite N.add_0_l, Hn in H. apply H.
    + reflexivity.
    + unfold budget_ok. simpl. lia.
    + lia.
    + left. reflexivity.
Qed.

(** ** Unused duplications *)

Lemma uint_chars_not_None d : uint_chars d <> lit "None".
Proof. destruct d; simpl; discriminate. Qed.

(** Only the variable [None] prints like Python's [None]. *)
Lemma str_None_inv t : str t = lit "None" -> t = Var (lit "None").
Proof.
  destruct t; simpl; try discriminate.
  - intros ->. reflexivity.
  - destruct name as [|? [|? [|? [|? [|? ?]]]]]; discriminate.
  - destruct name as [|? [|? [|? [|? [|? ?]]]]]; discriminate.
  - unfold str_int. case_if; [discriminate|].
    intros H. now apply uint_chars_not_None in H.
Qed.

Lemma str_Dup_not_None name label value body :
  str_eqb (str (Dup name label value body)) (lit "None") = false.
Proof. reflexivity. Qed.

(** The loop looks at [prev] through one comparison only. *)
Lemma evaluate_loop_prev budget fuel ev term prev1 prev2 :
  str_eqb (str term) (str_opt prev1) = str_eqb (str term) (str_opt prev2) ->
  evaluate_loop budget fuel ev term prev1
  = evaluate_loop budget fuel ev term prev2.
Proof. intros H. rewrite !(evaluate_loop_unfold budget), H. reflexivity. Qed.

(** DUP-UNUSED as [reduce_dup] does it: the value is reduced first, its
    result dropped, and the body reduced from the counter that is left. *)
Lemma reduce_dup_unused fuel name label value body c :
  contains_dp body name 0 = false ->
  contains_dp body name 1 = false ->
  reduce (S fuel) (Dup name label value body) c
  = match reduce fuel value c with
    | Ok (_, c') => reduce fuel body c'
    | Raise e => Raise e
    | NoFuel => NoFuel
    end.
Proof.
  intros H0 H1. cbn [reduce]. unfold reduce_dup, bind. rewrite H0, H1.
  destruct (reduce fuel value c) as [[v c']| |]; reflexivity.
Qed.

(** C3 (counterexample).  In [! x &L= V; B] with [V] and [B] both
    [(&L{λa.a, λb.b} λc.c)], [B] mentions no projection of [x]; reducing [V]
    draws the name [$x1] before [B] is looked at, so the whole normalises
    to [&L{λ$x3.$x3, λ$x4.$x4}] where [B] alone gives
    [&L{λ$x2.$x2, λ$x3.$x3}]. *)
Lemma C3_value_is_reduced_first :
  exists u1 ev1 u2 ev2,
    contains_dp sup_of_identities (lit "x") 0 = false
    /\ contains_dp sup_of_identities (lit "x") 1 = false
    /\ evaluate 8 (new_Evaluator false)
         (Dup (lit "x") (lit "L") sup_of_identities sup_of_identities)
       = Ok (u1, ev1)
    /\ evaluate 8 (new_Evaluator false) sup_of_identities = Ok (u2, ev2)
    /\ str u1 = lit "&L{" ++ c_lambda :: lit "$x3.$x3, "
                  ++ c_lambda :: lit "$x4.$x4}"
    /\ str u2 = lit "&L{" ++ c_lambda :: lit "$x2.$x2, "
                  ++ c_lambda :: lit "$x3.$x3}"
    /\ u1 <> u2.
Proof.
  do 4 eexists.
  split; [vm_compute; reflexivity|].
  split; [vm_compute; reflexivity|].
  split; [vm_compute; reflexivity|].
  split; [vm_compute; reflexivity|].
  split; [vm_compute; reflexivity|].
  split; [vm_compute; reflexivity|].
  vm_compute. discriminate.
Qed.

(** C3 (amended).  Let the body [B] of [Dup(x, l, V, B)] mention neither
    [DP0(x)] nor [DP1(x)], let one reduction of [V] return without drawing a
    fresh name, and let the bound allow one attempt.  If the reduct of [B]
    does not print like the whole [Dup], and is left unchanged by [reduce]
    in case it prints like [B], then [normalise(Dup(x, l, V, B))] is the
    term [normalise(B)] returns.  [V] may well have no normal form, as long
    as its one reduction returns. *)
Theorem C3_unused_dup (fuel : nat) (ev evB : Evaluator)
    (x l : pystr) (V V' B b1 u : Term) (c1 : N) :
  contains_dp B x 0 = false ->
  contains_dp B x 1 = false ->
  reduce fuel V (fresh_counter ev) = Ok (V', fresh_counter ev) ->
  (0 < max_steps ev)%N ->
  reduce fuel B (fresh_counter ev) = Ok (b1, c1) ->
  str b1 <> str (Dup x l V B) ->
  (str b1 = str B -> reduce fuel b1 c1 = Ok (b1, c1)) ->
  evaluate fuel ev B = Ok (u, evB) ->
  exists ev',
    evaluate (S fuel) ev (Dup x l V B) = Ok (u, ev')
    /\ fresh_counter ev' = fresh_counter evB.
Proof.
  intros H0 H1 HV Hmax Hb1 Hdup Hstable HB.
  unfold evaluate in *.
  set (ev0 := {| debug := debug ev; fresh_counter := fresh_counter ev;
                 steps := 0; max_steps := max_steps ev |}) in *.
  change (max_steps ev0) with (max_steps ev) in *.
  assert (Hlt : (steps ev0 <? max_steps ev0)%N = true)
    by (apply N.ltb_lt; exact Hmax).
  destruct (N.to_nat (max_steps ev)) as [|b] eqn:Hbud; [lia|].
  assert (Hok : budget_ok b (next_step ev0 c1))
    by (unfold budget_ok; simpl; lia).
  assert (Hfuel : fuel <= S fuel) by lia.
  (* the first attempt on the Dup *)
  rewrite evaluate_loop_unfold.
  cbn [str_opt]. rewrite str_Dup_not_None, Hlt. cbn [negb andb].
  rewrite (@reduce_dup_unused fuel x l V B _ H0 H1).
  cbn [ev0 fresh_counter]. rewrite HV, Hb1. fold ev0.
  apply str_eqb_neq in Hdup.
  (* the run on the body *)
  rewrite evaluate_loop_unfold in HB. rewrite Hlt, andb_true_r in HB.
  destruct (str_eqb (str B) (str_opt None)) eqn:HN; cbn [negb] in HB.
  - (* the body is the variable None *)
    apply str_eqb_eq, str_None_inv in HN. subst B.
    injection HB as <- <-.
    destruct fuel as [|f]; [discriminate|]. injection Hb1 as <- <-.
    destruct (@evaluate_loop_stable b (S (S f))
                (next_step ev0 (fresh_counter ev))
                (Var (lit "None")) (Some (Dup x l V (Var (lit "None")))))
      as (ev' & Hev & Hc & _); [exact Hok|reflexivity|].
    exists ev'. split; [exact Hev|exact Hc].
  - cbn [ev0 fresh_counter] in HB. rewrite Hb1 in HB. fold ev0 in HB.
    destruct (str_eqb (str b1) (str B)) eqn:HbB.
    + (* the reduct prints like the body *)
      rewrite evaluate_loop_unfold in HB. cbn [str_opt] in HB.
      rewrite HbB in HB. cbn [negb andb] in HB. injection HB as <- <-.
      apply str_eqb_eq in HbB. specialize (Hstable HbB).
      destruct (@evaluate_loop_stable b (S fuel) (next_step ev0 c1) b1
                  (Some (Dup x l V B))) as (ev' & Hev & Hc & _);
        [exact Hok| |].
      * cbn [next_step fresh_counter].
        rewrite (reduce_fuel_mono b1 Hfuel); [exact Hstable|].
        rewrite Hstable. discriminate.
      * exists ev'. split; [exact Hev|exact Hc].
    + (* both runs go on from the reduct *)
      exists evB. split; [|reflexivity].
      rewrite (@evaluate_loop_prev b (S fuel) _ b1 _ (Some B))
        by (cbn [str_opt]; congruence).
      rewrite evaluate_loop_fuel_mono with (fuel := fuel); auto.
      rewrite HB. discriminate.
Qed.

(** [(λx.(x x) λx.(x x))]: one [reduce] returns it unchanged, for ever. *)
Definition omega : Term :=
  App (Lam (lit "x") (App (Var (lit "x")) (Var (lit "x"))))
    (Lam (lit "x") (App (Var (lit "x")) (Var (lit "x")))).

Lemma C3_unused_dup_witness :
  exists ev',
    evaluate 9 (new_Evaluator false)
      (Dup (lit "x") (lit "L") omega (Op2 (lit "+") (Num 1) (Num 2)))
    = Ok (Num 3, ev')
    /\ fresh_counter ev' = 0%N.
Proof.
  apply (@C3_unused_dup 8 (new_Evaluator false)
           {| debug := false; fresh_counter := 0; steps := 2;
              max_steps := 10000 |}
           (lit "x") (lit "L") omega omega
           (Op2 (lit "+") (Num 1) (Num 2)) (Num 3) (Num 3) 0%N).
  - reflexivity.
  - reflexivity.
  - vm_compute. reflexivity.
  - reflexivity.
  - vm_compute. reflexivity.
  - vm_compute. discriminate.
  - intros H. vm_compute in H. discriminate H.
  - vm_compute. reflexivity.
Defined.

(** ** Operators *)

(** Every [Op2] node holds one of the four operators. *)
Fixpoint ops_ok (t : Term) : bool :=
  match t with
  | Var _ | Dp0 _ | Dp1 _ | Num _ | Era => true
  | Lam _ body => ops_ok body
  | App a b | Sup _ a b | Dup _ _ a b | Pair a b => ops_ok a && ops_ok b
  | Op2 op a b => existsb (str_eqb op) operators && ops_ok a && ops_ok b
  end.

(** [m] raises nothing, and what it returns satisfies [Q]. *)
Definition sat {S A} (Q : A -> Prop) (m : S -> outcome (A * S)) : Prop :=
  forall s, match m s with
            | Ok (a, _) => Q a
            | Raise _ => False
            | NoFuel => True
            end.

Lemma sat_ret S A (Q : A -> Prop) (a : A) : Q a -> sat Q (@ret S A a).
Proof. intros H s. exact H. Qed.

Lemma sat_bind S A B (Q : A -> Prop) (R : B -> Prop)
    (m : S -> outcome (A * S)) (f : A -> S -> outcome (B * S)) :
  sat Q m -> (forall a, Q a -> sat R (f a)) -> sat R (bind m f).
Proof.
  intros Hm Hf s. unfold bind. specialize (Hm s).
  destruct (m s) as [[a s']| |]; auto. now apply Hf.
Qed.

Lemma sat_fresh_name prefix : sat (fun _ => True) (fresh_name prefix).
Proof. intros c. exact I. Qed.

Lemma operators_spec op :
  existsb (str_eqb op) operators = true <-> In op operators.
Proof.
  rewrite existsb_exists. split.
  - intros (o & Ho & Heq). apply str_eqb_eq in Heq. now subst.
  - intros H. exists op. split; [exact H|apply str_eqb_refl].
Qed.

Lemma sat_compute_op op a b :
  existsb (str_eqb op) operators = true ->
  sat (fun _ => True) (compute_op op a b).
Proof.
  intros H c. apply operators_spec in H.
  now rewrite (compute_op_floor a b c H).
Qed.

Lemma substitute_ops t var value :
  ops_ok t = true -> ops_ok value = true ->
  ops_ok (substitute t var value) = true.
Proof.
  intros Ht Hv. induction t; simpl in *; auto;
    repeat match goal with
           | H : _ && _ = true |- _ => apply andb_true_iff in H as [? ?]
           end;
    try case_if; simpl; auto;
    repeat (apply andb_true_iff; split); auto.
Qed.

Lemma substitute_dp_ops t name val0 val1 :
  ops_ok t = true -> ops_ok val0 = true -> ops_ok val1 = true ->
  ops_ok (substitute_dp t name val0 val1) = true.
Proof.
  intros Ht H0 H1. induction t; simpl in *; auto;
    repeat match goal with
           | H : _ && _ = true |- _ => apply andb_true_iff in H as [? ?]
           end;
    try case_if; simpl; auto;
    repeat (apply andb_true_iff; split); auto.
Qed.

Definition good_ops (t : Term) : Prop := ops_ok t = true.

Ltac split_ops :=
  repeat match goal with
         | H : good_ops _ |- _ => unfold good_ops in H; simpl in H
         | H : _ && _ = true |- _ => apply andb_true_iff in H as [? ?]
         end.

Ltac solve_ops :=
  unfold good_ops; simpl;
  repeat (apply andb_true_iff; split);
  auto using substitute_ops, substitute_dp_ops.

Section OperatorsPreserved.

Variable rec : Term -> M Term.
Hypothesis rec_ops : forall t, good_ops t -> sat good_ops (rec t).

Lemma reduce_app_ops func arg :
good_ops func -> good_ops arg -> sat good_ops (reduce_app rec func arg).
Proof.
intros Hf Ha. unfold reduce_app.
apply sat_bind with good_ops; [now apply rec_ops|].
intros f Hf'. destruct f; split_ops;
try (apply sat_bind with good_ops; [now apply rec_ops|];
     intros; apply sat_ret; split_ops; solve_ops).
- apply sat_ret. solve_ops.
- apply sat_bind with (fun _ => True); [apply sat_fresh_name|].
intros; apply sat_ret. solve_ops.
- apply sat_ret. solve_ops.
Qed.

Lemma reduce_dup_rebuild name label a b body v0 v1 a_name b_name :
good_ops a -> good_ops b -> good_ops body -> good_ops v0 -> good_ops v1 ->
good_ops (Dup a_name label a
          (Dup b_name label b (substitute_dp body name v0 v1))).
Proof. intros. split_ops. solve_ops. Qed.

Lemma reduce_dup_ops name label value body :
good_ops value -> good_ops body ->
sat good_ops (reduce_dup rec name label value body).
Proof.
intros Hv Hb. unfold reduce_dup. cbv zeta.
apply sat_bind with good_ops; [now apply rec_ops|].
intros v Hv'. case_if; [now apply rec_ops|].
assert (Hfall :
sat good_ops
  (if negb (str_eqb (str v) (str value))
   then ret (Dup name label v body)
   else new_body <- rec body ;;
        (if negb (str_eqb (str new_body) (str body))
         then ret (Dup name label v new_body)
         else ret (Dup name label v new_body)))).
{ case_if; [apply sat_ret; split_ops; solve_ops|].
apply sat_bind with good_ops; [now apply rec_ops|].
intros nb Hnb. case_if; apply sat_ret; split_ops; solve_ops. }
destruct v; try exact Hfall; split_ops.
- apply rec_ops. solve_ops.
- apply sat_bind with (fun _ => True); [apply sat_fresh_name|]. intros x0 _.
apply sat_bind with (fun _ => True); [apply sat_fresh_name|]. intros x1 _.
apply sat_bind with (fun _ => True); [apply sat_fresh_name|]. intros bn _.
apply rec_ops. solve_ops.
- case_if; [apply rec_ops; solve_ops|].
apply sat_bind with (fun _ => True); [apply sat_fresh_name|]. intros an _.
apply sat_bind with (fun _ => True); [apply sat_fresh_name|]. intros bn _.
apply rec_ops. solve_ops.
- apply rec_ops. solve_ops.
- apply sat_bind with (fun _ => True); [apply sat_fresh_name|]. intros an _.
apply sat_bind with (fun _ => True); [apply sat_fresh_name|]. intros bn _.
apply rec_ops. solve_ops.
Qed.

Lemma reduce_op2_ops op lhs rhs :
existsb (str_eqb op) operators = true ->
good_ops lhs -> good_ops rhs ->
sat good_ops (reduce_op2 rec op lhs rhs).
Proof.
intros Hop Hl Hr. unfold reduce_op2.
apply sat_bind with good_ops; [now apply rec_ops|]. intros l Hl'.
apply sat_bind with good_ops; [now apply rec_ops|]. intros r Hr'.
destruct l; destruct r; split_ops;
first
  [ apply sat_ret; solve_ops
  | apply sat_bind with (fun _ => True);
    [first [apply sat_fresh_name | now apply sat_compute_op]|];
    intros; apply sat_ret; solve_ops ].
Qed.

End OperatorsPreserved.

Lemma reduce_ops fuel : forall t, good_ops t -> sat good_ops (reduce fuel t).
Proof.
  induction fuel as [|f IH]; intros t Ht; [intros c; exact I|].
  destruct t; cbn [reduce]; split_ops;
    try (apply sat_ret; solve_ops).
  - apply sat_bind with good_ops; [now apply IH|].
    intros; apply sat_ret; solve_ops.
  - now apply reduce_app_ops.
  - apply sat_bind with good_ops; [now apply IH|]. intros a Ha.
    apply sat_bind with good_ops; [now apply IH|]. intros b Hb.
    apply sat_ret; solve_ops.
  - now apply reduce_dup_ops.
  - now apply reduce_op2_ops.
  - apply sat_bind with good_ops; [now apply IH|]. intros a Ha.
    apply sat_bind with good_ops; [now apply IH|]. intros b Hb.
    apply sat_ret; solve_ops.
Qed.

Lemma evaluate_loop_ops budget fuel :
  forall ev term prev,
    good_ops term ->
    match evaluate_loop budget fuel ev term prev with
    | Ok (u, _) => good_ops u
    | Raise _ => False
    | NoFuel => True
    end.
Proof.
  induction budget as [|b IH]; intros ev term prev Ht;
    rewrite evaluate_loop_unfold; case_if; auto.
  pose proof (reduce_ops fuel Ht (fresh_counter ev)) as Hr.
  destruct (reduce fuel term (fresh_counter ev)) as [[t' c']| |]; auto.
  apply IH. exact Hr.
Qed.

(** What a parser method returns, when it returns, satisfies [Q]. *)
Definition yields {A} (Q : A -> Prop) (m : P A) : Prop :=
  forall pos, match m pos with
              | Ok (a, _) => Q a
              | _ => True
              end.

Lemma yields_any A (m : P A) : yields (fun _ => True) m.
Proof. intros pos. destruct (m pos) as [[a p]| |]; exact I. Qed.

Lemma yields_ret A (Q : A -> Prop) (a : A) : Q a -> yields Q (ret a).
Proof. intros H pos. exact H. Qed.

Lemma yields_bind A B (Q : A -> Prop) (R : B -> Prop) (m : P A)
    (f : A -> P B) :
  yields Q m -> (forall a, Q a -> yields R (f a)) -> yields R (bind m f).
Proof.
  intros Hm Hf pos. unfold bind. specialize (Hm pos).
  destruct (m pos) as [[a p]| |]; auto. now apply Hf.
Qed.

Lemma find_operator_spec c op :
  find_operator c = Some op -> existsb (str_eqb op) operators = true.
Proof.
  destruct c as [c|]; [|discriminate]. unfold find_operator.
  intros H. apply find_some in H as [Hin _].
  apply operators_spec. exact Hin.
Qed.

Section ParsedOperators.

Variable ud : UnicodeData.
Variable text : pystr.

Ltac yields_auto H :=
repeat match goal with
     | |- yields _ (ret _) => apply yields_ret; solve_ops
     | |- yields _ (bind _ _) =>
         first
           [ apply yields_bind with good_ops; [exact H|intros ? ?]
           | apply yields_bind with (fun _ => True);
             [apply yields_any|intros ? _] ]
     | |- yields _ (if ?b then _ else _) => destruct b
     | |- yields _ (match ?x with _ => _ end) => destruct x
     end.

Lemma parse_num_ops : yields good_ops (parse_num ud text).
Proof. unfold parse_num. yields_auto I. Qed.

Lemma parse_var_ops : yields good_ops (parse_var ud text).
Proof. unfold parse_var. yields_auto I. Qed.

Section Productions.

Variable rec : P Term.
Hypothesis rec_ops : yields good_ops rec.

Lemma parse_lam_ops : yields good_ops (parse_lam ud text rec).
Proof. unfold parse_lam. yields_auto rec_ops. Qed.

Lemma parse_sup_ops : yields good_ops (parse_sup ud text rec).
Proof. unfold parse_sup. yields_auto rec_ops. Qed.

Lemma parse_dup_ops : yields good_ops (parse_dup ud text rec).
Proof. unfold parse_dup. yields_auto rec_ops. Qed.

Lemma parse_paren_ops : yields good_ops (parse_paren text rec).
Proof.
unfold parse_paren.
apply yields_bind with (fun _ => True); [apply yields_any|intros _ _].
apply yields_bind with good_ops; [exact rec_ops|intros first Hfirst].
apply yields_bind with (fun _ => True); [apply yields_any|intros c _].
case_if; [yields_auto rec_ops|].
destruct (find_operator c) as [op|] eqn:Hop; [|yields_auto rec_ops].
apply find_operator_spec in Hop.
apply yields_bind with (fun _ => True); [apply yields_any|intros _ _].
apply yields_bind with good_ops; [exact rec_ops|intros rhs Hrhs].
apply yields_bind with (fun _ => True); [apply yields_any|intros _ _].
apply yields_ret. unfold good_ops in *. cbn [ops_ok].
now rewrite Hop, Hfirst, Hrhs.
Qed.

End Productions.

Lemma parse_term_ops fuel : yields good_ops (parse_term ud text fuel).
Proof.
induction fuel as [|f IH]; [intros pos; exact I|].
cbn [parse_term].
apply yields_bind with (fun _ => True); [apply yields_any|intros _ _].
apply yields_bind with (fun _ => True); [apply yields_any|intros c _].
destruct c as [c|]; [|intros pos; exact I].
apply yields_bind with (fun _ => True); [apply yields_any|intros a3 _].
case_if; [yields_auto I|].
case_if; [now apply parse_sup_ops|].
case_if; [now apply parse_dup_ops|].
case_if; [now apply parse_lam_ops|].
case_if; [now apply parse_paren_ops|].
case_if; [apply parse_num_ops|].
case_if; [apply parse_var_ops|].
intros pos. exact I.
Qed.

End ParsedOperators.

Lemma parse_ops ud text t : parse ud text = Ok t -> good_ops t.
Proof.
  unfold parse, Parser_parse. intros H.
  assert (Hy : yields good_ops
            (skip_whitespace text ;;;
             term <- parse_term ud text (S (length text)) ;;
             skip_whitespace text ;;;
             pos <- get_pos ;;
             match nth_error text pos with
             | Some c => raise (ParseError (TrailingCharacter pos c))
             | None => ret term
             end)).
  { apply yields_bind with (fun _ => True); [apply yields_any|intros _ _].
    apply yields_bind with good_ops; [apply parse_term_ops|intros term Ht].
    apply yields_bind with (fun _ => True); [apply yields_any|intros _ _].
    apply yields_bind with (fun _ => True); [apply yields_any|intros pos _].
    destruct (nth_error text pos); [intros p; exact I|now apply yields_ret]. }
  specialize (Hy 0).
  destruct (bind _ _ 0) as [[t0 p]| |]; try discriminate.
  injection H as <-. exact Hy.
Qed.

(** C9.  In every term [parse] returns, each [Op2] node holds one of
    [+], [-], [*], [/]; every reduction rule keeps it so, in the terms of a
    normalisation up to its result; hence [compute_op] never reaches its
    [ValueError] branch and the normalisation of a parsed term raises
    nothing. *)
Theorem C9_operators_preserved (ud : UnicodeData) (text : pystr) (t : Term) :
  parse ud text = Ok t ->
  ops_ok t = true
  /\ forall fuel ev,
       match evaluate fuel ev t with
       | Ok (u, _) => ops_ok u = true
       | Raise _ => False
       | NoFuel => True
       end.
Proof.
  intros H. apply parse_ops in H. split; [exact H|].
  intros fuel ev. unfold evaluate. now apply evaluate_loop_ops.
Qed.

Lemma C9_operators_preserved_witness :
  ops_ok (Op2 (lit "/") (Op2 (lit "-") (Num 1) (Num 8)) (Num 2)) = true
  /\ forall fuel ev,
       match evaluate fuel ev
               (Op2 (lit "/") (Op2 (lit "-") (Num 1) (Num 8)) (Num 2)) with
       | Ok (u, _) => ops_ok u = true
       | Raise _ => False
       | NoFuel => True
       end.
Proof.
  apply (@C9_operators_preserved ascii_only (lit "((1 - 8) / 2)")).
  vm_compute. reflexivity.
Defined.

(** ** Decimal numerals *)

Lemma decimal_acc d acc :
  fold_left decimal_step (uint_chars d) (N.pos acc)
  = N.pos (Pos.of_uint_acc d acc).
Proof.
  revert acc.
  induction d; intros acc; cbn [uint_chars fold_left Pos.of_uint_acc];
    try reflexivity; rewrite <- IHd; f_equal; unfold decimal_step; lia.
Qed.

Lemma decimal_value_uint d : decimal_value (uint_chars d) = N.of_uint d.
Proof.
  unfold decimal_value, N.of_uint.
  induction d; cbn [uint_chars fold_left Pos.of_uint]; try reflexivity;
    try exact IHd; rewrite <- decimal_acc; reflexivity.
Qed.

(** [int(str(n)) == n] *)
Lemma decimal_value_str_N n : decimal_value (str_N n) = n.
Proof.
  unfold str_N. rewrite decimal_value_uint. apply DecimalN.Unsigned.of_to.
Qed.

Lemma uint_chars_digits d : forallb ascii_digit (uint_chars d) = true.
Proof. induction d; simpl; auto. Qed.

Lemma str_N_nonempty n : str_N n <> [].
Proof.
  unfold str_N. destruct n as [|p]; [discriminate|].
  simpl. pose proof (DecimalPos.Unsigned.to_uint_nonnil p) as H.
  destruct (Pos.to_uint p); simpl; congruence.
Qed.

(** ** The ASCII characters, one by one *)

Definition ascii_chars : list char := map N.of_nat (seq 0 128).

Lemma ascii_enum (Q : char -> bool) :
  forallb Q ascii_chars = true -> forall c, isascii c = true -> Q c = true.
Proof.
  intros H c Hc. rewrite forallb_forall in H. apply H.
  unfold isascii in Hc. apply N.ltb_lt in Hc.
  unfold ascii_chars. rewrite <- (N2Nat.id c).
  apply in_map, in_seq. lia.
Qed.

(** ** Terms of the surface syntax *)

Definition ident_char (c : char) : bool :=
  isascii c && (ascii_alpha c || ascii_digit c || N.eqb c (chr "_")).

Definition ident_start (c : char) : bool :=
  ascii_alpha c || N.eqb c (chr "_").

(** No underscore of [s] is followed by [0] or [1]. *)
Fixpoint no_projection_suffix (s : pystr) : bool :=
  match s with
  | c :: s' =>
      negb (N.eqb c (chr "_")
            && match s' with
               | d :: _ => N.eqb d (chr "0") || N.eqb d (chr "1")
               | [] => false
               end)
      && no_projection_suffix s'
  | [] => true
  end.

(** An identifier of the grammar: ASCII letters, digits and underscores,
    not empty, no digit first, and none of the suffixes [_0], [_1] inside,
    which the scanner reads as projections. *)
Definition identifier (s : pystr) : bool :=
  match s with
  | c :: _ => ident_start c && forallb ident_char s && no_projection_suffix s
  | [] => false
  end.

(** What the binder and label loops read: possibly empty for a binder. *)
Definition word (s : pystr) : bool := forallb ident_char s.

Definition label_word (s : pystr) : bool :=
  match s with
  | [] => false
  | _ => word s
  end.

(** The terms a generator over the eleven variants of the grammar
    produces: identifiers for variables and projections, words for binders,
    non-empty words for labels, natural numbers, the four operators. *)
Fixpoint surface (t : Term) : bool :=
  match t with
  | Var x | Dp0 x | Dp1 x => identifier x
  | Num v => (0 <=? v)%Z
  | Lam x body => word x && surface body
  | App a b | Pair a b => surface a && surface b
  | Sup l a b => label_word l && surface a && surface b
  | Dup x l a b => word x && label_word l && surface a && surface b
  | Era => true
  | Op2 op a b => existsb (str_eqb op) operators && surface a && surface b
  end.

(** The nesting of a term: the calls of [parse_term] its text needs. *)
Fixpoint height (t : Term) : nat :=
  match t with
  | Var _ | Dp0 _ | Dp1 _ | Num _ | Era => 1
  | Lam _ body => S (height body)
  | App a b | Pair a b | Sup _ a b | Dup _ _ a b | Op2 _ a b =>
      S (Nat.max (height a) (height b))
  end.

(** What the printer puts after a term: nothing, or one of these. *)
Definition follow_char (c : char) : bool :=
  N.eqb c (chr " ") || N.eqb c (chr ")") || N.eqb c (chr ",")
  || N.eqb c (chr "}") || N.eqb c (chr ";").

Definition follows (rest : pystr) : bool :=
  match rest with
  | c :: _ => follow_char c
  | [] => true
  end.

(** What the text of a term begins with. *)
Definition start_char (c : char) : bool :=
  ident_start c || ascii_digit c || N.eqb c c_lambda || N.eqb c (chr "&")
  || N.eqb c (chr "!") || N.eqb c (chr "(").

(** The input without its leading whitespace. *)
Definition ltrim (s : pystr) : pystr := skipn (span is_space s) s.

(** ** Running the parser on a known input *)

Lemma span_app p (w r : pystr) :
  forallb p w = true ->
  match r with c :: _ => p c = false | [] => True end ->
  span p (w ++ r) = length w.
Proof.
  intros Hw Hr. induction w as [|c w IH]; simpl in *.
  - destruct r as [|c r]; [reflexivity|]. simpl. now rewrite Hr.
  - apply andb_true_iff in Hw as [Hc Hw]. rewrite Hc. f_equal. now apply IH.
Qed.

Lemma ltrim_start c s : is_space c = false -> ltrim (c :: s) = c :: s.
Proof. intros H. unfold ltrim. simpl. now rewrite H. Qed.

Lemma ltrim_space s : ltrim (chr " " :: s) = ltrim s.
Proof. reflexivity. Qed.

Section Runs.

Variable ud : UnicodeData.
Variable text : pystr.

(** The text from offset [pos] on is [s]. *)
Definition rest_at (pos : nat) (s : pystr) : Prop := skipn pos text = s.

(** On the input [s], [m] returns [a] and leaves the input [s']. *)
Definition runs {A} (m : P A) (s : pystr) (a : A) (s' : pystr) : Prop :=
forall pos, rest_at pos s ->
          exists pos', m pos = Ok (a, pos') /\ rest_at pos' s'.

Lemma rest_at_nth pos s : rest_at pos s -> nth_error text pos = hd_error s.
Proof.
intros <-. rewrite <- (Nat.add_0_r pos) at 1.
rewrite <- nth_error_skipn. destruct (skipn pos text); reflexivity.
Qed.

Lemma rest_at_skipn pos n s : rest_at pos s -> rest_at (pos + n) (skipn n s).
Proof.
intros <-. unfold rest_at. rewrite skipn_skipn. f_equal. lia.
Qed.

Lemma rest_at_app pos a b : rest_at pos (a ++ b) -> rest_at (pos + length a) b.
Proof.
intros H. apply (rest_at_skipn (length a)) in H.
rewrite skipn_app, skipn_all, Nat.sub_diag in H. exact H.
Qed.

Lemma rest_at_slice pos n s :
rest_at pos s -> slice text pos (pos + n) = firstn n s.
Proof. intros <-. unfold slice. f_equal. lia. Qed.

Lemma firstn_length_app (a b : pystr) : firstn (length a) (a ++ b) = a.
Proof.
rewrite firstn_app, Nat.sub_diag, firstn_all. simpl. apply List.app_nil_r.
Qed.

Lemma runs_ret A (a : A) s : runs (ret a) s a s.
Proof. intros pos H. exists pos. split; [reflexivity|exact H]. Qed.

Lemma runs_bind A B (m : P A) (f : A -> P B) s a s1 b s2 :
runs m s a s1 -> runs (f a) s1 b s2 -> runs (bind m f) s b s2.
Proof.
intros Hm Hf pos H. destruct (Hm pos H) as (p1 & E1 & H1).
destruct (Hf p1 H1) as (p2 & E2 & H2).
exists p2. split; [|exact H2]. unfold bind. now rewrite E1.
Qed.

Lemma runs_scan p s : runs (scan text p) s tt (skipn (span p s) s).
Proof.
intros pos H. eexists. split; [reflexivity|].
rewrite H. now apply rest_at_skipn.
Qed.

Lemma runs_skip_whitespace s : runs (skip_whitespace text) s tt (ltrim s).
Proof. apply runs_scan. Qed.

Lemma runs_skip_nothing s :
ltrim s = s -> runs (skip_whitespace text) s tt s.
Proof. intros H. rewrite <- H at 2. apply runs_skip_whitespace. Qed.

Lemma runs_peek s : runs (peek text) s (hd_error s) s.
Proof.
intros pos H. exists pos. split; [|exact H].
unfold peek. now rewrite (rest_at_nth H).
Qed.

Lemma runs_peek_ahead n s : runs (peek_ahead text n) s (firstn n s) s.
Proof.
intros pos H. exists pos. split; [|exact H].
unfold peek_ahead. now rewrite (rest_at_slice n H).
Qed.

Lemma runs_consume expected r :
runs (consume text expected) (expected ++ r) tt (ltrim r).
Proof.
intros pos H. unfold consume.
rewrite (rest_at_slice (length expected) H), firstn_length_app.
rewrite str_eqb_refl. cbn [negb].
apply runs_skip_whitespace. now apply rest_at_app.
Qed.

Lemma runs_advance n s : runs (advance n) s tt (skipn n s).
Proof.
intros pos H. eexists. split; [reflexivity|]. now apply rest_at_skipn.
Qed.

Lemma runs_parse_word w r :
span (word_char ud) (w ++ r) = length w ->
runs (parse_word ud text) (w ++ r) w r.
Proof.
intros Hsp pos H. unfold parse_word, bind, get_pos, scan, ret.
rewrite H, Hsp. eexists. split.
- rewrite (rest_at_slice (length w) H), firstn_length_app. reflexivity.
- now apply rest_at_app.
Qed.

End Runs.

(** ** Character facts *)

Lemma enum_implies (Q R : char -> bool) :
  forallb (fun c => implb (Q c) (R c)) ascii_chars = true ->
  forall c, isascii c = true -> Q c = true -> R c = true.
Proof.
  intros H c Hc HQ.
  pose proof (ascii_enum (fun c => implb (Q c) (R c)) H c Hc) as Hi.
  simpl in Hi. now rewrite HQ in Hi.
Qed.

Lemma ident_char_ascii c : ident_char c = true -> isascii c = true.
Proof. unfold ident_char. now intros [H _]%andb_true_iff. Qed.

Lemma ascii_below (Q : char -> bool) :
  forallb (fun c => implb (Q c) (isascii c)) (map N.of_nat (seq 0 256)) = true ->
  (forall c, Q c = true -> (c < 256)%N) ->
  forall c, Q c = true -> isascii c = true.
Proof.
  intros H Hlt c HQ. rewrite forallb_forall in H.
  assert (Hin : In c (map N.of_nat (seq 0 256))).
  { rewrite <- (N2Nat.id c). apply in_map, in_seq. specialize (Hlt c HQ). lia. }
  specialize (H c Hin). simpl in H. now rewrite HQ in H.
Qed.

Lemma ident_start_ascii c : ident_start c = true -> isascii c = true.
Proof.
  apply (ascii_below ident_start); [vm_compute; reflexivity|].
  intros d. unfold ident_start, ascii_alpha.
  rewrite !orb_true_iff, !andb_true_iff, !N.leb_le, N.eqb_eq.
  change (chr "_") with 95%N. lia.
Qed.

Lemma ascii_digit_ascii c : ascii_digit c = true -> isascii c = true.
Proof.
  apply (ascii_below ascii_digit); [vm_compute; reflexivity|].
  intros d. unfold ascii_digit. rewrite !andb_true_iff, !N.leb_le. lia.
Qed.

Lemma follow_char_ascii c : follow_char c = true -> isascii c = true.
Proof.
  unfold follow_char. rewrite !orb_true_iff, !N.eqb_eq.
  intuition subst; reflexivity.
Qed.

Lemma start_char_cases c :
  start_char c = true -> c = c_lambda \/ isascii c = true.
Proof.
  unfold start_char. rewrite !orb_true_iff, !N.eqb_eq.
  intros [[[[[H|H]|H]|H]|H]|H]; subst; auto using ident_start_ascii,
    ascii_digit_ascii.
Qed.

Section CharFacts.

Variable ud : UnicodeData.

Lemma ident_char_word c : ident_char c = true -> word_char ud c = true.
Proof.
intros H. apply (enum_implies ident_char (word_char ud));
[vm_compute; reflexivity|now apply ident_char_ascii|exact H].
Qed.

Definition var_char (c : char) : bool :=
isascii c && (isalnum ud c || N.eqb c (chr "_")).

Lemma ident_char_var c : ident_char c = true -> var_char c = true.
Proof.
intros H. apply (enum_implies ident_char var_char);
[vm_compute; reflexivity|now apply ident_char_ascii|exact H].
Qed.

Lemma ident_char_not_space c : ident_char c = true -> is_space c = false.
Proof.
intros H. apply negb_true_iff.
apply (enum_implies ident_char (fun c => negb (is_space c)));
[vm_compute; reflexivity|now apply ident_char_ascii|exact H].
Qed.

Lemma ascii_digit_isdigit c : ascii_digit c = true -> isdigit ud c = true.
Proof.
intros H. apply (enum_implies ascii_digit (isdigit ud));
[vm_compute; reflexivity|now apply ascii_digit_ascii|exact H].
Qed.

(** After a term: no part of a name, a number or a projection. *)
Definition stops (c : char) : bool :=
negb (word_char ud c) && negb (isdigit ud c) && negb (var_char c)
&& negb (N.eqb c c_sub0) && negb (N.eqb c c_sub1)
&& negb (N.eqb c (chr "0")) && negb (N.eqb c (chr "1"))
&& negb (N.eqb c (chr "_")).

Lemma follow_char_stops c : follow_char c = true -> stops c = true.
Proof.
intros H. apply (enum_implies follow_char stops);
[vm_compute; reflexivity|now apply follow_char_ascii|exact H].
Qed.

(** How [parse_term] sorts the first character of a name. *)
Definition sorted_as_var (c : char) : bool :=
negb (N.eqb c (chr "&")) && negb (N.eqb c (chr "!"))
&& negb (N.eqb c c_lambda || N.eqb c (chr "\"))
&& negb (N.eqb c (chr "(")) && negb (isdigit ud c)
&& (isalpha ud c || N.eqb c (chr "_")).

Lemma ident_start_sorted c : ident_start c = true -> sorted_as_var c = true.
Proof.
intros H. apply (enum_implies ident_start sorted_as_var);
[vm_compute; reflexivity|now apply ident_start_ascii|exact H].
Qed.

(** ... and the first character of a number. *)
Definition sorted_as_num (c : char) : bool :=
negb (N.eqb c (chr "&")) && negb (N.eqb c (chr "!"))
&& negb (N.eqb c c_lambda || N.eqb c (chr "\"))
&& negb (N.eqb c (chr "(")) && isdigit ud c.

Lemma ascii_digit_sorted c : ascii_digit c = true -> sorted_as_num c = true.
Proof.
intros H. apply (enum_implies ascii_digit sorted_as_num);
[vm_compute; reflexivity|now apply ascii_digit_ascii|exact H].
Qed.

End CharFacts.

(** A term never begins with whitespace, a comma or an operator. *)
Definition proper_start (c : char) : bool :=
  negb (is_space c) && negb (N.eqb c (chr ","))
  && match find_operator (Some c) with Some _ => false | None => true end.

Lemma start_char_proper c : start_char c = true -> proper_start c = true.
Proof.
  intros H. destruct (start_char_cases c H) as [->|Hc]; [reflexivity|].
  apply (enum_implies start_char proper_start);
    [vm_compute; reflexivity|exact Hc|exact H].
Qed.

(** ** Parsing what the printer wrote *)

Lemma forallb_implies (Q R : char -> bool) (s : pystr) :
  (forall c, Q c = true -> R c = true) ->
  forallb Q s = true -> forallb R s = true.
Proof.
  intros H. induction s as [|c s IH]; simpl; [reflexivity|].
  intros [Hc Hs]%andb_true_iff. now rewrite (H c Hc), IH.
Qed.

(** The text of a term begins with a character of a term. *)
Definition starts (s : pystr) : Prop :=
  exists c r, s = c :: r /\ start_char c = true.

Lemma starts_ltrim s r : starts s -> ltrim (s ++ r) = s ++ r.
Proof.
  intros (c & s' & -> & Hc). apply start_char_proper in Hc.
  unfold proper_start in Hc.
  apply andb_true_iff in Hc as [[Hc _]%andb_true_iff _].
  apply negb_true_iff in Hc. simpl. now apply ltrim_start.
Qed.

Lemma word_ltrim w c r :
  word w = true -> is_space c = false -> ltrim (w ++ c :: r) = w ++ c :: r.
Proof.
  intros Hw Hc. destruct w as [|d w]; simpl.
  - now apply ltrim_start.
  - apply ltrim_start. simpl in Hw. apply andb_true_iff in Hw as [Hd _].
    now apply ident_char_not_space.
Qed.

Lemma identifier_inv x :
  identifier x = true ->
  exists c r, x = c :: r /\ ident_start c = true
              /\ forallb ident_char x = true
              /\ no_projection_suffix x = true.
Proof.
  destruct x as [|c r]; [discriminate|]. unfold identifier.
  intros [[H1 H2]%andb_true_iff H3]%andb_true_iff. eauto 6.
Qed.

Lemma ident_start_start c : ident_start c = true -> start_char c = true.
Proof. intros H. unfold start_char. now rewrite H. Qed.

Section PrintedInput.

Variable ud : UnicodeData.
Variable text : pystr.

Lemma runs_consume_to expected r r' :
ltrim r = r' -> runs text (consume text expected) (expected ++ r) tt r'.
Proof. intros <-. apply runs_consume. Qed.

Lemma int_of_str_N n : int_of ud (str_N n) = Ok (Z.of_N n).
Proof.
unfold int_of. pose proof (str_N_nonempty n) as Hne.
destruct (str_N n) as [|c s] eqn:E; [congruence|].
rewrite <- E. unfold str_N at 1. rewrite uint_chars_digits.
now rewrite decimal_value_str_N.
Qed.

Lemma runs_parse_num n rest :
follows rest = true ->
runs text (parse_num ud text) (str_N n ++ rest) (Num (Z.of_N n)) (ltrim rest).
Proof.
intros Hf pos H.
assert (Hsp : span (isdigit ud) (str_N n ++ rest) = length (str_N n)).
{ apply span_app.
- apply forallb_implies with ascii_digit;
    [apply ascii_digit_isdigit|apply uint_chars_digits].
- destruct rest as [|c r]; [exact I|]. simpl in Hf.
  apply (follow_char_stops ud) in Hf. unfold stops in Hf.
  repeat apply andb_true_iff in Hf as [Hf ?].
  now apply negb_true_iff. }
unfold parse_num, bind, get_pos, scan, lift.
rewrite H, Hsp, (rest_at_slice (length (str_N n)) H), firstn_length_app.
rewrite int_of_str_N.
destruct (@runs_skip_whitespace text rest (pos + length (str_N n)))
as (p & Hp & Hr); [now apply rest_at_app|].
rewrite Hp. exists p. split; [reflexivity|exact Hr].
Qed.

Lemma runs_skip_ret (t : Term) s :
runs text (skip_whitespace text ;;; ret t) s t (ltrim s).
Proof.
eapply runs_bind; [apply runs_skip_whitespace|apply runs_ret].
Qed.

Lemma runs_advance_skip_ret (t : Term) c s :
runs text (advance 1 ;;; skip_whitespace text ;;; ret t) (c :: s) t (ltrim s).
Proof.
eapply runs_bind; [apply (@runs_advance text 1)|apply runs_skip_ret].
Qed.

(** What may come after a name for the loop of [parse_var] to stop. *)
Definition var_stop (r : pystr) : Prop :=
match r with
| h :: r' =>
  N.eqb h (chr "0") = false /\ N.eqb h (chr "1") = false
  /\ (var_char ud h = false
      \/ (N.eqb h (chr "_") = true
          /\ match r' with
             | d :: _ => N.eqb d (chr "0") || N.eqb d (chr "1") = true
             | [] => False
             end))
| [] => True
end.

Lemma var_span_identifier x r :
forallb ident_char x = true ->
no_projection_suffix x = true ->
var_stop r ->
var_span ud (x ++ r) = length x.
Proof.
intros Hx Hn Hr. induction x as [|c x IH].
- destruct r as [|h r]; [reflexivity|]. cbn [app var_span].
destruct Hr as (_ & _ & [Hv|[Hu Hd]]).
+ unfold var_char in Hv. now rewrite Hv.
+ rewrite Hu. destruct r as [|d r]; [contradiction|]. rewrite Hd.
  cbn [andb]. now destruct (isascii h && _).
- cbn [app var_span length].
cbn [forallb] in Hx. apply andb_true_iff in Hx as [Hc Hx].
cbn [no_projection_suffix] in Hn. apply andb_true_iff in Hn as [Hcn Hn].
pose proof (ident_char_var ud c Hc) as Hv. unfold var_char in Hv.
rewrite Hv.
assert (Hlook :
  N.eqb c (chr "_")
  && match x ++ r with
     | next_c :: _ => N.eqb next_c (chr "0") || N.eqb next_c (chr "1")
     | [] => false
     end = false).
{ destruct x as [|d x]; cbn [app].
  - destruct r as [|h r]; [apply andb_false_r|].
    destruct Hr as (H0 & H1 & _). rewrite H0, H1. apply andb_false_r.
  - now apply negb_true_iff in Hcn. }
rewrite Hlook. f_equal. now apply IH.
Qed.

Lemma follows_var_stop rest : follows rest = true -> var_stop rest.
Proof.
destruct rest as [|h r]; [intros; exact I|]. cbn [follows var_stop].
intros Hf.
apply (follow_char_stops ud) in Hf. unfold stops in Hf.
repeat apply andb_true_iff in Hf as [Hf ?].
repeat match goal with H : negb _ = true |- _ =>
apply negb_true_iff in H end.
auto.
Qed.

Lemma parse_var_scan x r pos :
identifier x = true -> var_stop r -> rest_at text pos (x ++ r) ->
parse_var ud text pos
= (c <- peek text ;;
 a2 <- peek_ahead text 2 ;;
 match c with
 | Some c =>
     if N.eqb c c_sub0 then
       advance 1 ;;; skip_whitespace text ;;; ret (Dp0 x)
     else if N.eqb c c_sub1 then
       advance 1 ;;; skip_whitespace text ;;; ret (Dp1 x)
     else if str_eqb a2 (lit "_0") then
       advance 2 ;;; skip_whitespace text ;;; ret (Dp0 x)
     else if str_eqb a2 (lit "_1") then
       advance 2 ;;; skip_whitespace text ;;; ret (Dp1 x)
     else skip_whitespace text ;;; ret (Var x)
 | None => skip_whitespace text ;;; ret (Var x)
 end) (pos + length x)
/\ rest_at text (pos + length x) r.
Proof.
intros Hx Hr H.
destruct (identifier_inv x Hx) as (c & x' & _ & _ & Hall & Hno).
split; [|now apply rest_at_app].
unfold parse_var. unfold bind at 1. unfold get_pos at 1.
unfold bind at 1. rewrite H, (var_span_identifier x r Hall Hno Hr).
unfold bind at 1. unfold get_pos at 1.
now rewrite (rest_at_slice (length x) H), firstn_length_app.
Qed.

Lemma runs_parse_var x rest :
identifier x = true -> follows rest = true ->
runs text (parse_var ud text) (x ++ rest) (Var x) (ltrim rest).
Proof.
intros Hx Hf pos H.
destruct (@parse_var_scan x rest pos Hx (@follows_var_stop rest Hf) H)
as [-> Hr].
revert Hr. generalize (pos + length x). intros p Hr.
unfold bind at 1. unfold peek at 1. rewrite (rest_at_nth Hr).
unfold bind at 1. unfold peek_ahead at 1. rewrite (rest_at_slice 2 Hr).
assert (Hk : exists pos',
         (skip_whitespace text ;;; ret (Var x)) p = Ok (Var x, pos')
         /\ rest_at text pos' (ltrim rest)).
{ apply (@runs_skip_ret (Var x) rest). exact Hr. }
destruct rest as [|h r]; [exact Hk|]. cbn [hd_error].
simpl in Hf. apply (follow_char_stops ud) in Hf. unfold stops in Hf.
repeat apply andb_true_iff in Hf as [Hf ?].
repeat match goal with H : negb _ = true |- _ =>
apply negb_true_iff in H end.
repeat match goal with H : N.eqb h _ = false |- _ => rewrite H end.
assert (Hs0 : str_eqb (firstn 2 (h :: r)) (lit "_0") = false).
{ simpl. now replace (N.eqb h 95) with false. }
assert (Hs1 : str_eqb (firstn 2 (h :: r)) (lit "_1") = false).
{ simpl. now replace (N.eqb h 95) with false. }
rewrite Hs0, Hs1. exact Hk.
Qed.

Lemma runs_parse_dp x (i : bool) rest :
identifier x = true ->
runs text (parse_var ud text)
(x ++ (if i then c_sub1 else c_sub0) :: rest)
(if i then Dp1 x else Dp0 x) (ltrim rest).
Proof.
intros Hx pos H.
assert (Hstop : var_stop ((if i then c_sub1 else c_sub0) :: rest)).
{ destruct i; (split; [reflexivity|split; [reflexivity|left; reflexivity]]). }
destruct (@parse_var_scan x _ pos Hx Hstop H) as [-> Hr].
revert Hr. generalize (pos + length x). intros p Hr.
unfold bind at 1. unfold peek at 1. rewrite (rest_at_nth Hr).
unfold bind at 1. unfold peek_ahead at 1. cbn [hd_error].
assert (Hk : forall t : Term, exists pos',
         (advance 1 ;;; skip_whitespace text ;;; ret t) p = Ok (t, pos')
         /\ rest_at text pos' (ltrim rest)).
{ intros t.
apply (@runs_advance_skip_ret t (if i then c_sub1 else c_sub0) rest).
exact Hr. }
destruct i; [change (N.eqb c_sub1 c_sub0) with false|];
cbn iota; rewrite N.eqb_refl; apply Hk.
Qed.

End PrintedInput.

Lemma starts_ltrim_space s r : starts s -> ltrim (chr " " :: s ++ r) = s ++ r.
Proof. intros H. rewrite ltrim_space. now apply starts_ltrim. Qed.

Lemma starts_hd s r :
  starts s -> exists c, hd_error (s ++ r) = Some c /\ proper_start c = true.
Proof.
  intros (c & s' & -> & Hc). exists c. split; [reflexivity|].
  now apply start_char_proper.
Qed.

Lemma label_word_inv l :
  label_word l = true -> word l = true /\ default_label l = l.
Proof. destruct l; [discriminate|]. auto. Qed.

Section Productions.

Variable ud : UnicodeData.
Variable text : pystr.
Variable rec : P Term.

(** [rec] reads back the text of [t], whatever follows it. *)
Definition reads (t : Term) : Prop :=
forall rest, follows rest = true ->
           runs text rec (str t ++ rest) t (ltrim rest).

Lemma span_word w c r :
word w = true -> word_char ud c = false ->
span (word_char ud) (w ++ c :: r) = length w.
Proof.
intros Hw Hc. apply span_app; [|exact Hc].
apply forallb_implies with ident_char; [apply ident_char_word|exact Hw].
Qed.

Lemma runs_word w c r :
word w = true -> word_char ud c = false ->
runs text (parse_word ud text) (w ++ c :: r) w (c :: r).
Proof. intros Hw Hc. apply runs_parse_word. now apply span_word. Qed.

Ltac step lem := eapply runs_bind; [lem|].

Lemma runs_parse_lam x body rest :
word x = true -> starts (str body) -> reads body -> follows rest = true ->
runs text (parse_lam ud text rec)
([c_lambda] ++ x ++ lit "." ++ str body ++ rest) (Lam x body) (ltrim rest).
Proof.
intros Hx Hs Hb Hf. unfold parse_lam.
step ltac:(apply runs_peek). cbn [hd_error app]. rewrite N.eqb_refl.
step ltac:(apply (@runs_consume_to text [c_lambda]);
         apply (@word_ltrim x (chr ".")); [exact Hx|reflexivity]).
step ltac:(apply (@runs_word x (chr ".")); [exact Hx|reflexivity]).
step ltac:(apply runs_skip_nothing; reflexivity).
step ltac:(apply (@runs_consume_to text (lit ".")); now apply starts_ltrim).
step ltac:(apply Hb; exact Hf).
apply runs_ret.
Qed.

Lemma runs_parse_sup l a b rest :
label_word l = true -> starts (str a) -> starts (str b) ->
reads a -> reads b ->
runs text (parse_sup ud text rec)
(lit "&" ++ l ++ lit "{" ++ str a ++ lit ", " ++ str b ++ lit "}" ++ rest)
(Sup l a b) (ltrim rest).
Proof.
intros Hl Hsa Hsb Ha Hb. apply label_word_inv in Hl as [Hl Hd].
unfold parse_sup.
step ltac:(apply (@runs_consume_to text (lit "&"));
         apply (@word_ltrim l (chr "{")); [exact Hl|reflexivity]).
step ltac:(apply (@runs_word l (chr "{")); [exact Hl|reflexivity]).
rewrite Hd.
step ltac:(apply runs_skip_nothing; reflexivity).
step ltac:(apply (@runs_consume_to text (lit "{")); now apply starts_ltrim).
step ltac:(apply (Ha (lit ", " ++ str b ++ lit "}" ++ rest)); reflexivity).
step ltac:(apply (@runs_consume_to text (lit ",")
                  (chr " " :: str b ++ lit "}" ++ rest));
         now apply starts_ltrim_space).
step ltac:(apply (Hb (lit "}" ++ rest)); reflexivity).
step ltac:(apply (@runs_consume text (lit "}") rest)).
apply runs_ret.
Qed.

Lemma runs_parse_dup x l v b rest :
word x = true -> label_word l = true -> starts (str v) -> starts (str b) ->
reads v -> reads b -> follows rest = true ->
runs text (parse_dup ud text rec)
(lit "! " ++ x ++ lit " &" ++ l ++ lit "= " ++ str v ++ lit "; "
   ++ str b ++ rest)
(Dup x l v b) (ltrim rest).
Proof.
intros Hx Hl Hsv Hsb Hv Hb Hf. apply label_word_inv in Hl as [Hl Hd].
set (r := l ++ lit "= " ++ str v ++ lit "; " ++ str b ++ rest).
assert (Htail :
runs text
  (consume text (lit "&") ;;;
   label <- parse_word ud text ;;
   skip_whitespace text ;;;
   consume text (lit "=") ;;;
   value <- rec ;;
   consume text (lit ";") ;;;
   body <- rec ;; ret (Dup x (default_label label) value body))
  (lit "&" ++ r) (Dup x l v b) (ltrim rest)).
{ unfold r.
step ltac:(apply (@runs_consume_to text (lit "&"));
           apply (@word_ltrim l (chr "=")); [exact Hl|reflexivity]).
step ltac:(apply (@runs_word l (chr "=")); [exact Hl|reflexivity]).
rewrite Hd.
step ltac:(apply runs_skip_nothing; reflexivity).
step ltac:(apply (@runs_consume_to text (lit "=")
                    (chr " " :: str v ++ lit "; " ++ str b ++ rest));
           now apply starts_ltrim_space).
step ltac:(apply (Hv (lit "; " ++ str b ++ rest)); reflexivity).
step ltac:(apply (@runs_consume_to text (lit ";")
                    (chr " " :: str b ++ rest));
           now apply starts_ltrim_space).
step ltac:(apply (Hb rest); exact Hf).
apply runs_ret. }
unfold parse_dup. destruct x as [|c x].
- step ltac:(apply (@runs_consume_to text (lit "!")
                    (lit " " ++ lit " &" ++ r) (lit "&" ++ r));
           reflexivity).
step ltac:(apply (@runs_parse_word ud text [] (lit "&" ++ r)); reflexivity).
step ltac:(apply runs_skip_nothing; reflexivity).
exact Htail.
- assert (Hc : is_space c = false).
{ apply ident_char_not_space. simpl in Hx.
  now apply andb_true_iff in Hx as [Hc _]. }
step ltac:(apply (@runs_consume_to text (lit "!")
                    (chr " " :: (c :: x) ++ lit " &" ++ r)
                    ((c :: x) ++ lit " &" ++ r));
           rewrite ltrim_space; now apply ltrim_start).
step ltac:(apply (@runs_word (c :: x) (chr " ")); [exact Hx|reflexivity]).
step ltac:(apply (@runs_skip_whitespace text (lit " &" ++ r))).
exact Htail.
Qed.

Lemma runs_parse_app f a rest :
starts (str f) -> starts (str a) -> reads f -> reads a ->
runs text (parse_paren text rec)
(lit "(" ++ str f ++ lit " " ++ str a ++ lit ")" ++ rest)
(App f a) (ltrim rest).
Proof.
intros Hsf Hsa Hf Ha. unfold parse_paren.
step ltac:(apply (@runs_consume_to text (lit "(")); now apply starts_ltrim).
step ltac:(apply (Hf (lit " " ++ str a ++ lit ")" ++ rest)); reflexivity).
change (ltrim (lit " " ++ str a ++ lit ")" ++ rest))
with (ltrim (chr " " :: str a ++ lit ")" ++ rest)).
rewrite (starts_ltrim_space (lit ")" ++ rest) Hsa).
step ltac:(apply runs_peek).
destruct (starts_hd (lit ")" ++ rest) Hsa) as (c & -> & Hc).
unfold proper_start in Hc.
apply andb_true_iff in Hc as [[_ Hcomma]%andb_true_iff Hop].
apply negb_true_iff in Hcomma. rewrite Hcomma.
destruct (find_operator (Some c)); [discriminate|].
step ltac:(apply (Ha (lit ")" ++ rest)); reflexivity).
step ltac:(apply (@runs_consume text (lit ")") rest)).
apply runs_ret.
Qed.

Lemma runs_parse_pair a b rest :
starts (str a) -> starts (str b) -> reads a -> reads b ->
runs text (parse_paren text rec)
(lit "(" ++ str a ++ lit ", " ++ str b ++ lit ")" ++ rest)
(Pair a b) (ltrim rest).
Proof.
intros Hsa Hsb Ha Hb. unfold parse_paren.
step ltac:(apply (@runs_consume_to text (lit "(")); now apply starts_ltrim).
step ltac:(apply (Ha (lit ", " ++ str b ++ lit ")" ++ rest)); reflexivity).
step ltac:(apply runs_peek).
change (hd_error (ltrim (lit ", " ++ str b ++ lit ")" ++ rest)))
with (Some (chr ",")).
cbv beta iota. rewrite N.eqb_refl.
step ltac:(apply (@runs_consume_to text (lit ",")
                  (chr " " :: str b ++ lit ")" ++ rest));
         now apply starts_ltrim_space).
step ltac:(apply (Hb (lit ")" ++ rest)); reflexivity).
step ltac:(apply (@runs_consume text (lit ")") rest)).
apply runs_ret.
Qed.

Lemma runs_parse_op2 op a b rest :
In op operators -> starts (str a) -> starts (str b) -> reads a -> reads b ->
runs text (parse_paren text rec)
(lit "(" ++ str a ++ lit " " ++ op ++ lit " " ++ str b ++ lit ")" ++ rest)
(Op2 op a b) (ltrim rest).
Proof.
intros Hop Hsa Hsb Ha Hb. unfold parse_paren.
step ltac:(apply (@runs_consume_to text (lit "(")); now apply starts_ltrim).
step ltac:(apply (Ha (lit " " ++ op ++ lit " " ++ str b ++ lit ")" ++ rest));
         reflexivity).
step ltac:(apply runs_peek).
unfold operators in Hop. simpl in Hop.
destruct Hop as [<-|[<-|[<-|[<-|[]]]]];
match goal with
| |- context [hd_error (ltrim (lit " " ++ ?o ++ ?r))] =>
    change (hd_error (ltrim (lit " " ++ o ++ r))) with (hd_error o);
    cbn [hd_error lit map list_ascii_of_string];
    match goal with
    | |- context [find_operator (Some ?c)] =>
        change (find_operator (Some c)) with (Some o)
    end;
    match goal with
    | |- context [N.eqb ?c (chr ",")] =>
        change (N.eqb c (chr ",")) with false
    end;
    cbn iota;
    change (ltrim (lit " " ++ o ++ r)) with (o ++ r)
end;
(step ltac:(apply (@runs_consume_to text _
                    (chr " " :: str b ++ lit ")" ++ rest));
           now apply starts_ltrim_space));
(step ltac:(apply (Hb (lit ")" ++ rest)); reflexivity));
(step ltac:(apply (@runs_consume text (lit ")") rest)));
apply runs_ret.
Qed.

End Productions.

Lemma str_starts t : surface t = true -> starts (str t).
Proof.
  destruct t; cbn [surface str]; intros H;
    try (eexists _, _; split; [reflexivity|reflexivity]).
  - destruct (identifier_inv _ H) as (c & r & -> & Hc & _).
    exists c, r. split; [reflexivity|now apply ident_start_start].
  - destruct (identifier_inv _ H) as (c & r & -> & Hc & _).
    exists c, (r ++ [c_sub0]). split; [reflexivity|now apply ident_start_start].
  - destruct (identifier_inv _ H) as (c & r & -> & Hc & _).
    exists c, (r ++ [c_sub1]). split; [reflexivity|now apply ident_start_start].
  - apply Z.leb_le in H. unfold str_int.
    replace (value <? 0)%Z with false by (symmetry; apply Z.ltb_ge; lia).
    pose proof (str_N_nonempty (Z.to_N value)) as Hne.
    pose proof (uint_chars_digits (N.to_uint (Z.to_N value))) as Hd.
    fold (str_N (Z.to_N value)) in Hd.
    destruct (str_N (Z.to_N value)) as [|c r]; [congruence|].
    simpl in Hd. apply andb_true_iff in Hd as [Hc _].
    exists c, r. split; [reflexivity|]. unfold start_char.
    rewrite Hc. now rewrite !orb_true_r.
Qed.

Section PrintedTerms.

Variable ud : UnicodeData.
Variable text : pystr.

(** [parse_term] on an input that begins with a character of a term. *)
Lemma runs_parse_term f c r a out :
is_space c = false ->
runs text
(if str_eqb (firstn 3 (c :: r)) (lit "&{}") then
   consume text (lit "&{}") ;;; ret Era
 else if N.eqb c (chr "&") then parse_sup ud text (parse_term ud text f)
 else if N.eqb c (chr "!") then parse_dup ud text (parse_term ud text f)
 else if N.eqb c c_lambda || N.eqb c (chr "\") then
   parse_lam ud text (parse_term ud text f)
 else if N.eqb c (chr "(") then parse_paren text (parse_term ud text f)
 else if isdigit ud c then parse_num ud text
 else if isalpha ud c || N.eqb c (chr "_") then parse_var ud text
 else pos <- get_pos ;; raise (ParseError (UnexpectedCharacter c pos)))
(c :: r) a out ->
runs text (parse_term ud text (S f)) (c :: r) a out.
Proof.
intros Hc Hbranch pos H. cbn [parse_term].
unfold bind at 1. unfold skip_whitespace, scan.
rewrite H. cbn [span]. rewrite Hc, Nat.add_0_r.
unfold bind at 1. unfold peek at 1. rewrite (rest_at_nth H). cbn [hd_error].
unfold bind at 1. unfold peek_ahead at 1. rewrite (rest_at_slice 3 H).
apply Hbranch. exact H.
Qed.

Lemma not_era c r :
N.eqb c (chr "&") = false -> str_eqb (firstn 3 (c :: r)) (lit "&{}") = false.
Proof.
intros H. apply N.eqb_neq in H. apply str_eqb_neq. intros E. apply H.
simpl in E. destruct r as [|? [|? ?]]; simpl in E; try discriminate E;
now injection E.
Qed.

Lemma runs_var_like x tail a out :
identifier x = true ->
runs text (parse_var ud text) (x ++ tail) a out ->
forall f, runs text (parse_term ud text (S f)) (x ++ tail) a out.
Proof.
intros Hx Hrun f.
destruct (identifier_inv _ Hx) as (c & r & -> & Hc & Hall & _).
cbn [app] in *.
pose proof (ident_start_sorted ud c Hc) as Hs. unfold sorted_as_var in Hs.
repeat apply andb_true_iff in Hs as [Hs ?].
repeat match goal with H : negb _ = true |- _ =>
apply negb_true_iff in H end.
apply runs_parse_term.
- apply ident_char_not_space. cbn [forallb] in Hall.
now apply andb_true_iff in Hall as [? _].
- rewrite not_era by assumption.
repeat match goal with H : _ = false |- _ => rewrite H end.
match goal with H : _ = true |- _ => rewrite H end.
exact Hrun.
Qed.

(** Round trip, with what follows the term: [parse_term] reads the text of
a surface term back and skips the whitespace after it. *)
Lemma parse_term_print t :
surface t = true ->
forall fuel rest,
height t <= fuel -> follows rest = true ->
runs text (parse_term ud text fuel) (str t ++ rest) t (ltrim rest).
Proof.
induction t; cbn [surface height]; intros Hs fuel rest Hh Hf;
(destruct fuel as [|f]; [lia|]);
repeat match goal with
       | H : _ && _ = true |- _ => apply andb_true_iff in H as [? ?]
       end.
- (* Var *)
apply runs_var_like; [assumption|]. now apply runs_parse_var.
- (* Dp0 *)
cbn [str]. rewrite <- List.app_assoc.
apply runs_var_like; [assumption|].
now apply (@runs_parse_dp ud text name false).
- (* Dp1 *)
cbn [str]. rewrite <- List.app_assoc.
apply runs_var_like; [assumption|].
now apply (@runs_parse_dp ud text name true).
- (* Num *)
apply Z.leb_le in Hs. cbn [str]. unfold str_int.
replace (value <? 0)%Z with false by (symmetry; apply Z.ltb_ge; lia).
pose proof (@runs_parse_num ud text (Z.to_N value) rest Hf) as Hrun.
rewrite Z2N.id in Hrun by lia.
pose proof (str_N_nonempty (Z.to_N value)) as Hne.
pose proof (uint_chars_digits (N.to_uint (Z.to_N value))) as Hd.
fold (str_N (Z.to_N value)) in Hd.
destruct (str_N (Z.to_N value)) as [|c r]; [congruence|].
cbn [forallb] in Hd. apply andb_true_iff in Hd as [Hc _].
cbn [app] in *.
pose proof (ascii_digit_sorted ud c Hc) as Hsort.
unfold sorted_as_num in Hsort.
repeat apply andb_true_iff in Hsort as [Hsort ?].
repeat match goal with H : negb _ = true |- _ =>
  apply negb_true_iff in H end.
apply runs_parse_term.
+ pose proof (start_char_proper c) as Hp. unfold start_char in Hp.
  rewrite Hc, !orb_true_r in Hp. specialize (Hp eq_refl).
  unfold proper_start in Hp.
  apply andb_true_iff in Hp as [[Hp _]%andb_true_iff _].
  now apply negb_true_iff.
+ rewrite not_era by assumption.
  repeat match goal with H : _ = false |- _ => rewrite H end.
  match goal with H : isdigit ud c = true |- _ => rewrite H end.
  exact Hrun.
- (* Lam *)
cbn [str]. rewrite <- !List.app_comm_cons, <- !List.app_assoc.
apply (@runs_parse_term f c_lambda); [reflexivity|].
rewrite not_era by reflexivity.
change (N.eqb c_lambda (chr "&")) with false.
change (N.eqb c_lambda (chr "!")) with false.
rewrite N.eqb_refl. cbn [orb].
apply (@runs_parse_lam ud text (parse_term ud text f) var t rest);
  auto using str_starts.
intros r Hr. apply IHt; auto. lia.
- (* App *)
cbn [str]. rewrite <- !List.app_assoc.
apply (@runs_parse_term f (chr "(")); [reflexivity|].
rewrite not_era by reflexivity.
apply (@runs_parse_app text (parse_term ud text f) t1 t2 rest);
  auto using str_starts.
+ intros r Hr. apply IHt1; auto. lia.
+ intros r Hr. apply IHt2; auto. lia.
- (* Sup *)
cbn [str]. rewrite <- !List.app_assoc.
apply (@runs_parse_term f (chr "&")); [reflexivity|].
assert (Hne : str_eqb
                (firstn 3
                   (chr "&" :: label ++ lit "{" ++ str t1 ++ lit ", "
                      ++ str t2 ++ lit "}" ++ rest))
                (lit "&{}") = false).
{ destruct label as [|d l]; [discriminate|].
  apply str_eqb_neq. intros E.
  assert (Hd : ident_char d = true).
  { match goal with H : label_word _ = true |- _ =>
      simpl in H; now apply andb_true_iff in H as [? _] end. }
  simpl in E. destruct (l ++ _); simpl in E; try discriminate E.
  injection E as -> _. discriminate Hd. }
rewrite Hne. rewrite N.eqb_refl.
apply (@runs_parse_sup ud text (parse_term ud text f) label t1 t2 rest);
  auto using str_starts.
+ intros r Hr. apply IHt1; auto. lia.
+ intros r Hr. apply IHt2; auto. lia.
- (* Dup *)
cbn [str]. rewrite <- !List.app_assoc.
apply (@runs_parse_term f (chr "!")); [reflexivity|].
rewrite not_era by reflexivity.
change (N.eqb (chr "!") (chr "&")) with false.
rewrite N.eqb_refl.
apply (@runs_parse_dup ud text (parse_term ud text f) name label t1 t2
         rest); auto using str_starts.
+ intros r Hr. apply IHt1; auto. lia.
+ intros r Hr. apply IHt2; auto. lia.
- (* Era *)
apply (@runs_parse_term f (chr "&") (lit "{}" ++ rest)); [reflexivity|].
change (str_eqb (firstn 3 (chr "&" :: lit "{}" ++ rest)) (lit "&{}"))
  with true.
eapply runs_bind; [apply (@runs_consume text (lit "&{}") rest)|].
apply runs_ret.
- (* Op2 *)
cbn [str]. rewrite <- !List.app_assoc.
apply (@runs_parse_term f (chr "(")); [reflexivity|].
rewrite not_era by reflexivity.
apply (@runs_parse_op2 text (parse_term ud text f) op t1 t2 rest);
  auto using str_starts.
+ now apply operators_spec.
+ intros r Hr. apply IHt1; auto. lia.
+ intros r Hr. apply IHt2; auto. lia.
- (* Pair *)
cbn [str]. rewrite <- !List.app_assoc.
apply (@runs_parse_term f (chr "(")); [reflexivity|].
rewrite not_era by reflexivity.
apply (@runs_parse_pair text (parse_term ud text f) t1 t2 rest);
  auto using str_starts.
+ intros r Hr. apply IHt1; auto. lia.
+ intros r Hr. apply IHt2; auto. lia.
Qed.

End PrintedTerms.

(** The text of a term is at least as long as the term is deep. *)
Lemma height_le_length t : surface t = true -> height t <= length (str t).
Proof.
  induction t; cbn [surface height str]; intros H;
    repeat match goal with
           | H : _ && _ = true |- _ => apply andb_true_iff in H as [? ?]
           end;
    repeat match goal with
           | IH : surface ?t = true -> _, H : surface ?t = true |- _ =>
               specialize (IH H)
           end;
    repeat (rewrite ?length_app; cbn [length lit map list_ascii_of_string]);
    try lia.
  - destruct (identifier_inv _ H) as (c & r & -> & _). simpl. lia.
  - pose proof (str_starts (Num value) H) as (c & r & E & _).
    cbn [str] in E. rewrite E. simpl. lia.
Qed.

(** ** Whole inputs *)

Section WholeInput.

Variable ud : UnicodeData.
Variable text : pystr.

(** The ASCII spelling of a projection. *)
Lemma runs_parse_dp_ascii x (i : bool) rest :
identifier x = true ->
runs text (parse_var ud text)
(x ++ chr "_" :: (if i then chr "1" else chr "0") :: rest)
(if i then Dp1 x else Dp0 x) (ltrim rest).
Proof.
intros Hx pos H.
assert (Hstop : var_stop ud
                (chr "_" :: (if i then chr "1" else chr "0") :: rest)).
{ split; [reflexivity|split; [reflexivity|right]].
split; [reflexivity|]. now destruct i. }
destruct (@parse_var_scan ud text x _ pos Hx Hstop H) as [-> Hr].
revert Hr. generalize (pos + length x). intros p Hr.
unfold bind at 1. unfold peek at 1. rewrite (rest_at_nth Hr).
unfold bind at 1. unfold peek_ahead at 1. rewrite (rest_at_slice 2 Hr).
cbn [hd_error].
assert (Hk : forall t : Term, exists pos',
         (advance 2 ;;; skip_whitespace text ;;; ret t) p = Ok (t, pos')
         /\ rest_at text pos' (ltrim rest)).
{ intros t.
assert (Hrun : runs text (advance 2 ;;; skip_whitespace text ;;; ret t)
                 (chr "_" :: (if i then chr "1" else chr "0") :: rest)
                 t (ltrim rest)).
{ eapply runs_bind; [apply (@runs_advance text 2)|].
  apply (@runs_skip_ret text t rest). }
apply Hrun. exact Hr. }
destruct i; apply Hk.
Qed.

Lemma Parser_parse_runs fuel t :
ltrim text = text ->
runs text (parse_term ud text fuel) text t [] ->
exists p, Parser_parse ud text fuel 0 = Ok (t, p).
Proof.
intros Htrim Hrun. unfold Parser_parse.
assert (H0 : rest_at text 0 text) by reflexivity.
assert (Hall : runs text
        (skip_whitespace text ;;;
         term <- parse_term ud text fuel ;;
         skip_whitespace text ;;; ret term) text t []).
{ eapply runs_bind; [now apply runs_skip_nothing|].
eapply runs_bind; [exact Hrun|].
eapply runs_bind; [apply (@runs_skip_whitespace text [])|].
apply runs_ret. }
destruct (Hall 0 H0) as (p & Hp & Hr). exists p.
unfold bind in *.
destruct (skip_whitespace text 0) as [[u p0]| |]; try discriminate.
destruct (parse_term ud text fuel p0) as [[t0 p1]| |]; try discriminate.
destruct (skip_whitespace text p1) as [[u' p2]| |]; try discriminate.
injection Hp as -> ->. unfold get_pos.
now rewrite (rest_at_nth Hr).
Qed.

Lemma parse_runs t :
ltrim text = text ->
runs text (parse_term ud text (S (length text))) text t [] ->
parse ud text = Ok t.
Proof.
intros Htrim Hrun. unfold parse.
destruct (@Parser_parse_runs (S (length text)) t Htrim Hrun) as (p & ->).
reflexivity.
Qed.

End WholeInput.

(** C5.  For every surface term [t] (identifiers for variables and
    projections, words for binders, non-empty words for labels, natural
    numbers, the four operators, in any of the eleven variants), parsing
    the pretty-printed form of [t] returns [t] itself; the printer writes
    projections in their Unicode form, which the parser reads back to the
    same [Dp0]/[Dp1] node as the ASCII form. *)
Theorem C5_round_trip (ud : UnicodeData) (t : Term) :
  surface t = true -> parse ud (str t) = Ok t.
Proof.
  intros Hs. apply parse_runs.
  - rewrite <- (List.app_nil_r (str t)). apply starts_ltrim.
    now apply str_starts.
  - pose proof (@parse_term_print ud (str t) t Hs (S (length (str t))) []) as H.
    rewrite List.app_nil_r in H. apply H; [|reflexivity].
    pose proof (height_le_length t Hs). lia.
Qed.

(** [! f &L= λx.(x_ + 1); ((f₀ 2), &R{&{}, (f₁ y)})] *)
Definition sample : Term :=
  Dup (lit "f") (lit "L")
    (Lam (lit "x") (Op2 (lit "+") (Var (lit "x_")) (Num 1)))
    (Pair (App (Dp0 (lit "f")) (Num 2))
       (Sup (lit "R") Era (App (Dp1 (lit "f")) (Var (lit "y"))))).

Lemma C5_round_trip_witness : parse ascii_only (str sample) = Ok sample.
Proof. apply (@C5_round_trip ascii_only sample). reflexivity. Defined.

(** ** Projections and the scanner of [parse_var] *)

(** An identifier as the grammar of the parser's docstring has it:
    [[a-zA-Z_][a-zA-Z0-9_]*]. *)
Definition grammar_identifier (s : pystr) : bool :=
  match s with
  | c :: _ => ident_start c && forallb ident_char s
  | [] => false
  end.

(** The scanner never reads past an underscore that [0] or [1] follows. *)
Lemma var_span_suffix ud (s : pystr) (d : char) (r : pystr) :
  N.eqb d (chr "0") || N.eqb d (chr "1") = true ->
  var_span ud (s ++ chr "_" :: d :: r) <= length s.
Proof.
  intros Hd. induction s as [|c s IH]; cbn [app var_span length].
  - rewrite Hd, N.eqb_refl. cbn [andb]. now destruct (isascii _ && _).
  - destruct (isascii c && _); [|lia].
    destruct (N.eqb c (chr "_") && _); lia.
Qed.

Lemma parse_name_then ud x tail t :
  identifier x = true ->
  (forall text, runs text (parse_var ud text) (x ++ tail) t []) ->
  parse ud (x ++ tail) = Ok t.
Proof.
  intros Hx Hrun. apply parse_runs.
  - apply starts_ltrim.
    destruct (identifier_inv _ Hx) as (c & r & -> & Hc & _).
    exists c, r. split; [reflexivity|now apply ident_start_start].
  - apply runs_var_like; [exact Hx|apply Hrun].
Qed.

(** C8 (counterexample).  [a_0b] is an identifier of the grammar, but the
    scanner stops inside it: ['a_0b_0'] is read as [DP0(a)] followed by the
    unexpected character [b] at offset 3, not as [DP0(a_0b)]. *)
Lemma C8_suffix_inside_identifier :
  grammar_identifier (lit "a_0b") = true
  /\ parse ascii_only (lit "a_0b" ++ lit "_0")
     = Raise (ParseError (TrailingCharacter 3 (chr "b")))
  /\ parse ascii_only (lit "a_0b" ++ lit "_0") <> Ok (Dp0 (lit "a_0b")).
Proof.
  split; [reflexivity|]. split; [vm_compute; reflexivity|].
  vm_compute. discriminate.
Qed.

(** C8 (amended).  In any input the scanner stops reading an identifier at
    the latest before an underscore that is followed by [0] or [1].  For
    every identifier [x] in which no underscore is followed by [0] or [1],
    it reads exactly [x] before such a suffix, so ['x_0'] parses to
    [DP0(x)] and ['x_1'] to [DP1(x)], not to a variable; the Unicode forms
    ['x₀'] and ['x₁'] parse to the same terms. *)
Theorem C8_projection_suffix (ud : UnicodeData) (x : pystr) :
  identifier x = true ->
  (forall s d r,
     N.eqb d (chr "0") || N.eqb d (chr "1") = true ->
     var_span ud (s ++ chr "_" :: d :: r) <= length s)
  /\ (forall r, var_span ud (x ++ lit "_0" ++ r) = length x
                /\ var_span ud (x ++ lit "_1" ++ r) = length x)
  /\ parse ud (x ++ lit "_0") = Ok (Dp0 x)
  /\ parse ud (x ++ lit "_1") = Ok (Dp1 x)
  /\ parse ud (x ++ [c_sub0]) = Ok (Dp0 x)
  /\ parse ud (x ++ [c_sub1]) = Ok (Dp1 x).
Proof.
  intros Hx. split; [apply var_span_suffix|].
  destruct (identifier_inv _ Hx) as (c & x' & E & _ & Hall & Hno).
  split.
  - intros r. split; apply var_span_identifier; auto;
      (split; [reflexivity|split; [reflexivity|right]]);
      (split; reflexivity).
  - repeat split.
    + apply parse_name_then; [exact Hx|]. intros text.
      apply (@runs_parse_dp_ascii ud text x false []). exact Hx.
    + apply parse_name_then; [exact Hx|]. intros text.
      apply (@runs_parse_dp_ascii ud text x true []). exact Hx.
    + apply parse_name_then; [exact Hx|]. intros text.
      apply (@runs_parse_dp ud text x false []). exact Hx.
    + apply parse_name_then; [exact Hx|]. intros text.
      apply (@runs_parse_dp ud text x true []). exact Hx.
Qed.

Lemma C8_projection_suffix_witness :
  parse ascii_only (lit "x_0") = Ok (Dp0 (lit "x"))
  /\ parse ascii_only (lit "x_1") = Ok (Dp1 (lit "x"))
  /\ parse ascii_only (lit "x" ++ [c_sub0]) = Ok (Dp0 (lit "x"))
  /\ parse ascii_only (lit "x" ++ [c_sub1]) = Ok (Dp1 (lit "x")).
Proof.
  destruct (@C8_projection_suffix ascii_only (lit "x"))
    as (_ & _ & H0 & H1 & H2 & H3).
  - reflexivity.
  - repeat split; assumption.
Defined.

(** * Further properties of the substitution kernel, the reducer and the
    parser *)

(** ** Substitution and projections *)

(** X1.  A term that mentions neither projection of [name] is left as it is
    by [substitute_dp], whatever the two values: the body of an unused
    duplication needs no copy of the value. *)
Theorem substitute_dp_unused (t : Term) (name : pystr) (val0 val1 : Term) :
  contains_dp t name 0 = false ->
  contains_dp t name 1 = false ->
  substitute_dp t name val0 val1 = t.
Proof.
  induction t; cbn [contains_dp substitute_dp]; intros H0 H1;
    try reflexivity;
    repeat match goal with
           | H : _ || _ = false |- _ => apply orb_false_iff in H as [? ?]
           end;
    try (f_equal; auto; fail).
  - destruct (str_eqb name0 name); [discriminate|reflexivity].
  - destruct (str_eqb name0 name); [discriminate|reflexivity].
Qed.

Lemma substitute_dp_unused_witness :
  substitute_dp (Op2 (lit "+") (Dp0 (lit "y")) (Var (lit "x"))) (lit "x")
    (Num 1) (Num 2)
  = Op2 (lit "+") (Dp0 (lit "y")) (Var (lit "x")).
Proof.
  apply (@substitute_dp_unused
           (Op2 (lit "+") (Dp0 (lit "y")) (Var (lit "x"))) (lit "x")
           (Num 1) (Num 2)); reflexivity.
Defined.

(** X2.  Once both projections of [name] are replaced by values that do not
    mention them, no projection of [name] is left in the term. *)
Theorem substitute_dp_eliminates (t : Term) (name : pystr) (val0 val1 : Term)
    (idx : nat) :
  contains_dp val0 name idx = false ->
  contains_dp val1 name idx = false ->
  contains_dp (substitute_dp t name val0 val1) name idx = false.
Proof.
  intros H0 H1.
  induction t; cbn [contains_dp substitute_dp]; try reflexivity;
    try (rewrite ?IHt, ?IHt1, ?IHt2; reflexivity).
  - destruct (str_eqb name0 name) eqn:E; [exact H0|].
    cbn [contains_dp]. now rewrite E.
  - destruct (str_eqb name0 name) eqn:E; [exact H1|].
    cbn [contains_dp]. now rewrite E.
Qed.

Lemma substitute_dp_eliminates_witness :
  contains_dp
    (substitute_dp (Pair (Dp0 (lit "x")) (Dp1 (lit "x"))) (lit "x")
       (Num 1) Era) (lit "x") 0 = false.
Proof.
  apply (@substitute_dp_eliminates (Pair (Dp0 (lit "x")) (Dp1 (lit "x")))
           (lit "x") (Num 1) Era 0); reflexivity.
Defined.

(** X3.  [substitute] replaces variables only: which projections a term
    mentions is unchanged by substituting a value that mentions none of
    them. *)
Theorem substitute_keeps_projections (t : Term) (var : pystr) (value : Term)
    (name : pystr) (idx : nat) :
  contains_dp value name idx = false ->
  contains_dp (substitute t var value) name idx = contains_dp t name idx.
Proof.
  intros Hv.
  induction t; cbn [contains_dp substitute]; try reflexivity;
    try (rewrite ?IHt, ?IHt1, ?IHt2; reflexivity).
  - destruct (str_eqb name0 var); [exact Hv|reflexivity].
  - destruct (str_eqb var0 var); cbn [contains_dp]; [reflexivity|exact IHt].
Qed.

Lemma substitute_keeps_projections_witness :
  contains_dp
    (substitute (App (Var (lit "f")) (Dp0 (lit "x"))) (lit "f") (Num 3))
    (lit "x") 0
  = contains_dp (App (Var (lit "f")) (Dp0 (lit "x"))) (lit "x") 0.
Proof.
  apply (@substitute_keeps_projections
           (App (Var (lit "f")) (Dp0 (lit "x"))) (lit "f") (Num 3)
           (lit "x") 0); reflexivity.
Defined.

(** X4.  Substituting a variable for itself changes nothing, also under a
    binder of the same name, where the traversal stops. *)
Theorem substitute_self (t : Term) (var : pystr) :
  substitute t var (Var var) = t.
Proof.
  induction t; cbn [substitute]; try reflexivity;
    try (rewrite ?IHt, ?IHt1, ?IHt2; reflexivity).
  - destruct (str_eqb name var) eqn:E; [|reflexivity].
    apply str_eqb_eq in E. now subst.
  - destruct (str_eqb var0 var); [reflexivity|now rewrite IHt].
Qed.

(** X5.  No projection is found for an index other than 0 and 1. *)
Theorem contains_dp_index (t : Term) (name : pystr) (idx : nat) :
  2 <= idx -> contains_dp t name idx = false.
Proof.
  intros Hi. induction t; cbn [contains_dp]; try reflexivity;
    try (rewrite ?IHt, ?IHt1, ?IHt2; reflexivity).
  - destruct idx as [|[|k]]; try lia. apply andb_false_r.
  - destruct idx as [|[|k]]; try lia. apply andb_false_r.
Qed.

Lemma contains_dp_index_witness :
  contains_dp (Dp0 (lit "x")) (lit "x") 2 = false.
Proof. apply (@contains_dp_index (Dp0 (lit "x")) (lit "x") 2). lia. Defined.

(** ** Fresh names *)

(** [m] never lowers the counter. *)
Definition grows {A} (m : M A) : Prop :=
  forall c, match m c with
            | Ok (_, c') => (c <= c')%N
            | _ => True
            end.

Lemma grows_ret A (a : A) : grows (ret a).
Proof. intros c. simpl. lia. Qed.

Lemma grows_bind A B (m : M A) (f : A -> M B) :
  grows m -> (forall a, grows (f a)) -> grows (bind m f).
Proof.
  intros Hm Hf c. unfold bind. specialize (Hm c).
  destruct (m c) as [[a c1]| |]; auto.
  specialize (Hf a c1). destruct (f a c1) as [[b c2]| |]; auto. lia.
Qed.

Lemma grows_fresh_name prefix : grows (fresh_name prefix).
Proof. intros c. simpl. lia. Qed.

Lemma grows_compute_op op a b : grows (compute_op op a b).
Proof.
  unfold compute_op. repeat case_if; try apply grows_ret.
  intros c. exact I.
Qed.

Ltac grows_auto H :=
  repeat match goal with
         | |- grows (ret _) => apply grows_ret
         | |- grows (fresh_name _) => apply grows_fresh_name
         | |- grows (compute_op _ _ _) => apply grows_compute_op
         | |- grows (bind _ _) => apply grows_bind; [|intros ?]
         | |- grows (if ?b then _ else _) => destruct b
         | |- grows (match ?x with _ => _ end) => destruct x
         | |- _ => apply H
         end.

Lemma reduce_grows fuel : forall t, grows (reduce fuel t).
Proof.
  induction fuel as [|f IH]; intros t; [intros c; exact I|].
  destruct t; cbn [reduce];
    unfold reduce_app, reduce_dup, reduce_op2; cbv zeta; grows_auto IH.
Qed.

Lemma evaluate_loop_grows budget fuel :
  forall ev term prev,
    match evaluate_loop budget fuel ev term prev with
    | Ok (_, ev') => (fresh_counter ev <= fresh_counter ev')%N
    | _ => True
    end.
Proof.
  induction budget as [|b IH]; intros ev term prev;
    rewrite evaluate_loop_unfold; case_if; try exact I; try reflexivity.
  pose proof (reduce_grows fuel term (fresh_counter ev)) as Hr.
  destruct (reduce fuel term (fresh_counter ev)) as [[t' c']| |]; auto.
  specialize (IH (next_step ev c') t' (Some term)).
  destruct (evaluate_loop b fuel (next_step ev c') t' (Some term))
    as [[u ev']| |]; auto.
  simpl in IH. lia.
Qed.

(** X6.  The fresh-name counter is monotonic: neither one [reduce] nor a
    whole [evaluate] ever lowers it, so a name drawn later carries a larger
    number than every name drawn before on the same [Evaluator]. *)
Theorem fresh_counter_monotonic (fuel : nat) (t : Term) :
  (forall c, match reduce fuel t c with
             | Ok (_, c') => (c <= c')%N
             | _ => True
             end)
  /\ (forall ev, match evaluate fuel ev t with
                 | Ok (_, ev') => (fresh_counter ev <= fresh_counter ev')%N
                 | _ => True
                 end).
Proof.
  split; [apply reduce_grows|].
  intros ev. unfold evaluate.
  apply (evaluate_loop_grows (N.to_nat (max_steps ev)) fuel
           {| debug := debug ev; fresh_counter := fresh_counter ev;
              steps := 0; max_steps := max_steps ev |} t None).
Qed.

Lemma str_N_injective a b : str_N a = str_N b -> a = b.
Proof.
  intros H. rewrite <- (decimal_value_str_N a), <- (decimal_value_str_N b).
  now rewrite H.
Qed.

(** X7.  With one prefix, [fresh_name] gives different names at different
    counters, and every name it gives begins with [$] and advances the
    counter by one. *)
Theorem fresh_name_distinct (prefix : pystr) (c1 c2 : N) :
  c1 <> c2 ->
  match fresh_name prefix c1, fresh_name prefix c2 with
  | Ok (n1, c1'), Ok (n2, c2') =>
      n1 <> n2 /\ hd_error n1 = Some (chr "$") /\ c1' = (c1 + 1)%N
  | _, _ => False
  end.
Proof.
  intros Hc. unfold fresh_name. cbv zeta. split; [|split; reflexivity].
  intros E. apply app_inv_head in E. apply app_inv_head in E.
  apply str_N_injective in E. lia.
Qed.

Lemma fresh_name_distinct_witness :
  match fresh_name (lit "x") 9%N, fresh_name (lit "x") 10%N with
  | Ok (n1, c1'), Ok (n2, c2') =>
      n1 <> n2 /\ hd_error n1 = Some (chr "$") /\ c1' = (9 + 1)%N
  | _, _ => False
  end.
Proof. apply (@fresh_name_distinct (lit "x") 9%N 10%N). lia. Defined.

(** ** Arithmetic expressions *)

(** Expressions of numbers and the four operators. *)
Fixpoint arithmetic (t : Term) : bool :=
  match t with
  | Num _ => true
  | Op2 op a b =>
      existsb (str_eqb op) operators && arithmetic a && arithmetic b
  | _ => false
  end.

(** Their value, with the division of [compute_op]. *)
Fixpoint arithmetic_value (t : Term) : Z :=
  match t with
  | Num v => v
  | Op2 op a b => floor_op op (arithmetic_value a) (arithmetic_value b)
  | _ => 0%Z
  end.

(** [reduce_op2] reduces both operands before it looks at them, so one
    [reduce] computes a whole expression, innermost first. *)
Lemma reduce_arithmetic fuel :
  forall t c,
    arithmetic t = true -> height t <= fuel ->
    reduce fuel t c = Ok (Num (arithmetic_value t), c).
Proof.
  induction fuel as [|f IH]; intros t c Ha Hh.
  - destruct t; simpl in Hh; lia.
  - destruct t; try discriminate Ha; [reflexivity|].
    cbn [arithmetic] in Ha.
    apply andb_true_iff in Ha as [[Hop Ha1]%andb_true_iff Ha2].
    cbn [height] in Hh. cbn [reduce arithmetic_value].
    unfold reduce_op2, bind.
    rewrite (IH t1 c Ha1) by lia. rewrite (IH t2 c Ha2) by lia.
    apply operators_spec in Hop.
    now rewrite (compute_op_floor _ _ c Hop).
Qed.

Lemma arithmetic_run (fuel : nat) (ev : Evaluator) (t : Term) :
  arithmetic t = true ->
  height t <= fuel ->
  (0 < max_steps ev)%N ->
  exists ev',
    evaluate fuel ev t = Ok (Num (arithmetic_value t), ev')
    /\ fresh_counter ev' = fresh_counter ev.
Proof.
  intros Ha Hh Hmax. unfold evaluate.
  set (ev0 := {| debug := debug ev; fresh_counter := fresh_counter ev;
                 steps := 0; max_steps := max_steps ev |}).
  assert (Hone : 1 <= fuel) by (destruct t; simpl in Hh; lia).
  assert (Hnum : forall v c, reduce fuel (Num v) c = Ok (Num v, c)).
  { intros v c. destruct fuel; [lia|reflexivity]. }
  rewrite evaluate_loop_unfold.
  destruct (negb (str_eqb (str t) (str_opt None))
            && (steps ev0 <? max_steps ev0)%N) eqn:Hc.
  - destruct (N.to_nat (max_steps ev0)) as [|b] eqn:Hb;
      [simpl in Hb; lia|].
    rewrite (@reduce_arithmetic fuel t (fresh_counter ev0) Ha Hh).
    destruct (@evaluate_loop_stable b fuel
                (next_step ev0 (fresh_counter ev0))
                (Num (arithmetic_value t)) (Some t))
      as (ev' & Hev & Hcnt & _).
    + unfold budget_ok. simpl in *. lia.
    + apply Hnum.
    + exists ev'. split; [exact Hev|exact Hcnt].
  - apply andb_false_iff in Hc as [Hc|Hc].
    + apply negb_false_iff, str_eqb_eq, str_None_inv in Hc.
      subst t. discriminate Ha.
    + apply N.ltb_ge in Hc. simpl in Hc. lia.
Qed.

(** X8.  An expression built of numbers and the four operators normalises
    to the number it denotes, division rounding toward minus infinity and
    division by zero giving 0; the fresh-name counter is not touched. *)
Theorem evaluate_arithmetic (fuel : nat) (ev : Evaluator) (t : Term) :
  arithmetic t = true ->
  height t <= fuel ->
  (0 < max_steps ev)%N ->
  exists ev',
    evaluate fuel ev t = Ok (Num (arithmetic_value t), ev')
    /\ fresh_counter ev' = fresh_counter ev.
Proof. apply arithmetic_run. Qed.

Lemma evaluate_arithmetic_witness :
  exists ev',
    evaluate 3 (new_Evaluator false)
      (Op2 (lit "/") (Op2 (lit "-") (Num 1) (Num 8)) (Op2 (lit "*") (Num 2) (Num 1)))
    = Ok (Num (-4), ev')
    /\ fresh_counter ev' = 0%N.
Proof.
  apply (@evaluate_arithmetic 3 (new_Evaluator false)
           (Op2 (lit "/") (Op2 (lit "-") (Num 1) (Num 8))
              (Op2 (lit "*") (Num 2) (Num 1)))).
  - reflexivity.
  - simpl. lia.
  - reflexivity.
Defined.

(** ** Erasure and normal forms *)

(** X9.  [(&{} a)] normalises to [&{}] whatever the argument [a] is: the
    argument is dropped without being reduced, so not even an argument
    whose reduction would fail matters. *)
Theorem evaluate_app_era (fuel : nat) (ev : Evaluator) (arg : Term) :
  2 <= fuel ->
  (0 < max_steps ev)%N ->
  exists ev',
    evaluate fuel ev (App Era arg) = Ok (Era, ev')
    /\ fresh_counter ev' = fresh_counter ev.
Proof.
  intros Hfuel Hmax. destruct fuel as [|[|f]]; try lia.
  unfold evaluate. rewrite evaluate_loop_unfold.
  cbn [steps max_steps fresh_counter].
  replace (0 <? max_steps ev)%N with true by (symmetry; now apply N.ltb_lt).
  replace (str_eqb (str (App Era arg)) (str_opt None)) with false
    by reflexivity.
  cbn [negb andb].
  destruct (N.to_nat (max_steps ev)) as [|b] eqn:Hb; [lia|].
  change (reduce (S (S f)) (App Era arg) (fresh_counter ev))
    with (Ok (Era, fresh_counter ev)).
  destruct (@evaluate_loop_stable b (S (S f))
              (next_step
                 {| debug := debug ev; fresh_counter := fresh_counter ev;
                    steps := 0; max_steps := max_steps ev |}
                 (fresh_counter ev))
              Era (Some (App Era arg))) as (ev' & Hev & Hc & _).
  - unfold budget_ok. simpl. lia.
  - reflexivity.
  - exists ev'. split; [exact Hev|exact Hc].
Qed.

Lemma evaluate_app_era_witness :
  exists ev',
    evaluate 2 (new_Evaluator false)
      (App Era (Op2 (lit "%") (Num 1) (Num 2))) = Ok (Era, ev')
    /\ fresh_counter ev' = 0%N.
Proof.
  apply (@evaluate_app_era 2 (new_Evaluator false)
           (Op2 (lit "%") (Num 1) (Num 2))); [lia|reflexivity].
Defined.

(** Terms without a redex for the rules of [reduce]: variables,
    projections, numbers and [Era]; [Lam], [Sup] and [Pair] of such terms;
    applications whose function is none of [Lam], [Sup], [Era]; operations
    whose operands are not two numbers and of which none is a [Sup] or
    [Era]. *)
Fixpoint settled (t : Term) : bool :=
  match t with
  | Var _ | Dp0 _ | Dp1 _ | Num _ | Era => true
  | Lam _ body => settled body
  | Sup _ a b | Pair a b => settled a && settled b
  | App f a =>
      settled f && settled a
      && match f with
         | Lam _ _ | Sup _ _ _ | Era => false
         | _ => true
         end
  | Op2 _ a b =>
      settled a && settled b
      && match a, b with
         | Num _, Num _ => false
         | Sup _ _ _, _ | _, Sup _ _ _ | Era, _ | _, Era => false
         | _, _ => true
         end
  | Dup _ _ _ _ => false
  end.

Lemma reduce_settled fuel :
  forall t c, settled t = true -> height t <= fuel ->
              reduce fuel t c = Ok (t, c).
Proof.
  induction fuel as [|f IH]; intros t c Hs Hh.
  - destruct t; simpl in Hh; lia.
  - destruct t; cbn [settled height] in Hs, Hh; try reflexivity;
      try discriminate Hs;
      repeat match goal with
             | H : _ && _ = true |- _ => apply andb_true_iff in H as [? ?]
             end;
      cbn [reduce]; unfold reduce_app, reduce_op2, bind, ret.
    + rewrite (IH t c) by (auto; lia). reflexivity.
    + rewrite (IH t1 c) by (auto; lia).
      destruct t1; try discriminate; rewrite (IH t2 c) by (auto; lia);
        reflexivity.
    + rewrite (IH t1 c), (IH t2 c) by (auto; lia). reflexivity.
    + rewrite (IH t1 c), (IH t2 c) by (auto; lia).
      destruct t1; destruct t2; try discriminate; reflexivity.
    + rewrite (IH t1 c), (IH t2 c) by (auto; lia). reflexivity.
Qed.

(** X10.  A term without a redex is its own normal form: [evaluate]
    returns it as it is, for every bound, and draws no fresh name. *)
Theorem evaluate_settled (fuel : nat) (ev : Evaluator) (t : Term) :
  settled t = true ->
  height t <= fuel ->
  exists ev',
    evaluate fuel ev t = Ok (t, ev')
    /\ fresh_counter ev' = fresh_counter ev
    /\ (steps ev' <= 1)%N.
Proof.
  intros Hs Hh. unfold evaluate.
  destruct (@evaluate_loop_stable (N.to_nat (max_steps ev)) fuel
              {| debug := debug ev; fresh_counter := fresh_counter ev;
                 steps := 0; max_steps := max_steps ev |} t None)
    as (ev' & Hev & Hc & _ & Hst).
  - unfold budget_ok. simpl. lia.
  - now apply reduce_settled.
  - exists ev'. repeat split; auto.
Qed.

Lemma evaluate_settled_witness :
  exists ev',
    evaluate 4 (new_Evaluator false)
      (Lam (lit "f") (Pair (App (Var (lit "f")) (Num 1))
                        (Op2 (lit "+") (Var (lit "f")) (Num 2))))
    = Ok (Lam (lit "f") (Pair (App (Var (lit "f")) (Num 1))
                           (Op2 (lit "+") (Var (lit "f")) (Num 2))), ev')
    /\ fresh_counter ev' = 0%N
    /\ (steps ev' <= 1)%N.
Proof.
  apply (@evaluate_settled 4 (new_Evaluator false)
           (Lam (lit "f") (Pair (App (Var (lit "f")) (Num 1))
                             (Op2 (lit "+") (Var (lit "f")) (Num 2))))).
  - reflexivity.
  - simpl. lia.
Defined.

(** ** Edge cases of the parser *)

Lemma span_all p (l : pystr) : forallb p l = true -> span p l = length l.
Proof.
  intros H. rewrite <- (List.app_nil_r l) at 1. now apply span_app.
Qed.

(** X11.  An input that is empty or holds whitespace only has no term:
    [parse] raises the [ParseError] of the unexpected end of input. *)
Theorem parse_blank (ud : UnicodeData) (text : pystr) :
  forallb is_space text = true ->
  parse ud text = Raise (ParseError UnexpectedEnd).
Proof.
  intros Hws. unfold parse, Parser_parse.
  unfold bind at 1. unfold skip_whitespace at 1. unfold scan.
  cbn [skipn Nat.add]. rewrite (span_all is_space text Hws).
  unfold bind at 1. cbn [parse_term].
  unfold bind at 1. unfold skip_whitespace at 1. unfold scan.
  rewrite skipn_all. cbn [span]. rewrite Nat.add_0_r.
  unfold bind at 1. unfold peek.
  replace (nth_error text (length text)) with (@None char)
    by (symmetry; apply nth_error_None; lia).
  reflexivity.
Qed.

Lemma parse_blank_witness :
  parse ascii_only (lit "  ") = Raise (ParseError UnexpectedEnd).
Proof. apply (@parse_blank ascii_only (lit "  ")). reflexivity. Defined.

(** X12.  A first character that is no whitespace and begins no term (none
    of [&], [!], [λ], [\], [(], a digit, a letter, an underscore) is
    reported as unexpected, at offset 0. *)
Theorem parse_unexpected_first (ud : UnicodeData) (c : char) (r : pystr) :
  is_space c = false ->
  N.eqb c (chr "&") = false ->
  N.eqb c (chr "!") = false ->
  N.eqb c c_lambda = false ->
  N.eqb c (chr "\") = false ->
  N.eqb c (chr "(") = false ->
  isdigit ud c = false ->
  isalpha ud c = false ->
  N.eqb c (chr "_") = false ->
  parse ud (c :: r) = Raise (ParseError (UnexpectedCharacter c 0)).
Proof.
  intros Hs Ha Hb Hl Hbs Hp Hd Hal Hu. unfold parse, Parser_parse.
  unfold bind at 1. unfold skip_whitespace at 1. unfold scan.
  cbn [skipn Nat.add span]. rewrite Hs.
  unfold bind at 1. cbn [parse_term].
  unfold bind at 1. unfold skip_whitespace at 1. unfold scan.
  cbn [skipn Nat.add span]. rewrite Hs.
  unfold bind at 1. unfold peek at 1. cbn [nth_error].
  unfold bind at 1. unfold peek_ahead at 1.
  unfold slice. cbn [Nat.add Nat.sub skipn].
  match goal with
  | |- context [str_eqb ?a ?b] =>
      replace (str_eqb a b) with false
        by (symmetry; apply (@not_era c r); exact Ha)
  end.
  rewrite Ha, Hb, Hl, Hbs, Hp, Hd, Hal, Hu. reflexivity.
Qed.

Lemma parse_unexpected_first_witness :
  parse ascii_only (lit ")x") = Raise (ParseError (UnexpectedCharacter (chr ")") 0)).
Proof.
  apply (@parse_unexpected_first ascii_only (chr ")") (lit "x"));
    reflexivity.
Defined.

Lemma ltrim_whitespace ws s : forallb is_space ws = true -> ltrim (ws ++ s) = ltrim s.
Proof.
  intros H. induction ws as [|c ws IH]; [reflexivity|].
  cbn [forallb] in H. apply andb_true_iff in H as [Hc Hws].
  unfold ltrim in *. cbn [app span]. rewrite Hc. cbn [skipn]. now apply IH.
Qed.

Lemma spaces_are_space n : forallb is_space (repeat (chr " ") n) = true.
Proof. induction n; simpl; auto. Qed.

(** What [Parser.parse] makes of the outcome of its three steps. *)
Lemma parse_outcome ud text t rest :
  runs text
    (skip_whitespace text ;;;
     term <- parse_term ud text (S (length text)) ;;
     skip_whitespace text ;;; ret term) text t rest ->
  match rest with
  | [] => parse ud text = Ok t
  | c :: r =>
      parse ud text
      = Raise (ParseError (TrailingCharacter (length text - length rest) c))
  end.
Proof.
  intros Hall. destruct (Hall 0 eq_refl) as (p & Hp & Hr).
  assert (Hpos : rest <> [] -> p = length text - length rest).
  { intros Hne. unfold rest_at in Hr.
    apply (f_equal (@length char)) in Hr. rewrite length_skipn in Hr.
    destruct rest; [congruence|]. simpl in *. lia. }
  unfold parse, Parser_parse. unfold bind in *.
  destruct (skip_whitespace text 0) as [[u p0]| |]; try discriminate.
  destruct (parse_term ud text (S (length text)) p0) as [[t0 p1]| |];
    try discriminate.
  destruct (skip_whitespace text p1) as [[u' p2]| |]; try discriminate.
  injection Hp as -> ->. unfold get_pos.
  rewrite (rest_at_nth Hr).
  destruct rest as [|c r]; [reflexivity|].
  cbn [hd_error]. unfold raise. rewrite Hpos by discriminate. reflexivity.
Qed.

Lemma parse_term_reads ud text fuel t :
  surface t = true -> height t <= fuel ->
  reads text (parse_term ud text fuel) t.
Proof. intros Hs Hh rest Hf. now apply parse_term_print. Qed.

(** X13.  Text left after a complete term is an error: when the text of a
    surface term is followed by [)], [,], [}] or [;], [parse] raises the
    [ParseError] of the unexpected character, whose offset is the length of
    the term's text. *)
Theorem parse_trailing (ud : UnicodeData) (t : Term) (c : char) (r : pystr) :
  surface t = true ->
  follow_char c = true ->
  is_space c = false ->
  parse ud (str t ++ c :: r)
  = Raise (ParseError (TrailingCharacter (length (str t)) c)).
Proof.
  intros Hs Hf Hc.
  pose proof (@parse_outcome ud (str t ++ c :: r) t (c :: r)) as H.
  cbn iota in H.
  replace (length (str t ++ c :: r) - length (c :: r)) with (length (str t))
    in H by (rewrite length_app; lia).
  apply H.
  eapply runs_bind;
    [apply runs_skip_nothing; apply starts_ltrim; now apply str_starts|].
  eapply runs_bind.
  { apply parse_term_print; auto.
    pose proof (height_le_length t Hs). rewrite length_app. lia. }
  rewrite (@ltrim_start c r Hc).
  eapply runs_bind; [apply runs_skip_nothing; now apply ltrim_start|].
  apply runs_ret.
Qed.

Lemma parse_trailing_witness :
  parse ascii_only (str (Num 12) ++ chr ")" :: lit " 3")
  = Raise (ParseError (TrailingCharacter 2 (chr ")"))).
Proof.
  apply (@parse_trailing ascii_only (Num 12) (chr ")") (lit " 3"));
    reflexivity.
Defined.

(** X14.  Whitespace before a term and spaces after it are insignificant:
    the text of a surface term still parses to that term. *)
Theorem parse_surrounding_whitespace (ud : UnicodeData) (t : Term)
    (ws : pystr) (n : nat) :
  surface t = true ->
  forallb is_space ws = true ->
  parse ud (ws ++ str t ++ repeat (chr " ") n) = Ok t.
Proof.
  intros Hs Hws.
  set (text := ws ++ str t ++ repeat (chr " ") n).
  apply (@parse_outcome ud text t []).
  assert (Htrim : ltrim text = str t ++ repeat (chr " ") n).
  { unfold text. rewrite ltrim_whitespace by exact Hws.
    apply starts_ltrim. now apply str_starts. }
  assert (Hend : ltrim (repeat (chr " ") n) = []).
  { rewrite <- (List.app_nil_r (repeat (chr " ") n)).
    now rewrite ltrim_whitespace by apply spaces_are_space. }
  eapply runs_bind; [apply runs_skip_whitespace|]. rewrite Htrim.
  eapply runs_bind.
  { apply parse_term_print; auto.
    - pose proof (height_le_length t Hs). unfold text.
      rewrite !length_app. lia.
    - destruct n; reflexivity. }
  rewrite Hend.
  eapply runs_bind; [apply (@runs_skip_whitespace text [])|].
  apply runs_ret.
Qed.

Lemma parse_surrounding_whitespace_witness :
  parse ascii_only
    (chr " " :: 9%N :: 10%N :: str (Pair (Num 1) (Var (lit "x")))
       ++ repeat (chr " ") 2)
  = Ok (Pair (Num 1) (Var (lit "x"))).
Proof.
  apply (@parse_surrounding_whitespace ascii_only
           (Pair (Num 1) (Var (lit "x"))) [chr " "; 9%N; 10%N] 2);
    reflexivity.
Defined.

(** ** Other spellings *)

Lemma start_char_not_brace c : start_char c = true -> N.eqb c (chr "}") = false.
Proof.
  intros H. destruct (start_char_cases c H) as [->|Hc]; [reflexivity|].
  apply negb_true_iff.
  apply (enum_implies start_char (fun c => negb (N.eqb c (chr "}"))));
    [vm_compute; reflexivity|exact Hc|exact H].
Qed.

Section Spellings.

Variable ud : UnicodeData.
Variable text : pystr.
Variable rec : P Term.

Lemma runs_parse_sup_default a b rest :
starts (str a) -> starts (str b) ->
reads text rec a -> reads text rec b ->
runs text (parse_sup ud text rec)
  (lit "&{" ++ str a ++ lit ", " ++ str b ++ lit "}" ++ rest)
  (Sup (lit "L") a b) (ltrim rest).
Proof.
intros Hsa Hsb Ha Hb. unfold parse_sup.
eapply runs_bind.
{ apply (@runs_consume_to text (lit "&")
           (lit "{" ++ str a ++ lit ", " ++ str b ++ lit "}" ++ rest)).
  reflexivity. }
eapply runs_bind.
{ apply (@runs_parse_word ud text []
           (lit "{" ++ str a ++ lit ", " ++ str b ++ lit "}" ++ rest)).
  reflexivity. }
cbn [default_label].
eapply runs_bind; [apply runs_skip_nothing; reflexivity|].
eapply runs_bind.
{ apply (@runs_consume_to text (lit "{")). now apply starts_ltrim. }
eapply runs_bind;
  [apply (Ha (lit ", " ++ str b ++ lit "}" ++ rest)); reflexivity|].
eapply runs_bind.
{ apply (@runs_consume_to text (lit ",")
           (chr " " :: str b ++ lit "}" ++ rest)).
  now apply starts_ltrim_space. }
eapply runs_bind; [apply (Hb (lit "}" ++ rest)); reflexivity|].
eapply runs_bind; [apply (@runs_consume text (lit "}") rest)|].
apply runs_ret.
Qed.

Lemma runs_parse_lam_backslash x body rest :
word x = true -> starts (str body) -> reads text rec body ->
follows rest = true ->
runs text (parse_lam ud text rec)
  (lit "\" ++ x ++ lit "." ++ str body ++ rest) (Lam x body) (ltrim rest).
Proof.
intros Hx Hs Hb Hf. unfold parse_lam.
eapply runs_bind; [apply runs_peek|].
cbn [hd_error app lit map list_ascii_of_string].
change (N.eqb (N_of_ascii "\") c_lambda) with false. cbv iota.
eapply runs_bind.
{ apply (@runs_consume_to text (lit "\")).
  apply (@word_ltrim x (chr ".")); [exact Hx|reflexivity]. }
eapply runs_bind;
  [apply (@runs_word ud text x (chr ".")); [exact Hx|reflexivity]|].
eapply runs_bind; [apply runs_skip_nothing; reflexivity|].
eapply runs_bind.
{ apply (@runs_consume_to text (lit ".")). now apply starts_ltrim. }
eapply runs_bind; [apply Hb; exact Hf|].
apply runs_ret.
Qed.

End Spellings.

(** X15.  A superposition written without a label gets the label [L]; so
    the text the printer writes for a [Sup] whose label is the empty string
    parses to a [Sup] labelled [L]. *)
Theorem parse_default_label (ud : UnicodeData) (a b : Term) :
  surface a = true ->
  surface b = true ->
  str (Sup [] a b) = lit "&{" ++ str a ++ lit ", " ++ str b ++ lit "}"
  /\ parse ud (str (Sup [] a b)) = Ok (Sup (lit "L") a b).
Proof.
  intros Ha Hb. split; [reflexivity|].
  change (str (Sup [] a b))
    with (chr "&" :: lit "{" ++ str a ++ lit ", " ++ str b ++ lit "}" ++ []).
  set (tail := lit "{" ++ str a ++ lit ", " ++ str b ++ lit "}" ++ []).
  assert (Hla : height a <= length (chr "&" :: tail)).
  { pose proof (height_le_length a Ha). unfold tail. cbn [length].
    rewrite !length_app. lia. }
  assert (Hlb : height b <= length (chr "&" :: tail)).
  { pose proof (height_le_length b Hb). unfold tail. cbn [length].
    rewrite !length_app. lia. }
  apply parse_runs; [reflexivity|].
  apply (@runs_parse_term ud (chr "&" :: tail) (length (chr "&" :: tail))
           (chr "&") tail); [reflexivity|].
  destruct (str_starts a Ha) as (c & s & Es & Hc).
  replace (str_eqb (firstn 3 (chr "&" :: tail)) (lit "&{}")) with false.
  2:{ symmetry. unfold tail. rewrite Es. apply str_eqb_neq. intros E.
      apply start_char_not_brace in Hc. apply N.eqb_neq in Hc. apply Hc.
      simpl in E. now injection E. }
  rewrite N.eqb_refl.
  apply (@runs_parse_sup_default ud (chr "&" :: tail) _ a b []);
    auto using str_starts, parse_term_reads.
Qed.

Lemma parse_default_label_witness :
  str (Sup [] (Num 1) (Num 2)) = lit "&{" ++ str (Num 1) ++ lit ", "
                                   ++ str (Num 2) ++ lit "}"
  /\ parse ascii_only (str (Sup [] (Num 1) (Num 2)))
     = Ok (Sup (lit "L") (Num 1) (Num 2)).
Proof.
  apply (@parse_default_label ascii_only (Num 1) (Num 2)); reflexivity.
Defined.

(** X16.  The backslash is read as [λ]: a backslash, a word, a dot and the
    text of a surface term parse to the abstraction of that term. *)
Theorem parse_backslash_lambda (ud : UnicodeData) (x : pystr) (body : Term) :
  word x = true ->
  surface body = true ->
  parse ud (lit "\" ++ x ++ lit "." ++ str body) = Ok (Lam x body).
Proof.
  intros Hx Hb.
  rewrite <- (List.app_nil_r (str body)).
  set (tail := x ++ lit "." ++ str body ++ []).
  change (lit "\" ++ x ++ lit "." ++ str body ++ []) with (chr "\" :: tail).
  assert (Hh : height body <= length (chr "\" :: tail)).
  { pose proof (height_le_length body Hb). unfold tail. cbn [length].
    rewrite !length_app. lia. }
  apply parse_runs; [reflexivity|].
  apply (@runs_parse_term ud (chr "\" :: tail) (length (chr "\" :: tail))
           (chr "\") tail); [reflexivity|].
  rewrite not_era by reflexivity.
  change (N.eqb (chr "\") (chr "&")) with false.
  change (N.eqb (chr "\") (chr "!")) with false.
  rewrite N.eqb_refl, orb_true_r.
  apply (@runs_parse_lam_backslash ud (chr "\" :: tail) _ x body []);
    auto using str_starts, parse_term_reads.
Qed.

Lemma parse_backslash_lambda_witness :
  parse ascii_only (lit "\" ++ lit "x" ++ lit "." ++ str (Var (lit "x")))
  = Ok (Lam (lit "x") (Var (lit "x"))).
Proof.
  apply (@parse_backslash_lambda ascii_only (lit "x") (Var (lit "x")));
    reflexivity.
Defined.

(** ** Names of parsed terms *)

(** A name no [$] occurs in. *)
Definition plain_name (s : pystr) : bool :=
  forallb (fun c => negb (N.eqb c (chr "$"))) s.

(** The names of a term: variables, projections, binders and labels. *)
Fixpoint names (t : Term) : list pystr :=
  match t with
  | Var x | Dp0 x | Dp1 x => [x]
  | Num _ | Era => []
  | Lam x body => x :: names body
  | App a b | Pair a b | Op2 _ a b => names a ++ names b
  | Sup l a b => l :: names a ++ names b
  | Dup x l a b => x :: l :: names a ++ names b
  end.

(** The labels of a term. *)
Fixpoint labels (t : Term) : list pystr :=
  match t with
  | Var _ | Dp0 _ | Dp1 _ | Num _ | Era => []
  | Lam _ body => labels body
  | App a b | Pair a b | Op2 _ a b => labels a ++ labels b
  | Sup l a b | Dup _ l a b => l :: labels a ++ labels b
  end.

Definition nonempty (s : pystr) : bool :=
  match s with
  | [] => false
  | _ => true
  end.

Definition parsed_shape (t : Term) : Prop :=
  forallb plain_name (names t) = true /\ forallb nonempty (labels t) = true.

Lemma span_firstn p (l : pystr) : forallb p (firstn (span p l) l) = true.
Proof.
  induction l as [|c l IH]; [reflexivity|]. cbn [span].
  destruct (p c) eqn:E; [|reflexivity]. cbn [firstn forallb]. now rewrite E.
Qed.

Lemma var_span_firstn ud (l : pystr) :
  forallb (var_char ud) (firstn (var_span ud l) l) = true.
Proof.
  induction l as [|c l IH]; [reflexivity|]. cbn [var_span].
  destruct (isascii c && (isalnum ud c || N.eqb c (chr "_"))) eqn:E;
    [|reflexivity].
  destruct (N.eqb c (chr "_") && _); [reflexivity|].
  cbn [firstn forallb]. unfold var_char at 1. now rewrite E.
Qed.

Lemma word_char_plain ud c :
  word_char ud c = true -> negb (N.eqb c (chr "$")) = true.
Proof.
  intros H. destruct (N.eqb_spec c (chr "$")) as [->|]; [|reflexivity].
  discriminate H.
Qed.

Lemma var_char_plain ud c :
  var_char ud c = true -> negb (N.eqb c (chr "$")) = true.
Proof.
  intros H. destruct (N.eqb_spec c (chr "$")) as [->|]; [|reflexivity].
  discriminate H.
Qed.

Lemma slice_span text pos n : slice text pos (pos + n) = firstn n (skipn pos text).
Proof. unfold slice. f_equal. lia. Qed.

Lemma parsed_shape_leaf x :
  plain_name x = true ->
  parsed_shape (Var x) /\ parsed_shape (Dp0 x) /\ parsed_shape (Dp1 x).
Proof. intros H. unfold parsed_shape. simpl. rewrite H. auto. Qed.

Lemma parsed_shape_two a b :
  parsed_shape a -> parsed_shape b ->
  parsed_shape (App a b) /\ parsed_shape (Pair a b)
  /\ forall op, parsed_shape (Op2 op a b).
Proof.
  intros [Ha1 Ha2] [Hb1 Hb2]. unfold parsed_shape. simpl.
  rewrite !forallb_app, Ha1, Ha2, Hb1, Hb2. auto.
Qed.

Lemma default_label_shape l :
  plain_name l = true ->
  plain_name (default_label l) = true /\ nonempty (default_label l) = true.
Proof. destruct l; auto. Qed.

Section ParsedShape.

Variable ud : UnicodeData.
Variable text : pystr.

Lemma parse_word_plain :
yields (fun w => plain_name w = true) (parse_word ud text).
Proof.
intros pos. unfold parse_word, bind, get_pos, scan, ret.
rewrite slice_span.
apply forallb_implies with (word_char ud);
  [apply word_char_plain|apply span_firstn].
Qed.

Lemma parse_var_shape : yields parsed_shape (parse_var ud text).
Proof.
intros pos. unfold parse_var.
unfold bind at 1. unfold get_pos at 1. unfold bind at 1.
unfold bind at 1. unfold get_pos at 1.
rewrite slice_span.
assert (Hp : plain_name
               (firstn (var_span ud (skipn pos text)) (skipn pos text))
             = true).
{ apply forallb_implies with (var_char ud);
    [apply var_char_plain|apply var_span_firstn]. }
destruct (parsed_shape_leaf _ Hp) as (HV & H0 & H1).
unfold bind, peek, peek_ahead, advance, skip_whitespace, scan, ret.
repeat match goal with
       | |- context [match ?x with _ => _ end] =>
           match x with
           | nth_error _ _ => destruct x
           | N.eqb _ _ => destruct x
           | str_eqb _ _ => destruct x
           end
       end; assumption.
Qed.

Lemma parse_num_shape : yields parsed_shape (parse_num ud text).
Proof.
unfold parse_num.
repeat (apply yields_bind with (fun _ => True);
        [apply yields_any|intros ? _]).
apply yields_ret. split; reflexivity.
Qed.

Section Productions.

Variable rec : P Term.
Hypothesis rec_shape : yields parsed_shape rec.

Ltac skip_step :=
apply yields_bind with (fun _ => True); [apply yields_any|intros ? _].
Ltac word_step w H :=
apply yields_bind with (fun w => plain_name w = true);
[apply parse_word_plain|intros w H].
Ltac rec_step t H :=
apply yields_bind with parsed_shape; [exact rec_shape|intros t H].

Lemma parse_lam_shape : yields parsed_shape (parse_lam ud text rec).
Proof.
unfold parse_lam. skip_step. skip_step. word_step wx Hx.
skip_step. skip_step. rec_step tbody Hb.
apply yields_ret. destruct Hb as [Hb1 Hb2]. unfold parsed_shape.
simpl. now rewrite Hx, Hb1, Hb2.
Qed.

Lemma parse_sup_shape : yields parsed_shape (parse_sup ud text rec).
Proof.
unfold parse_sup. skip_step. word_step wl Hl.
apply default_label_shape in Hl as [Hl Hn].
skip_step. skip_step. rec_step ta Ha. skip_step. rec_step tb Hb. skip_step.
apply yields_ret. destruct Ha as [Ha1 Ha2], Hb as [Hb1 Hb2].
unfold parsed_shape. simpl.
now rewrite !forallb_app, Hl, Hn, Ha1, Ha2, Hb1, Hb2.
Qed.

Lemma parse_dup_shape : yields parsed_shape (parse_dup ud text rec).
Proof.
unfold parse_dup. skip_step. word_step wx Hx. skip_step. skip_step.
word_step wl Hl. apply default_label_shape in Hl as [Hl Hn].
skip_step. skip_step. rec_step ta Ha. skip_step. rec_step tb Hb.
apply yields_ret. destruct Ha as [Ha1 Ha2], Hb as [Hb1 Hb2].
unfold parsed_shape. simpl.
now rewrite !forallb_app, Hx, Hl, Hn, Ha1, Ha2, Hb1, Hb2.
Qed.

Lemma parse_paren_shape : yields parsed_shape (parse_paren text rec).
Proof.
unfold parse_paren. skip_step. rec_step ta Ha. skip_step.
case_if; [|destruct (find_operator _)].
- skip_step. rec_step tb Hb. skip_step. apply yields_ret.
now destruct (parsed_shape_two Ha Hb) as (H1 & H2 & H3).
- skip_step. rec_step tb Hb. skip_step. apply yields_ret.
destruct (parsed_shape_two Ha Hb) as (H1 & H2 & H3). apply H3.
- rec_step tb Hb. skip_step. apply yields_ret.
now destruct (parsed_shape_two Ha Hb) as (H1 & H2 & H3).
Qed.

End Productions.

Lemma parse_term_shape fuel : yields parsed_shape (parse_term ud text fuel).
Proof.
induction fuel as [|f IH]; [intros pos; exact I|].
cbn [parse_term].
apply yields_bind with (fun _ => True); [apply yields_any|intros _ _].
apply yields_bind with (fun _ => True); [apply yields_any|intros c _].
destruct c as [c|]; [|intros pos; exact I].
apply yields_bind with (fun _ => True); [apply yields_any|intros a3 _].
case_if.
{ apply yields_bind with (fun _ => True); [apply yields_any|intros _ _].
  apply yields_ret. split; reflexivity. }
case_if; [now apply parse_sup_shape|].
case_if; [now apply parse_dup_shape|].
case_if; [now apply parse_lam_shape|].
case_if; [now apply parse_paren_shape|].
case_if; [apply parse_num_shape|].
case_if; [apply parse_var_shape|].
intros pos. exact I.
Qed.

End ParsedShape.

Lemma parse_shape ud text t : parse ud text = Ok t -> parsed_shape t.
Proof.
  unfold parse, Parser_parse. intros H.
  assert (Hy : yields parsed_shape
            (skip_whitespace text ;;;
             term <- parse_term ud text (S (length text)) ;;
             skip_whitespace text ;;;
             pos <- get_pos ;;
             match nth_error text pos with
             | Some c => raise (ParseError (TrailingCharacter pos c))
             | None => ret term
             end)).
  { apply yields_bind with (fun _ => True); [apply yields_any|intros _ _].
    apply yields_bind with parsed_shape; [apply parse_term_shape|].
    intros term Ht.
    apply yields_bind with (fun _ => True); [apply yields_any|intros _ _].
    apply yields_bind with (fun _ => True); [apply yields_any|intros pos _].
    destruct (nth_error text pos); [intros p; exact I|now apply yields_ret]. }
  specialize (Hy 0).
  destruct (bind _ _ 0) as [[t0 p]| |]; try discriminate.
  injection H as <-. exact Hy.
Qed.

(** X17.  No name or label of a parsed term holds a [$], and no label of a
    parsed term is empty (a missing label is [L]); every name [fresh_name]
    gives begins with [$], so a fresh name is never a name of the parsed
    input. *)
Theorem parsed_names_apart (ud : UnicodeData) (text : pystr) (t : Term) :
  parse ud text = Ok t ->
  forallb plain_name (names t) = true
  /\ forallb nonempty (labels t) = true
  /\ forall prefix c,
       match fresh_name prefix c with
       | Ok (n, _) => ~ In n (names t)
       | _ => False
       end.
Proof.
  intros H. apply parse_shape in H as [Hn Hl].
  split; [exact Hn|]. split; [exact Hl|].
  intros prefix c. unfold fresh_name. cbv zeta. intros Hin.
  rewrite forallb_forall in Hn. specialize (Hn _ Hin). discriminate Hn.
Qed.

Lemma parsed_names_apart_witness :
  forallb plain_name
    (names (Dup [] (lit "L") (Num 1) (Sup (lit "L") (Dp0 (lit "x")) (Num 2))))
  = true.
Proof.
  destruct (@parsed_names_apart ascii_only (lit "! &= 1; &{x_0, 2}")
              (Dup [] (lit "L") (Num 1)
                 (Sup (lit "L") (Dp0 (lit "x")) (Num 2))))
    as (H & _).
  - vm_compute. reflexivity.
  - exact H.
Defined.

(** ** Whole evaluations *)

Lemma parse_printed ud t : surface t = true -> parse ud (str t) = Ok t.
Proof.
  intros Hs. apply (@parse_outcome ud (str t) t []).
  eapply runs_bind.
  { apply runs_skip_nothing. rewrite <- (List.app_nil_r (str t)).
    apply starts_ltrim. now apply str_starts. }
  eapply runs_bind.
  { pose proof (@parse_term_print ud (str t) t Hs (S (length (str t))) [])
      as H.
    rewrite List.app_nil_r in H. apply H; [|reflexivity].
    pose proof (height_le_length t Hs). lia. }
  eapply runs_bind; [apply (@runs_skip_whitespace (str t) [])|].
  apply runs_ret.
Qed.

(** X18.  The source text of an expression of natural numbers and the four
    operators evaluates, through [parse] and a new [Evaluator], to the
    number the expression denotes. *)
Theorem evaluate_text_arithmetic (ud : UnicodeData) (fuel : nat) (t : Term) :
  surface t = true ->
  arithmetic t = true ->
  height t <= fuel ->
  evaluate_text ud fuel (str t) = Ok (Num (arithmetic_value t)).
Proof.
  intros Hs Ha Hh. unfold evaluate_text. rewrite (parse_printed ud t Hs).
  destruct (@arithmetic_run fuel (new_Evaluator false) t Ha Hh)
    as (ev' & -> & _); reflexivity.
Qed.

Lemma evaluate_text_arithmetic_witness :
  evaluate_text ascii_only 3
    (str (Op2 (lit "*") (Op2 (lit "+") (Num 2) (Num 2)) (Num 5)))
  = Ok (Num 20).
Proof.
  apply (@evaluate_text_arithmetic ascii_only 3
           (Op2 (lit "*") (Op2 (lit "+") (Num 2) (Num 2)) (Num 5)));
    [reflexivity|reflexivity|simpl; lia].
Defined.

(** X19.  The identity applied to a term without redex normalises to that
    term: [(λx.x v)] gives [v], and no fresh name is drawn. *)
Theorem evaluate_identity (fuel : nat) (ev : Evaluator) (x : pystr)
    (v : Term) :
  settled v = true ->
  height v <= fuel ->
  3 <= fuel ->
  (0 < max_steps ev)%N ->
  exists ev',
    evaluate fuel ev (App (Lam x (Var x)) v) = Ok (v, ev')
    /\ fresh_counter ev' = fresh_counter ev.
Proof.
  intros Hs Hh Hfuel Hmax. unfold evaluate. rewrite evaluate_loop_unfold.
  cbn [steps max_steps fresh_counter].
  replace (0 <? max_steps ev)%N with true by (symmetry; now apply N.ltb_lt).
  replace (str_eqb (str (App (Lam x (Var x)) v)) (str_opt None)) with false
    by reflexivity.
  cbn [negb andb].
  destruct (N.to_nat (max_steps ev)) as [|b] eqn:Hb; [lia|].
  assert (Hred : reduce fuel (App (Lam x (Var x)) v) (fresh_counter ev)
                 = Ok (v, fresh_counter ev)).
  { destruct fuel as [|[|[|f]]]; try lia.
    cbn [reduce]. unfold reduce_app, bind, ret. cbn [substitute].
    now rewrite str_eqb_refl. }
  rewrite Hred.
  destruct (@evaluate_loop_stable b fuel
              (next_step
                 {| debug := debug ev; fresh_counter := fresh_counter ev;
                    steps := 0; max_steps := max_steps ev |}
                 (fresh_counter ev))
              v (Some (App (Lam x (Var x)) v))) as (ev' & Hev & Hc & _).
  - unfold budget_ok. simpl. lia.
  - now apply reduce_settled.
  - exists ev'. split; [exact Hev|exact Hc].
Qed.

Lemma evaluate_identity_witness :
  exists ev',
    evaluate 3 (new_Evaluator false)
      (App (Lam (lit "x") (Var (lit "x"))) (Num 42)) = Ok (Num 42, ev')
    /\ fresh_counter ev' = 0%N.
Proof.
  apply (@evaluate_identity 3 (new_Evaluator false) (lit "x") (Num 42));
    [reflexivity|simpl; lia|lia|reflexivity].
Defined.

(** Two successor attempts that reach a term [reduce] leaves as it is. *)
Lemma evaluate_two_steps fuel ev t t1 t2 c1 c2 :
  reduce fuel t (fresh_counter ev) = Ok (t1, c1) ->
  reduce fuel t1 c1 = Ok (t2, c2) ->
  reduce fuel t2 c2 = Ok (t2, c2) ->
  str_eqb (str t) (lit "None") = false ->
  str_eqb (str t1) (str t) = false ->
  (2 <= max_steps ev)%N ->
  exists ev',
    evaluate fuel ev t = Ok (t2, ev') /\ fresh_counter ev' = c2.
Proof.
  intros H1 H2 H3 Hn Hd Hmax. unfold evaluate.
  set (ev0 := {| debug := debug ev; fresh_counter := fresh_counter ev;
                 steps := 0; max_steps := max_steps ev |}).
  destruct (N.to_nat (max_steps ev0)) as [|[|b]] eqn:Hb;
    try (simpl in Hb; lia).
  rewrite evaluate_loop_unfold. cbn [str_opt]. rewrite Hn.
  replace (steps ev0 <? max_steps ev0)%N with true
    by (symmetry; apply N.ltb_lt; simpl; lia).
  cbn [negb andb]. cbn [ev0 fresh_counter]. rewrite H1.
  rewrite evaluate_loop_unfold. cbn [str_opt]. rewrite Hd.
  replace (steps (next_step ev0 c1) <? max_steps (next_step ev0 c1))%N
    with true by (symmetry; apply N.ltb_lt; simpl; lia).
  cbn [negb andb]. cbn [next_step fresh_counter]. rewrite H2.
  destruct (@evaluate_loop_stable b fuel
              (next_step (next_step ev0 c1) c2) t2 (Some t1))
    as (ev' & Hev & Hc & _).
  - unfold budget_ok. simpl in *. lia.
  - exact H3.
  - exists ev'. split; [exact Hev|exact Hc].
Qed.

(** X20.  Arithmetic distributes over a superposition of numbers:
    [(n op &l{a, b})] normalises to [&l{n op a, n op b}] without drawing a
    name, and [(&l{a, b} op n)] to [&l{a op n, b op n}] after drawing one
    name for the duplication of [n]. *)
Theorem evaluate_op2_sup (fuel : nat) (ev : Evaluator) (op l : pystr)
    (n a b : Z) :
  In op operators ->
  4 <= fuel ->
  (2 <= max_steps ev)%N ->
  (exists ev',
     evaluate fuel ev (Op2 op (Num n) (Sup l (Num a) (Num b)))
     = Ok (Sup l (Num (floor_op op n a)) (Num (floor_op op n b)), ev')
     /\ fresh_counter ev' = fresh_counter ev)
  /\ (exists ev',
        evaluate fuel ev (Op2 op (Sup l (Num a) (Num b)) (Num n))
        = Ok (Sup l (Num (floor_op op a n)) (Num (floor_op op b n)), ev')
        /\ fresh_counter ev' = (fresh_counter ev + 1)%N).
Proof.
  intros Hop Hfuel Hmax.
  destruct fuel as [|[|[|[|f]]]]; try lia.
  assert (Hc : forall x y c, compute_op op x y c = Ok (floor_op op x y, c))
    by (intros; now apply compute_op_floor).
  split.
  - apply evaluate_two_steps
      with (t1 := Sup l (Op2 op (Num n) (Num a)) (Op2 op (Num n) (Num b)))
           (c1 := fresh_counter ev).
    + reflexivity.
    + cbn [reduce]. unfold reduce_op2, bind, ret. cbn [reduce].
      unfold ret. now rewrite !Hc.
    + reflexivity.
    + reflexivity.
    + reflexivity.
    + exact Hmax.
  - set (y := lit "$" ++ lit "y" ++ str_N (fresh_counter ev + 1)).
    apply evaluate_two_steps
      with (t1 := Dup y l (Num n)
                    (Sup l (Op2 op (Num a) (Dp0 y)) (Op2 op (Num b) (Dp1 y))))
           (c1 := (fresh_counter ev + 1)%N).
    + reflexivity.
    + cbn [reduce]. unfold reduce_dup, bind, ret. cbn [reduce].
      unfold ret. cbn [contains_dp]. rewrite !str_eqb_refl.
      cbn [andb orb negb Nat.eqb]. cbn [substitute_dp].
      rewrite !str_eqb_refl. cbn [reduce]. unfold reduce_op2, bind, ret.
      cbn [reduce]. unfold ret. now rewrite !Hc.
    + reflexivity.
    + reflexivity.
    + reflexivity.
    + exact Hmax.
Qed.

Lemma evaluate_op2_sup_witness :
  (exists ev',
     evaluate 4 (new_Evaluator false)
       (Op2 (lit "+") (Num 10) (Sup (lit "L") (Num 1) (Num 2)))
     = Ok (Sup (lit "L") (Num 11) (Num 12), ev')
     /\ fresh_counter ev' = 0%N)
  /\ (exists ev',
        evaluate 4 (new_Evaluator false)
          (Op2 (lit "+") (Sup (lit "L") (Num 1) (Num 2)) (Num 10))
        = Ok (Sup (lit "L") (Num 11) (Num 12), ev')
        /\ fresh_counter ev' = 1%N).
Proof.
  apply (@evaluate_op2_sup 4 (new_Evaluator false) (lit "+") (lit "L")
           10 1 2).
  - simpl. auto.
  - lia.
  - simpl. lia.
Defined.

(** * Idempotence below the bound *)

(** ** How a run below the bound stops *)

(** The attempts behind a result of [evaluate]. *)
Lemma evaluate_attempts fuel ev ev1 t u :
  evaluate fuel ev t = Ok (u, ev1) ->
  exists n prev,
    attempts fuel n t (fresh_counter ev) None u (fresh_counter ev1) prev
    /\ max_steps ev1 = max_steps ev
    /\ (steps ev1 = max_steps ev \/ str u = printed prev).
Proof.
  unfold evaluate. intros He.
  pose proof (@evaluate_loop_attempts fuel (N.to_nat (max_steps ev))
                {| debug := debug ev; fresh_counter := fresh_counter ev;
                   steps := 0; max_steps := max_steps ev |} t None) as H.
  cbn [steps max_steps fresh_counter debug option_map] in H, He.
  specialize (H ltac:(unfold budget_ok; simpl; lia) ltac:(lia)).
  rewrite He in H.
  destruct H as (n & prev & Ha & _ & _ & Hm & _ & Hstop).
  exists n, prev. repeat split; assumption.
Qed.

(** A run that ends with [steps] below the bound has stopped on the test of
    the printed forms: its result prints like the term of its last attempt,
    or like [None] when it made no attempt. *)
Lemma stop_below_bound fuel ev ev1 t u :
  evaluate fuel ev t = Ok (u, ev1) ->
  (steps ev1 < max_steps ev1)%N ->
  exists n prev,
    attempts fuel n t (fresh_counter ev) None u (fresh_counter ev1) prev
    /\ str u = printed prev.
Proof.
  intros He Hlt.
  destruct (@evaluate_attempts _ _ _ _ _ He)
    as (n & prev & Ha & Hm & [Hstop|Hstop]); [lia|].
  exists n, prev. split; assumption.
Qed.

(** A term that prints like [None] is returned at once. *)
Lemma evaluate_None fuel ev u :
  str u = lit "None" ->
  exists ev',
    evaluate fuel ev u = Ok (u, ev')
    /\ fresh_counter ev' = fresh_counter ev
    /\ steps ev' = 0%N.
Proof.
  intros Hu. unfold evaluate. rewrite evaluate_loop_unfold.
  cbn [str_opt]. rewrite Hu, str_eqb_refl. cbn [negb andb].
  eexists. split; [reflexivity|]. split; reflexivity.
Qed.

(** When the attempt that stopped a run below the bound returned its very
    input, at the counter it was given, the result is a fixpoint of
    [reduce], and normalising it again returns it. *)
Lemma idempotent_after_exact_stop fuel ev ev1 ev2 t u :
  evaluate fuel ev t = Ok (u, ev1) ->
  (steps ev1 < max_steps ev1)%N ->
  (forall n p cp,
     attempts fuel n t (fresh_counter ev) None
       u (fresh_counter ev1) (Some (p, cp)) ->
     str u = str p -> p = u /\ cp = fresh_counter ev1) ->
  fresh_counter ev2 = fresh_counter ev1 ->
  exists ev3,
    evaluate fuel ev2 u = Ok (u, ev3)
    /\ fresh_counter ev3 = fresh_counter ev1.
Proof.
  intros He Hlt Hexact Hc.
  destruct (@stop_below_bound _ _ _ _ _ He Hlt) as (n & [[p cp]|] & Ha & Hp).
  - destruct (Hexact n p cp Ha Hp) as [-> ->].
    destruct (@attempts_last _ _ _ _ _ _ _ _ Ha)
      as [(_ & _ & _ & Hn)|(p & cp & Hs & Hr)];
      [discriminate|].
    injection Hs as <- <-.
    unfold evaluate.
    edestruct (@evaluate_loop_stable
                 (N.to_nat (max_steps ev2)) fuel
                 {| debug := debug ev2; fresh_counter := fresh_counter ev2;
                    steps := 0; max_steps := max_steps ev2 |}
                 u None) as (ev3 & Hev & Hc3 & _).
    + unfold budget_ok. simpl. lia.
    + simpl. rewrite Hc. exact Hr.
    + exists ev3. split; [exact Hev|]. simpl in Hc3. congruence.
  - destruct (@evaluate_None fuel ev2 u Hp) as (ev3 & Hev & Hc3 & _).
    exists ev3. split; [exact Hev|congruence].
Qed.

(** Without that, a stop below the bound need not be a normal form: with
    [A = λx.v], where [v] is the variable named [(x x)], the term
    [(λx.(x x) A)] reduces to [(A A)], which prints like it; [evaluate]
    stops there after one attempt, and normalising [(A A)] gives [v]. *)
Lemma printed_alike_stop_not_idempotent :
  let A := Lam (lit "x") (Var (lit "(x x)")) in
  let t := App (Lam (lit "x") (App (Var (lit "x")) (Var (lit "x")))) A in
  exists ev1 ev2,
    evaluate 8 (new_Evaluator false) t = Ok (App A A, ev1)
    /\ steps ev1 = 1%N
    /\ str (App A A) = str t
    /\ evaluate 8 ev1 (App A A) = Ok (Var (lit "(x x)"), ev2)
    /\ str (Var (lit "(x x)")) <> str (App A A).
Proof.
  do 2 eexists.
  split; [vm_compute; reflexivity|].
  split; [vm_compute; reflexivity|].
  split; [vm_compute; reflexivity|].
  split; [vm_compute; reflexivity|].
  vm_compute. discriminate.
Qed.

(** ** Surface terms over the natural numbers *)

(** The operators that take natural numbers to natural numbers. *)
Definition natural_operators : list pystr := [lit "+"; lit "*"; lit "/"].

(** The surface terms, in all eleven variants, whose operators are among
    these: the terms whose arithmetic makes no negative number, which the
    grammar has no literal for. *)
Fixpoint natural (t : Term) : bool :=
  match t with
  | Var x | Dp0 x | Dp1 x => identifier x
  | Num v => (0 <=? v)%Z
  | Lam x body => word x && natural body
  | App a b | Pair a b => natural a && natural b
  | Sup l a b => label_word l && natural a && natural b
  | Dup x l a b => word x && label_word l && natural a && natural b
  | Era => true
  | Op2 op a b =>
      existsb (str_eqb op) natural_operators && natural a && natural b
  end.


Ltac split_andb :=
  repeat match goal with
         | H : _ && _ = true |- _ => apply andb_true_iff in H; destruct H
         end.

Lemma natural_operator op :
  existsb (str_eqb op) natural_operators = true -> In op operators.
Proof.
  intros H. apply existsb_exists in H as (x & Hin & Hx).
  apply str_eqb_eq in Hx. subst x.
  unfold natural_operators, operators in *.
  destruct Hin as [H|[H|[H|[]]]]; rewrite <- H;
    [left|right; right; left|right; right; right; left]; reflexivity.
Qed.





Lemma compute_op_natural op a b :
  existsb (str_eqb op) natural_operators = true ->
  (0 <= a)%Z -> (0 <= b)%Z ->
  exists r, (0 <= r)%Z /\ forall c, compute_op op a b c = Ok (r, c).
Proof.
  intros Hop Ha Hb. exists (floor_op op a b). split.
  - apply existsb_exists in Hop as (x & Hin & Hx).
    apply str_eqb_eq in Hx. subst x.
    unfold natural_operators in Hin.
    destruct Hin as [H|[H|[H|[]]]]; rewrite <- H; unfold floor_op; simpl.
    + lia.
    + apply Z.mul_nonneg_nonneg; assumption.
    + destruct (b =? 0)%Z eqn:E; [lia|].
      apply Z.eqb_neq in E. apply Z.div_pos; lia.
  - intros c. apply compute_op_floor. now apply natural_operator.
Qed.

(** ** What [reduce] does when it draws no name *)

















(** ** Runs that draw no name *)





(** ** Terms without [Sup] and [Dup] *)

(** The surface terms over the natural numbers without [Sup] and [Dup]:
    no [reduce] of such a term draws a fresh name, so that the condition on
    the counter holds of every run from such a term. *)
Fixpoint plain (t : Term) : bool :=
  match t with
  | Var x | Dp0 x | Dp1 x => identifier x
  | Num v => (0 <=? v)%Z
  | Lam x body => word x && plain body
  | App a b | Pair a b => plain a && plain b
  | Sup _ _ _ | Dup _ _ _ _ => false
  | Era => true
  | Op2 op a b => existsb (str_eqb op) natural_operators && plain a && plain b
  end.

Lemma plain_natural t : plain t = true -> natural t = true.
Proof.
  induction t as [x|x|x|v|x b IHb|f IHf a IHa|l a IHa b IHb
                 |x l a IHa b IHb| |op a IHa b IHb|a IHa b IHb];
    cbn [plain natural]; intros H; try exact H; try discriminate;
    split_andb; repeat (apply andb_true_iff; split); auto.
Qed.

Lemma substitute_plain t x v :
  plain t = true -> plain v = true -> plain (substitute t x v) = true.
Proof.
  intros Ht Hv.
  induction t as [y|y|y|n|y b IHb|f IHf a IHa|l a IHa b IHb
                 |y l a IHa b IHb| |op a IHa b IHb|a IHa b IHb];
    cbn [plain substitute] in *; try exact Ht; try discriminate;
    try (destruct (str_eqb y x); [assumption|]); cbn [plain];
    split_andb; repeat (apply andb_true_iff; split); auto.
Qed.

(** On a plain term [reduce] either runs out of depth or returns a plain
    term, whatever the counter, which it leaves as it is. *)
Definition pure_step (fuel : nat) (t : Term) : Prop :=
  (forall c, reduce fuel t c = NoFuel)
  \/ exists t', plain t' = true /\ forall c, reduce fuel t c = Ok (t', c).

Ltac run_reduce :=
  intros ?c; cbn [reduce]; unfold reduce_app, reduce_op2, bind, ret;
  repeat (match goal with
          | H : forall c, reduce _ _ c = _ |- _ => rewrite H
          end; cbv beta iota).

Lemma reduce_plain fuel : forall t, plain t = true -> pure_step fuel t.
Proof.
  induction fuel as [|f IH]; intros t Ht; [left; reflexivity|].
  destruct t as [x|x|x|v|x b|fn a|l a b|x l a b| |op a b|a b];
    cbn [plain] in Ht; try discriminate;
    try (right; eexists; split; [|intros c; reflexivity]; exact Ht).
  - apply andb_true_iff in Ht as [Hx Hb].
    destruct (IH b Hb) as [Hn|(b' & Hb' & Hr)].
    + left. run_reduce. reflexivity.
    + right. exists (Lam x b'). split; [|run_reduce; reflexivity].
      cbn [plain]. now rewrite Hx, Hb'.
  - apply andb_true_iff in Ht as [Hf Ha].
    destruct (IH fn Hf) as [Hn|(f' & Hf' & Hr)];
      [left; run_reduce; reflexivity|].
    destruct (IH a Ha) as [Hna|(a' & Ha' & Hra)].
    + destruct f' as [y|y|y|n|y body|g d|l g d|y l g d| |o g d|g d];
        cbn [plain] in Hf'; try discriminate;
        try (left; run_reduce; reflexivity).
      * right. exists (substitute body y a).
        split; [|run_reduce; reflexivity].
        apply andb_true_iff in Hf' as [_ Hbody].
        now apply substitute_plain.
      * right. exists Era. split; [reflexivity|run_reduce; reflexivity].
    + destruct f' as [y|y|y|n|y body|g d|l g d|y l g d| |o g d|g d];
        cbn [plain] in Hf'; try discriminate;
        try (right; eexists; split; [|run_reduce; reflexivity];
             cbn [plain]; apply andb_true_iff; split; assumption).
      * right. exists (substitute body y a).
        split; [|run_reduce; reflexivity].
        apply andb_true_iff in Hf' as [_ Hbody].
        now apply substitute_plain.
      * right. exists Era. split; [reflexivity|run_reduce; reflexivity].
  - apply andb_true_iff in Ht as [Ht Hb].
    apply andb_true_iff in Ht as [Hop Ha].
    destruct (IH a Ha) as [Hna|(a' & Ha' & Hra)];
      [left; run_reduce; reflexivity|].
    destruct (IH b Hb) as [Hnb|(b' & Hb' & Hrb)];
      [left; run_reduce; reflexivity|].
    destruct a' as [y|y|y|n|y body|g d|l g d|y l g d| |o g d|g d];
      cbn [plain] in Ha'; try discriminate;
      destruct b' as [z|z|z|m|z body'|g' d'|l' g' d'|z l' g' d'| |o' g' d'
                     |g' d'];
      cbn [plain] in Hb'; try discriminate;
      try (right; exists Era; split; [reflexivity|run_reduce; reflexivity]);
      try (right; eexists; split; [|run_reduce; reflexivity];
           cbn [plain]; apply andb_true_iff; split;
           [apply andb_true_iff; split|]; assumption).
    apply Z.leb_le in Ha', Hb'.
    destruct (@compute_op_natural op _ _ Hop Ha' Hb') as (r & Hr & Hc).
    right. exists (Num r). split; [now apply Z.leb_le|].
    run_reduce. rewrite Hc. reflexivity.
  - apply andb_true_iff in Ht as [Ha Hb].
    destruct (IH a Ha) as [Hna|(a' & Ha' & Hra)];
      [left; run_reduce; reflexivity|].
    destruct (IH b Hb) as [Hnb|(b' & Hb' & Hrb)];
      [left; run_reduce; reflexivity|].
    right. exists (Pair a' b'). split; [|run_reduce; reflexivity].
    cbn [plain]. now rewrite Ha', Hb'.
Qed.

Lemma attempts_plain fuel n t c prev u c' prev' :
  attempts fuel n t c prev u c' prev' ->
  plain t = true -> plain u = true /\ c' = c.
Proof.
  induction 1 as [t c prev|n t c prev t1 c1 u c' prev' Hne Hr Ha IH];
    intros Ht; [auto|].
  destruct (@reduce_plain fuel t Ht) as [Hn|(t' & Ht' & Hr')].
  - rewrite Hn in Hr. discriminate.
  - rewrite Hr' in Hr. injection Hr as <- <-. apply IH. exact Ht'.
Qed.

(** A run from a plain term draws no fresh name and ends on a plain
    term. *)
Lemma plain_run_draws_no_name fuel ev ev1 t u :
  plain t = true ->
  evaluate fuel ev t = Ok (u, ev1) ->
  natural t = true /\ plain u = true /\ fresh_counter ev1 = fresh_counter ev.
Proof.
  intros Ht He.
  destruct (@evaluate_attempts _ _ _ _ _ He) as (n & prev & Ha & _).
  destruct (@attempts_plain _ _ _ _ _ _ _ _ Ha Ht) as [Hu Hc].
  split; [now apply plain_natural|]. split; assumption.
Qed.
